(** * MaildirToMbox: a shallow embedding of [maildir_to_mbox.py]

    The script walks a Maildir tree, maps every Maildir folder to one mbox
    file name and copies the messages with a three-tier fallback.

    - Python [str] values are [string]s that hold the UTF-8 bytes of the
      text, a byte that is no part of a well-formed sequence standing for the
      lone surrogate that [surrogateescape] makes of it.  They are compared
      and trimmed by code point, as [sorted] and [str.strip] do; [os.path]
      is [posixpath], so [os.sep] is ["/"].
    - The source tree is a finite tree of files, directories, directories
      that cannot be listed and symbolic links.  Paths are resolved on it
      component by component, from the root or from the working directory;
      [os.path.isdir] follows links, [os.walk] does not and skips what it
      cannot list.
    - The archives written are kept apart from the source tree, as a map from
      file name to the records of the [add] calls that returned.  What an
      [add] that raises may leave in the file is not modelled.
    - Whatever the script reaches through [mailbox], [input], [print] or
      [os.makedirs] is answered by an environment that may raise any
      [Exception] at any call; its own state is hidden and threaded through.
      Signals that are no [Exception] ([KeyboardInterrupt]) are not
      modelled; [sys.exit] is.
    - The script runs in a state-and-exception monad; a trace records the
      calls made on the terminal and on the archives. *)

From stdpp Require Import base list strings gmap sorting.
From Stdlib Require Import Ascii NArith.

(** ** Exceptions and results *)

Inductive exn : Set :=
  | ValueError
  | EOFError
  | OtherError (cls : string).

Definition result (A : Type) : Type := exn + A.

(** ** [str] methods used by the script *)

Module Str.

(** [s.startswith(pre)] *)
Fixpoint startswith (s pre : string) {struct pre} : bool :=
  match pre, s with
  | EmptyString, _ => true
  | String c pre', String a s' => if decide (a = c) then startswith s' pre' else false
  | String _ _, EmptyString => false
  end.

(** [s.endswith(c)] for a one-character suffix *)
Fixpoint endswith (s : string) (c : ascii) : bool :=
  match s with
  | EmptyString => false
  | String a EmptyString => bool_decide (a = c)
  | String _ s' => endswith s' c
  end.

(** [s.split(c)] for a one-character separator: never the empty list *)
Fixpoint split (c : ascii) (s : string) : list string :=
  match s with
  | EmptyString => [EmptyString]
  | String a s' =>
      if decide (a = c) then EmptyString :: split c s'
      else match split c s' with
           | x :: xs => String a x :: xs
           | [] => [String a EmptyString]
           end
  end.

(** [s.replace(c, d)] for one-character [c] and [d] *)
Fixpoint replace (c d : ascii) (s : string) : string :=
  match s with
  | EmptyString => EmptyString
  | String a s' => String (if decide (a = c) then d else a) (replace c d s')
  end.

(** [c.join(l)] *)
Fixpoint join (c : ascii) (l : list string) : string :=
  match l with
  | [] => EmptyString
  | [x] => x
  | x :: l' => x +:+ String c (join c l')
  end.

(** A Python [str] is kept as the bytes [os.fsencode] gives for it: UTF-8,
    where a byte that belongs to no well-formed sequence stands for the lone
    surrogate [U+DC00 + byte] ([surrogateescape]).  Comparing, sorting and
    trimming go by code point. *)
Definition byte (a : ascii) : N := N_of_ascii a.

Definition cont (y : N) : bool := (128 <=? y)%N && (y <=? 191)%N.

(** Well-formed sequences of two, three and four bytes. *)
Definition seq2 (x y : N) : bool :=
  cont y && (194 <=? x)%N && (x <=? 223)%N.

Definition seq3 (x y z : N) : bool :=
  cont y && cont z
  && (((x =? 224)%N && (160 <=? y)%N) || ((225 <=? x)%N && (x <=? 236)%N)
      || ((x =? 237)%N && (y <=? 159)%N) || ((238 <=? x)%N && (x <=? 239)%N)).

Definition seq4 (x y z w : N) : bool :=
  cont y && cont z && cont w
  && (((x =? 240)%N && (144 <=? y)%N) || ((241 <=? x)%N && (x <=? 243)%N)
      || ((x =? 244)%N && (y <=? 143)%N)).

(** The first code point of a string, the bytes it is made of and the rest
    of the string. *)
Definition first (s : string) : option (N * string * string) :=
  match s with
  | EmptyString => None
  | String a s1 =>
      let x := byte a in
      let single :=
        Some (if (x <? 128)%N then x else (56320 + x)%N, String a EmptyString, s1) in
      match s1 with
      | String b s2 =>
          let y := byte b in
          if seq2 x y
          then Some (((x - 192) * 64 + (y - 128))%N,
                     String a (String b EmptyString), s2)
          else
            match s2 with
            | String c s3 =>
                let z := byte c in
                if seq3 x y z
                then Some (((x - 224) * 4096 + (y - 128) * 64 + (z - 128))%N,
                           String a (String b (String c EmptyString)), s3)
                else
                  match s3 with
                  | String d s4 =>
                      let w := byte d in
                      if seq4 x y z w
                      then Some (((x - 240) * 262144 + (y - 128) * 4096
                                  + (z - 128) * 64 + (w - 128))%N,
                                 String a (String b (String c (String d EmptyString))),
                                 s4)
                      else single
                  | EmptyString => single
                  end
            | EmptyString => single
            end
      | EmptyString => single
      end
  end.

Fixpoint decode_upto (n : nat) (s : string) : list (N * string) :=
  match n with
  | 0 => []
  | S n' =>
      match first s with
      | Some (c, chunk, rest) => (c, chunk) :: decode_upto n' rest
      | None => []
      end
  end.

(** The code points of a string, each with its bytes. *)
Definition decode (s : string) : list (N * string) :=
  decode_upto (String.length s) s.

Definition codepoints (s : string) : list N := (decode s).*1.

(** The bytes of a list of code points. *)
Definition cat (l : list (N * string)) : string :=
  foldr (λ p r, p.2 +:+ r) EmptyString l.

(** [s1 < s2], [s1 == s2] or [s1 > s2] for two [str], by code point *)
Fixpoint cp_compare (l k : list N) : comparison :=
  match l, k with
  | [], [] => Eq
  | [], _ :: _ => Lt
  | _ :: _, [] => Gt
  | x :: l', y :: k' =>
      match (x ?= y)%N with
      | Eq => cp_compare l' k'
      | c => c
      end
  end.

Definition leb (s1 s2 : string) : bool :=
  match cp_compare (codepoints s1) (codepoints s2) with
  | Gt => false
  | _ => true
  end.

(** [s1 <= s2], the order of [sorted] and [list.sort] *)
Definition le (s1 s2 : string) : Prop := leb s1 s2.

#[global] Instance le_dec : RelDecision le := λ s1 s2, decide (Is_true (leb s1 s2)).

(** White space as [str.isspace] sees it *)
Definition isspace (c : N) : bool :=
  ((9 <=? c) && (c <=? 13) || (28 <=? c) && (c <=? 32) || (c =? 133) || (c =? 160)
   || (c =? 5760) || (8192 <=? c) && (c <=? 8202) || (c =? 8232) || (c =? 8233)
   || (c =? 8239) || (c =? 8287) || (c =? 12288))%N.

Fixpoint lstrip_chars (l : list (N * string)) : list (N * string) :=
  match l with
  | p :: l' => if isspace p.1 then lstrip_chars l' else l
  | [] => []
  end.

Definition rstrip_chars (l : list (N * string)) : list (N * string) :=
  reverse (lstrip_chars (reverse l)).

(** [s.strip()] *)
Definition strip (s : string) : string :=
  cat (rstrip_chars (lstrip_chars (decode s))).

End Str.

(** ** [posixpath] *)

Module Posix.

Definition sep : ascii := "/"%char.
Definition curdir : string := ".".
Definition pardir : string := "..".

Definition isabs (p : string) : bool := Str.startswith p "/".

(** One round of the loop of [posixpath.join]. *)
Definition join2 (path b : string) : string :=
  if Str.startswith b "/" then b
  else if bool_decide (path = "") || Str.endswith path sep then path +:+ b
  else path +:+ String sep b.

(** [os.path.join(a, *p)] *)
Definition join (a : string) (p : list string) : string := foldl join2 a p.

(** The loop body of [normpath]: [new_comps] grows and shrinks at its end. *)
Definition norm_step (initial_slashes : nat) (new_comps : list string)
    (comp : string) : list string :=
  if bool_decide (comp = "") || bool_decide (comp = curdir) then new_comps
  else if bool_decide (comp ≠ pardir)
       || (bool_decide (initial_slashes = 0) && bool_decide (new_comps = []))
       || bool_decide (last new_comps = Some pardir)
  then new_comps ++ [comp]
  else removelast new_comps.

Definition initial_slashes (path : string) : nat :=
  if Str.startswith path "/" then
    if Str.startswith path "//" && negb (Str.startswith path "///") then 2 else 1
  else 0.

Definition norm_comps (path : string) : list string :=
  foldl (norm_step (initial_slashes path)) [] (Str.split sep path).

(** [os.path.normpath] *)
Definition normpath (path : string) : string :=
  if decide (path = "") then curdir
  else
    let path' :=
      String.concat "" (replicate (initial_slashes path) "/")
      +:+ Str.join sep (norm_comps path) in
    if decide (path' = "") then curdir else path'.

(** [if not isabs(path): path = join(os.getcwd(), path)]; [cwd] is what
    [os.getcwd()] returns. *)
Definition anchored (cwd path : string) : string :=
  if isabs path then path else join cwd [path].

(** [os.path.abspath] *)
Definition abspath (cwd path : string) : string :=
  normpath (anchored cwd path).

(** [len(commonprefix([l1, l2]))] for two lists of components *)
Fixpoint commonprefix (l1 l2 : list string) : list string :=
  match l1, l2 with
  | x :: l1', y :: l2' => if decide (x = y) then x :: commonprefix l1' l2' else []
  | _, _ => []
  end.

(** [os.path.relpath(path, start)] *)
Definition relpath (cwd path start : string) : result string :=
  if decide (path = "") then inl ValueError
  else
    let start_list := filter (λ x, x ≠ "") (Str.split sep (abspath cwd start)) in
    let path_list := filter (λ x, x ≠ "") (Str.split sep (abspath cwd path)) in
    let i := length (commonprefix start_list path_list) in
    let rel_list := replicate (length start_list - i) pardir ++ drop i path_list in
    match rel_list with
    | [] => inr curdir
    | a :: p => inr (join a p)
    end.


(** [p[:p.rfind('/') + 1]] *)
Fixpoint dirname_head (p : string) : string :=
  match p with
  | EmptyString => EmptyString
  | String a p' =>
      match dirname_head p' with
      | EmptyString => if decide (a = sep) then "/" else EmptyString
      | h => String a h
      end
  end.

(** [s.rstrip('/')] *)
Fixpoint rstrip_sep (s : string) : string :=
  match s with
  | EmptyString => EmptyString
  | String a s' =>
      match rstrip_sep s' with
      | EmptyString => if decide (a = sep) then EmptyString else String a EmptyString
      | r => String a r
      end
  end.

(** [os.path.dirname] *)
Definition dirname (p : string) : string :=
  let h := dirname_head p in
  if decide (rstrip_sep h = "") then h else rstrip_sep h.

End Posix.

(** ** Name mapper *)

(** [while rel.startswith("."): rel = rel[1:]] *)
Fixpoint strip_leading_dots (rel : string) : string :=
  match rel with
  | String a rel' => if decide (a = "."%char) then strip_leading_dots rel' else rel
  | EmptyString => EmptyString
  end.

Definition mbox_filename (cwd src_root maildir_root : string) : result string :=
  match Posix.relpath cwd maildir_root src_root with
  | inl e => inl e
  | inr rel =>
      let name :=
        if decide (rel = ".") then "Inbox"
        else
          let rel := strip_leading_dots rel in
          let flat := Str.replace Posix.sep "_" rel in
          if decide (flat = "") then "Inbox" else flat in
      inr (name +:+ ".mbox")
  end.


(** ** The source tree *)

(** A directory lists its entries in the order [os.scandir] reports them.
    [Locked] is a directory that can be searched but not listed.  [Link] is
    a symbolic link, kept with what it leads to: the node found at its
    target followed by the ancestors of that node, or nothing when the link
    dangles. *)
#[local] Unset Elimination Schemes.
Inductive node : Type :=
  | File
  | Dir (entries : list (string * node))
  | Locked (entries : list (string * node))
  | Link (target : list node).
#[local] Set Elimination Schemes.

(** Induction on trees, with the hypothesis for every entry of a directory
    and for every node of the target of a link. *)
Definition node_ind (P : node → Prop) (HF : P File)
    (HD : ∀ es, Forall (λ e, P e.2) es → P (Dir es))
    (HL : ∀ es, Forall (λ e, P e.2) es → P (Locked es))
    (HK : ∀ target, Forall P target → P (Link target)) : ∀ n, P n :=
  fix go (n : node) : P n :=
    match n with
    | File => HF
    | Dir es =>
        HD es ((fix all (es : list (string * node)) : Forall (λ e, P e.2) es :=
                  match es with
                  | [] => List.Forall_nil _
                  | e :: es' => List.Forall_cons _ e es' (go e.2) (all es')
                  end) es)
    | Locked es =>
        HL es ((fix all (es : list (string * node)) : Forall (λ e, P e.2) es :=
                  match es with
                  | [] => List.Forall_nil _
                  | e :: es' => List.Forall_cons _ e es' (go e.2) (all es')
                  end) es)
    | Link target =>
        HK target ((fix all (l : list node) : Forall P l :=
                      match l with
                      | [] => List.Forall_nil _
                      | m :: l' => List.Forall_cons _ m l' (go m) (all l')
                      end) target)
    end.

Module Fs.

Fixpoint assoc (name : string) (es : list (string * node)) : option node :=
  match es with
  | [] => None
  | (n, c) :: es' => if decide (n = name) then Some c else assoc name es'
  end.

(** The entries of a directory, listable or not. *)
Definition entries (n : node) : option (list (string * node)) :=
  match n with
  | Dir es | Locked es => Some es
  | File | Link _ => None
  end.

(** Path resolution, one component at a time.  The state is the directory
    reached so far followed by its ancestors; every step needs the current
    node to be a directory, [..] at the top stays at the top, and an entry
    that is a link leads to its target. *)
Definition resolve_step (st : option (list node)) (comp : string)
    : option (list node) :=
  match st with
  | Some (top :: up) =>
      match entries top with
      | Some es =>
          if bool_decide (comp = "") || bool_decide (comp = ".") then Some (top :: up)
          else if bool_decide (comp = "..") then
            match up with [] => Some [top] | _ => Some up end
          else
            match assoc comp es with
            | Some (Link target) => Some target
            | Some c => Some (c :: top :: up)
            | None => None
            end
      | None => None
      end
  | _ => None
  end.

Definition resolve (fs : node) (comps : list string) : option (list node) :=
  foldl resolve_step (Some [fs]) comps.

(** What the kernel finds at [path], links followed: the empty path names
    nothing, a relative path starts at the working directory. *)
Definition lookup (fs : node) (cwd path : string) : option node :=
  if decide (path = "") then None
  else
    match resolve fs (Str.split Posix.sep (Posix.anchored cwd path)) with
    | Some (n :: _) => Some n
    | _ => None
    end.

Definition is_dir (n : node) : bool :=
  match n with
  | Dir _ | Locked _ => true
  | File | Link _ => false
  end.

(** [os.path.isdir] *)
Definition isdir (fs : node) (cwd path : string) : bool :=
  match lookup fs cwd path with
  | Some n => is_dir n
  | None => false
  end.

(** [os.listdir] *)
Definition listdir (fs : node) (cwd path : string) : result (list string) :=
  match lookup fs cwd path with
  | Some (Dir es) => inr (es.*1)
  | Some (Locked _) => inl (OtherError "PermissionError")
  | _ => inl (OtherError "OSError")
  end.

(** [os.walk(top)] for the node [n] found at [top], top-down, links not
    followed, errors ignored: [scandir] of what cannot be listed yields
    nothing, and an entry that is a link is not walked. *)
Fixpoint walk_node (top : string) (n : node) : list string :=
  match n with
  | Dir es =>
      top :: flat_map (λ e, walk_node (Posix.join top [e.1]) e.2) es
  | File | Locked _ | Link _ => []
  end.

(** The top itself is found with links followed. *)
Definition walk (fs : node) (cwd top : string) : list string :=
  match lookup fs cwd top with
  | Some n => walk_node top n
  | None => []
  end.

End Fs.

(** ** Folder locator *)

Definition is_maildir (fs : node) (cwd path : string) : bool :=
  forallb (λ d, Fs.isdir fs cwd (Posix.join path [d])) ["cur"; "new"; "tmp"].

Definition find_maildirs (fs : node) (cwd root : string) : list string :=
  merge_sort Str.le (filter (λ r, is_maildir fs cwd r) (Fs.walk fs cwd root)).

(** ** The conversion engine *)

(** [sys.exit] raises [SystemExit], which [except Exception] does not catch;
    everything the environment raises is an [Exception]. *)
Inductive abort : Set :=
  | Raised (e : exn)
  | SystemExit (code : nat).

(** Lines the script prints; the text formatting is left out. *)
Inductive line : Set :=
  | Banner
  | NoSource
  | SourceMissing (src : string)
  | NoDestination
  | Starting
  | NoMaildirs (root : string)
  | Found (n : nat)
  | Converting (mdir out_path : string)
  | PerMessage (count : nat) (outcome key : string)
  | Periodic (count ok raw skip : nat)
  | Done (count ok raw skip : nat)
  | AllDone (msg_total : nat) (dst_dir : string).


(** The last-resort record of [add_with_fallback]. *)
Definition placeholder : string :=
  "From: conversion-error" +:+ String "010"
  ("Subject: Recovered placeholder" +:+ String "010"
  (String "010" "<Failed to read original message in Maildir.>")).

Section Engine.

(** [W] is the state of everything outside the script (disk, terminal,
    clock); [Msg] is a parsed [mailbox.Message]. *)
Context {W Msg : Type}.

(** What lands in an mbox file: a parsed message or
    [mailbox.mboxMessage(raw)]. *)
Inductive record : Type :=
  | Parsed (m : Msg)
  | RawBytes (raw : string).

Inductive event : Type :=
  | EvPrint (l : line)
  | EvMakedirs (path : string)
  | EvOpen (out_path : string)
  | EvAdd (out_path : string) (r : record) (ok : bool)
  | EvFlush (out_path : string)
  | EvClose (out_path : string)
  | EvInput (prompt : string).

(** The environment answers every fallible call; it may answer the same
    call differently each time. *)
Record Env : Type := {
  env_input : string → W → result string * W;
  env_print : line → W → option exn * W;
  env_makedirs : string → W → option exn * W;
  env_listdir : string → W → option exn * W;
  env_maildir : string → W → option exn * W;
  env_keys : string → W → result (list string) * W;
  env_get_message : string → string → W → result Msg * W;
  env_read : string → string → W → result string * W;
  env_mbox : string → W → option exn * W;
  env_add : string → record → W → option exn * W;
  env_flush : string → W → option exn * W;
  env_close : string → W → option exn * W
}.

Record state : Type := {
  hid : W;
  files : gmap string (list record);
  trace : list event
}.

Definition M (A : Type) : Type := state → (abort + A) * state.

#[global] Instance M_ret : MRet M := λ A x s, (inr x, s).
#[global] Instance M_bind : MBind M := λ A B f m s,
  match m s with
  | (inr x, s') => f x s'
  | (inl a, s') => (inl a, s')
  end.

Definition raise {A} (a : abort) : M A := λ s, (inl a, s).

(** [try: m except Exception: h] *)
Definition try_except {A} (m : M A) (h : exn → M A) : M A := λ s,
  match m s with
  | (inl (Raised e), s') => h e s'
  | r => r
  end.

(** [try: m finally: f] *)
Definition try_finally {A} (m : M A) (f : M unit) : M A := λ s,
  match m s with
  | (r, s') =>
      match f s' with
      | (inl a, s'') => (inl a, s'')
      | (inr _, s'') => (r, s'')
      end
  end.

(** [for x in l: acc = body(acc, x)] *)
Fixpoint for_each {A S} (l : list A) (body : S → A → M S) (acc : S) : M S :=
  match l with
  | [] => mret acc
  | x :: l' => acc' ← body acc x; for_each l' body acc'
  end.

Definition pass : exn → M unit := λ _, mret ().

Context (E : Env) (fs : node) (cwd : string).

Definition log (s : state) (w : W) (ev : event) : state :=
  {| hid := w; files := files s; trace := trace s ++ [ev] |}.

Definition ask {A} (o : W → result A * W) : M A := λ s,
  match o (hid s) with
  | (inl e, w) => (inl (Raised e), {| hid := w; files := files s; trace := trace s |})
  | (inr x, w) => (inr x, {| hid := w; files := files s; trace := trace s |})
  end.

(** A call that returns nothing and leaves no record. *)
Definition call (o : W → option exn * W) : M unit := λ s,
  match o (hid s) with
  | (Some e, w) => (inl (Raised e), {| hid := w; files := files s; trace := trace s |})
  | (None, w) => (inr (), {| hid := w; files := files s; trace := trace s |})
  end.

(** A call that is recorded, whether it succeeds or not. *)
Definition act (o : W → option exn * W) (ev : event) : M unit := λ s,
  match o (hid s) with
  | (Some e, w) => (inl (Raised e), log s w ev)
  | (None, w) => (inr (), log s w ev)
  end.

(** [input(prompt)] writes the prompt and reads a line; the call is
    recorded, whether it succeeds or not. *)
Definition input (prompt : string) : M string := λ s,
  match env_input E prompt (hid s) with
  | (inl e, w) => (inl (Raised e), log s w (EvInput prompt))
  | (inr x, w) => (inr x, log s w (EvInput prompt))
  end.
Definition print (l : line) : M unit := act (env_print E l) (EvPrint l).
Definition os_makedirs (path : string) : M unit :=
  act (env_makedirs E path) (EvMakedirs path).

Definition lift {A} (r : result A) : M A := λ s,
  match r with
  | inl e => (inl (Raised e), s)
  | inr x => (inr x, s)
  end.

(** [os.listdir(p)]: the names come from the tree, the environment may
    still refuse the call. *)
Definition os_listdir (p : string) : M (list string) :=
  call (env_listdir E p);;
  lift (Fs.listdir fs cwd p).

(** [mailbox.Maildir(mdir, factory=None)] and its methods *)
Definition Maildir (mdir : string) : M unit := call (env_maildir E mdir).
Definition md_keys (md : string) : M (list string) := ask (env_keys E md).
Definition md_get_message (md key : string) : M Msg := ask (env_get_message E md key).
(** [with md.get_file(key) as fh: raw = fh.read()] *)
Definition md_read (md key : string) : M string := ask (env_read E md key).

(** [mailbox.mbox(out_path)] and its methods.  Opening creates the file
    when it is missing and keeps what it holds otherwise.  [files] keeps the
    records of the [add] calls that returned: an [add] that raises adds no
    record to it, whatever bytes it may have left in the file. *)
Definition mbox (out_path : string) : M unit := λ s,
  match env_mbox E out_path (hid s) with
  | (Some e, w) => (inl (Raised e), log s w (EvOpen out_path))
  | (None, w) =>
      (inr (),
       {| hid := w;
          files := <[out_path := files s !!! out_path]> (files s);
          trace := trace s ++ [EvOpen out_path] |})
  end.

Definition mbox_add (mbox_obj : string) (r : record) : M unit := λ s,
  match env_add E mbox_obj r (hid s) with
  | (Some e, w) => (inl (Raised e), log s w (EvAdd mbox_obj r false))
  | (None, w) =>
      (inr (),
       {| hid := w;
          files := <[mbox_obj := files s !!! mbox_obj ++ [r]]> (files s);
          trace := trace s ++ [EvAdd mbox_obj r true] |})
  end.

Definition mbox_flush (mbox_obj : string) : M unit :=
  act (env_flush E mbox_obj) (EvFlush mbox_obj).
Definition mbox_close (mbox_obj : string) : M unit :=
  act (env_close E mbox_obj) (EvClose mbox_obj).

Definition add_with_fallback (mbox_obj md key : string) : M string :=
  try_except
    (m ← md_get_message md key;
     mbox_add mbox_obj (Parsed m);;
     mret "OK")
    (λ _,
      try_except
        (raw ← md_read md key;
         mbox_add mbox_obj (RawBytes raw);;
         mret "RAW")
        (λ _,
          try_except
            (mbox_add mbox_obj (RawBytes placeholder);;
             mret "RAW")
            (λ _, mret "SKIP"))).

(** The local counters of [convert_maildir]. *)
Record counters : Set := {
  count : nat; ok : nat; raw : nat; skip : nat; msg_total : nat
}.

(** [count += 1; msg_total += 1] and the [if]/[elif]/[else] on the
    outcome. *)
Definition tally (c : counters) (outcome : string) : counters :=
  let count := count c + 1 in
  let msg_total := msg_total c + 1 in
  if decide (outcome = "OK") then
    {| count := count; ok := ok c + 1; raw := raw c; skip := skip c;
       msg_total := msg_total |}
  else if decide (outcome = "RAW") then
    {| count := count; ok := ok c; raw := raw c + 1; skip := skip c;
       msg_total := msg_total |}
  else
    {| count := count; ok := ok c; raw := raw c; skip := skip c + 1;
       msg_total := msg_total |}.

(** The progress line of one message. *)
Definition report (per_message_verbose : bool) (tick : nat) (c : counters)
    (outcome key : string) : M unit :=
  if per_message_verbose then print (PerMessage (count c) outcome key)
  else if bool_decide (tick ≠ 0) && bool_decide (count c `mod` tick = 0)
       then print (Periodic (count c) (ok c) (raw c) (skip c))
       else mret ().

(** [if (count % 200) == 0: try: mbox_obj.flush() except Exception: pass] *)
Definition periodic_flush (mbox_obj : string) (c : counters) : M unit :=
  if decide (count c `mod` 200 = 0) then try_except (mbox_flush mbox_obj) pass
  else mret ().

(** Body of [for key in keys]. *)
Definition convert_message (per_message_verbose : bool) (tick : nat)
    (mbox_obj md : string) (c : counters) (key : string) : M counters :=
  outcome ← add_with_fallback mbox_obj md key;
  let c := tally c outcome in
  report per_message_verbose tick c outcome key;;
  periodic_flush mbox_obj c;;
  mret c.

(** The [finally] clause. *)
Definition finalize (mbox_obj : string) : M unit :=
  try_except (mbox_flush mbox_obj) pass;;
  try_except (mbox_close mbox_obj) pass.

(** The entries collected from [cur/] and [new/]. *)
Definition collect_entries (mdir : string) : M (list string) :=
  for_each ["cur"; "new"]
    (λ entries sub,
       let p := Posix.join mdir [sub] in
       if Fs.isdir fs cwd p then fns ← os_listdir p; mret (entries ++ fns)
       else mret entries)
    [].

(** The keys of one folder, in processing order. *)
Definition folder_keys (mdir : string) (entries : list string) : M (list string) :=
  Maildir mdir;;
  ks ← md_keys mdir;
  let keys := filter (λ k, k ∈ entries) ks in
  keys ← (if decide (keys = []) then md_keys mdir else mret keys);
  mret (merge_sort Str.le keys).

(** Body of [for mdir in maildirs]. *)
Definition convert_folder (root dst_dir : string) (per_message_verbose : bool)
    (tick : nat) (total : nat) (mdir : string) : M nat :=
  name ← lift (mbox_filename cwd root mdir);
  let out_path := Posix.join dst_dir [name] in
  print (Converting mdir out_path);;
  os_makedirs (Posix.dirname out_path);;
  entries ← collect_entries mdir;
  keys ← folder_keys mdir entries;
  mbox out_path;;
  c ← try_finally
        (for_each keys (convert_message per_message_verbose tick out_path mdir)
           {| count := 0; ok := 0; raw := 0; skip := 0; msg_total := total |})
        (finalize out_path);
  print (Done (count c) (ok c) (raw c) (skip c));;
  mret (msg_total c).

Definition convert_maildir (root dst_dir : string) (per_message_verbose : bool)
    (tick : nat) : M nat :=
  let maildirs := find_maildirs fs cwd root in
  if decide (maildirs = []) then
    print (NoMaildirs root);;
    mret 0
  else
    print (Found (length maildirs));;
    msg_total ← for_each maildirs
                   (convert_folder root dst_dir per_message_verbose tick) 0;
    print (AllDone msg_total dst_dir);;
    mret msg_total.

Definition choose (prompt default : string) : M string :=
  val ← input prompt;
  let val := Str.strip val in
  mret (if decide (val = "") then default else val).

Definition main : M unit :=
  print Banner;;
  src ← choose "Enter Maildir root path (absolute): " "";
  let src := Str.strip src in
  if decide (src = "") then print NoSource;; raise (SystemExit 1)
  else if negb (Fs.isdir fs cwd src) then
    print (SourceMissing src);; raise (SystemExit 1)
  else
    dst ← choose "Enter destination directory for .mbox files: " "";
    let dst := Str.strip dst in
    if decide (dst = "") then print NoDestination;; raise (SystemExit 1)
    else
      os_makedirs dst;;
      mode ← choose "Verbosity: [1] per-message (very chatty)  [2] periodic (every 200 msgs)  [Enter=2]: " "";
      let mode := Str.strip mode in
      let per_message_verbose := bool_decide (mode = "1") in
      let tick := if per_message_verbose then 0 else 200 in
      print Starting;;
      total ← convert_maildir src dst per_message_verbose tick;
      if decide (total = 0) then raise (SystemExit 2) else mret ().

(** The three attempts of [add_with_fallback], each on its own. *)
Definition tier_parsed (mbox_obj md key : string) : M unit :=
  m ← md_get_message md key; mbox_add mbox_obj (Parsed m).
Definition tier_raw (mbox_obj md key : string) : M unit :=
  raw ← md_read md key; mbox_add mbox_obj (RawBytes raw).
Definition tier_placeholder (mbox_obj : string) : M unit :=
  mbox_add mbox_obj (RawBytes placeholder).

(** What a successful [add] of [r] makes of the files. *)
Definition appended (mbox_obj : string) (r : record)
    (fl : gmap string (list record)) : gmap string (list record) :=
  <[mbox_obj := fl !!! mbox_obj ++ [r]]> fl.

(** The status the interpreter exits with when it can flush standard output
    on its way out (it is 120 when that flush fails): an uncaught exception
    gives 1. *)
Definition exit_status (r : abort + unit) : nat :=
  match r with
  | inr _ => 0
  | inl (SystemExit code) => code
  | inl (Raised _) => 1
  end.

End Engine.

(** ** A small installation *)

Module Demo.

Definition maildir (new_files : list string) : node :=
  Dir [("cur", Dir []); ("new", Dir ((λ f, (f, File)) <$> new_files)); ("tmp", Dir [])].

(** [/srv/mail] is a mailbox with one new message; below it [.Sent] and
    [Sent] are mailboxes with one message each and [notes] is not a
    mailbox. *)
Definition tree : node :=
  Dir [("srv", Dir [("mail",
                     Dir [("cur", Dir []); ("new", Dir [("m1", File)]); ("tmp", Dir []);
                          (".Sent", maildir ["m2"]);
                          ("Sent", maildir ["m3"]);
                          ("notes", Dir [("todo.txt", File)])])]);
       ("etc", Dir [("passwd", File)])].


(** Only the inbox, with one new message. *)
Definition inbox : node :=
  Dir [("srv", Dir [("mail", maildir ["m1"])])].

(** What goes wrong in the environment below. *)
Record faults : Type := {
  parse_fails : bool;
  read_fails : bool;
  add_fails : @record string → bool;
  sync_fails : bool
}.

(** The hidden state is what is left of standard input.  The mailbox layer
    knows the files of [new/] by their names, parses a message to its
    location and reads its name as its bytes, unless [f] says otherwise. *)
Definition env_with (fs : node) (f : faults) : @Env (list string) string :=
  {| env_input := λ _ w,
       match w with [] => (inl EOFError, []) | x :: w' => (inr x, w') end;
     env_print := λ _ w, (None, w);
     env_makedirs := λ _ w, (None, w);
     env_listdir := λ _ w, (None, w);
     env_maildir := λ _ w, (None, w);
     env_keys := λ md w,
       (inr match Fs.lookup fs "/" (Posix.join md ["new"]) with
            | Some (Dir es) => es.*1
            | _ => []
            end, w);
     env_get_message := λ md key w,
       (if parse_fails f then inl (OtherError "MessageParseError")
        else inr (md +:+ ":" +:+ key), w);
     env_read := λ md key w,
       (if read_fails f then inl (OtherError "FileNotFoundError") else inr key, w);
     env_mbox := λ _ w, (None, w);
     env_add := λ _ r w,
       (if add_fails f r then Some (OtherError "OSError") else None, w);
     env_flush := λ _ w, (if sync_fails f then Some (OtherError "OSError") else None, w);
     env_close := λ _ w, (if sync_fails f then Some (OtherError "OSError") else None, w) |}.

(** Nothing fails, except every [add] when [add_ok] is [false]. *)
Definition env (fs : node) (add_ok : bool) : @Env (list string) string :=
  env_with fs {| parse_fails := false; read_fails := false;
                 add_fails := λ _, negb add_ok; sync_fails := false |}.

(** Nothing fails but standard output, which takes no per-message line. *)
Definition env_mute (fs : node) : @Env (list string) string :=
  let E := env fs true in
  {| env_input := env_input E;
     env_print := λ l w,
       (match l with
        | PerMessage _ _ _ => Some (OtherError "BrokenPipeError")
        | _ => None
        end, w);
     env_makedirs := env_makedirs E;
     env_listdir := env_listdir E;
     env_maildir := env_maildir E;
     env_keys := env_keys E;
     env_get_message := env_get_message E;
     env_read := env_read E;
     env_mbox := env_mbox E;
     env_add := env_add E;
     env_flush := env_flush E;
     env_close := env_close E |}.

Definition start (stdin : list string) : @state (list string) string :=
  {| hid := stdin; files := ∅; trace := [] |}.

End Demo.

(** ** Vocabulary of the statements *)

(** The lines printed, in order. *)
Definition printed {Msg} (t : list (@event Msg)) : list line :=
  omap (λ ev, match ev with EvPrint l => Some l | _ => None end) t.


(** A directory entry name: not empty, not [.] or [..], no separator. *)
Fixpoint has_sep (s : string) : bool :=
  match s with
  | EmptyString => false
  | String a s' => bool_decide (a = Posix.sep) || has_sep s'
  end.

Definition proper (n : string) : bool :=
  negb (bool_decide (n = "")) && negb (bool_decide (n = "."))
  && negb (bool_decide (n = "..")) && negb (has_sep n).

(** A tidy tree: in every directory the names are proper and pairwise
    different. *)
Fixpoint tidy (n : node) : bool :=
  match n with
  | File => true
  | Dir es | Locked es =>
      bool_decide (NoDup es.*1) && forallb (λ e, proper e.1 && tidy e.2) es
  | Link target => forallb tidy target
  end.

(** Every directory can be listed. *)
Fixpoint listable (n : node) : bool :=
  match n with
  | File => true
  | Dir es => forallb (λ e, listable e.2) es
  | Locked _ => false
  | Link target => forallb listable target
  end.

(** A well-formed tree: tidy, and every directory can be listed. *)
Definition wf (n : node) : bool := tidy n && listable n.


(** The value of the header [name] of a message given as bytes: the first
    line [name: value] above the blank line that ends the headers. *)
Fixpoint drop_chars (n : nat) (s : string) : string :=
  match n, s with
  | S n', String _ s' => drop_chars n' s'
  | _, _ => s
  end.

Fixpoint header_in (name : string) (lines : list string) : option string :=
  match lines with
  | [] => None
  | l :: lines' =>
      if decide (l = "") then None
      else if Str.startswith l (name +:+ ": ")
           then Some (drop_chars (String.length name + 2) l)
           else header_in name lines'
  end.

Definition header (name raw : string) : option string :=
  header_in name (Str.split "010" raw).

(** The names [os.listdir] reports for the subdirectory [sub] of [mdir]. *)
Definition listed (fs : node) (cwd mdir sub : string) : list string :=
  match Fs.lookup fs cwd (Posix.join mdir [sub]) with
  | Some (Dir es) => es.*1
  | _ => []
  end.

(** Number of [close] calls recorded in a trace. *)
Definition is_close {Msg} (ev : @event Msg) : bool :=
  match ev with EvClose _ => true | _ => false end.

Definition closes {Msg} (t : list (@event Msg)) : nat :=
  length (filter (λ ev, is_close ev) t).

(** [m] runs to completion from every state and closes [n] archives. *)
Definition runs {W Msg A} (n : nat) (m : @M W Msg A) : Prop :=
  ∀ s, ∃ x s', m s = (inr x, s') ∧ closes (trace s') = closes (trace s) + n.

(** An environment in which the terminal and the directories never fail;
    reading, appending, flushing and closing still may. *)
Definition benign {W Msg} (E : @Env W Msg) : Prop :=
  (∀ l w, (env_print E l w).1 = None)
  ∧ (∀ p w, (env_makedirs E p w).1 = None)
  ∧ (∀ p w, (env_listdir E p w).1 = None)
  ∧ (∀ md w, (env_maildir E md w).1 = None)
  ∧ (∀ md w, ∃ ks, (env_keys E md w).1 = inr ks)
  ∧ (∀ p w, (env_mbox E p w).1 = None).

(** The non-empty components of a path. *)
Definition comps (p : string) : list string :=
  foldl (λ acc c, if decide (c = "") then acc else acc ++ [c]) []
    (Str.split Posix.sep p).

(** The directory at [p] can be listed and its entry [d] is a directory
    that can be listed, no link. *)
Definition has_subdir (fs : node) (cwd p d : string) : Prop :=
  ∃ es es', Fs.lookup fs cwd p = Some (Dir es) ∧ (d, Dir es') ∈ es.

(** The descent of [os.walk] from [root]: the root directory itself when it
    can be listed, and every subdirectory, no link, that can be listed of a
    directory already reached. *)
Inductive descends (fs : node) (cwd root : string) : string → Prop :=
  | descends_root es :
      Fs.lookup fs cwd root = Some (Dir es) → descends fs cwd root root
  | descends_step p d :
      descends fs cwd root p → has_subdir fs cwd p d →
      descends fs cwd root (Posix.join p [d]).

(** An entry that [os.path.isdir] takes for a directory: a directory, or a
    link that leads to one. *)
Definition leads_to_dir (c : node) : bool :=
  match c with
  | Link (t :: _) => Fs.is_dir t
  | c => Fs.is_dir c
  end.

(** The entry [d] of the directory at [p] is a directory, links followed. *)
Definition is_subdir (fs : node) (cwd p d : string) : Prop :=
  ∃ n es c, Fs.lookup fs cwd p = Some n ∧ Fs.entries n = Some es
            ∧ (d, c) ∈ es ∧ leads_to_dir c = true.

(** A mailbox directory: all of [cur], [new] and [tmp] are directories in
    it, links followed. *)
Definition qualifies (fs : node) (cwd p : string) : Prop :=
  ∀ d, d ∈ ["cur"; "new"; "tmp"] → is_subdir fs cwd p d.


(** The name mapping as the specification words it, read on the segments of
    the relative path.  First reading: every leading segment that begins
    with a dot loses that dot. *)
Fixpoint spec_strip_markers (segs : list string) : list string :=
  match segs with
  | String "." seg :: segs' => seg :: spec_strip_markers segs'
  | _ => segs
  end.

(** Second reading: every leading segment that begins with a dot is removed
    as a whole. *)
Fixpoint spec_drop_segments (segs : list string) : list string :=
  match segs with
  | String "." _ :: segs' => spec_drop_segments segs'
  | _ => segs
  end.

Definition spec_filename (strip : list string → list string) (segs : list string)
    : string :=
  let flat := Str.join "_" (strip segs) in
  (if decide (flat = "") then "Inbox" else flat) +:+ ".mbox".

(** ** Vocabulary of the code points *)

(** [chunk] is the bytes of the code point [c]: one byte (itself, or a lone
    surrogate for a byte of no sequence) or a well-formed sequence. *)
Definition is_chunk (chunk : string) (c : N) : Prop :=
  match chunk with
  | String a EmptyString =>
      c = (if (Str.byte a <? 128)%N then Str.byte a else (56320 + Str.byte a)%N)
  | String a (String b EmptyString) =>
      Str.seq2 (Str.byte a) (Str.byte b) = true
      ∧ c = ((Str.byte a - 192) * 64 + (Str.byte b - 128))%N
  | String a (String b (String d EmptyString)) =>
      Str.seq3 (Str.byte a) (Str.byte b) (Str.byte d) = true
      ∧ c = ((Str.byte a - 224) * 4096 + (Str.byte b - 128) * 64
             + (Str.byte d - 128))%N
  | String a (String b (String d (String e EmptyString))) =>
      Str.seq4 (Str.byte a) (Str.byte b) (Str.byte d) (Str.byte e) = true
      ∧ c = ((Str.byte a - 240) * 262144 + (Str.byte b - 128) * 4096
             + (Str.byte d - 128) * 64 + (Str.byte e - 128))%N
  | _ => False
  end.

(** A chunk that is no escaped byte: it reads the same whatever follows. *)
Definition solid (p : N * string) : Prop :=
  is_chunk p.2 p.1 ∧ (p.1 < 56448 ∨ 56575 < p.1)%N.

(** A string that cannot continue a sequence begun before it. *)
Definition boundary (t : string) : Prop :=
  match t with
  | EmptyString => True
  | String e _ => Str.cont (Str.byte e) = false
  end.

(** ** Vocabulary of the run-level statements *)

(** [m], however it ends, records only events that satisfy [Q], only appends
    to the archives, leaves every file outside [T] as it was, and does not
    end in [sys.exit]. *)
Definition confined {W Msg A} (Q : @event Msg → Prop) (T : string → Prop)
    (m : @M W Msg A) : Prop :=
  ∀ s,
    (∃ evs, trace (m s).2 = trace s ++ evs ∧ Forall Q evs)
    ∧ (∀ p, files s !!! p `prefix_of` files (m s).2 !!! p)
    ∧ (∀ p, ¬ T p → files (m s).2 !! p = files s !! p)
    ∧ (∀ c, (m s).1 ≠ inl (SystemExit c)).

Definition no_event {Msg} (ev : @event Msg) : Prop := False.
Definition no_file (p : string) : Prop := False.

(** A line printed or a prompt for a line. *)
Definition on_terminal {Msg} (ev : @event Msg) : Prop :=
  match ev with EvPrint _ | EvInput _ => True | _ => False end.

(** An [add] on the archive [out]. *)
Definition adds_to {Msg} (out : string) (ev : @event Msg) : Prop :=
  match ev with EvAdd p _ _ => p = out | _ => False end.

(** The records of the [add] calls on [out] that returned, in order. *)
Definition added {Msg} (out : string) (t : list (@event Msg)) : list (@record Msg) :=
  omap (λ ev, match ev with
              | EvAdd p r true => if decide (p = out) then Some r else None
              | _ => None
              end) t.

(** What the body of the loop over the keys may record. *)
Definition step_event {Msg} (out : string) (ev : @event Msg) : Prop :=
  match ev with
  | EvAdd p _ _ | EvFlush p => p = out
  | EvPrint (PerMessage _ _ _) | EvPrint (Periodic _ _ _ _) => True
  | _ => False
  end.

(** An event that is a line printed, a directory made for a file of [T], or
    a call on an archive of [T]. *)
Definition about {Msg} (T : string → Prop) (ev : @event Msg) : Prop :=
  match ev with
  | EvPrint _ => True
  | EvMakedirs d => ∃ p, T p ∧ d = Posix.dirname p
  | EvOpen p | EvAdd p _ _ | EvFlush p | EvClose p => T p
  | EvInput _ => False
  end.

(** The archive of the folder [mdir], and the archives of a run. *)
Definition target (cwd root dst_dir mdir p : string) : Prop :=
  ∃ name, mbox_filename cwd root mdir = inr name ∧ p = Posix.join dst_dir [name].

Definition run_target (fs : node) (cwd root dst_dir p : string) : Prop :=
  ∃ mdir, mdir ∈ find_maildirs fs cwd root ∧ target cwd root dst_dir mdir p.

(** The progress lines of one message. *)
Definition progress (per_message_verbose : bool) (tick : nat) (c : @counters)
    (outcome key : string) : list line :=
  if per_message_verbose then [PerMessage (count c) outcome key]
  else if bool_decide (tick ≠ 0) && bool_decide (count c `mod` tick = 0)
       then [Periodic (count c) (ok c) (raw c) (skip c)]
       else [].

(** A record the transfer of [key] may append: the message parsed, the bytes
    read, or the placeholder. *)
Definition record_for {W Msg} (E : @Env W Msg) (md key : string)
    (r : @record Msg) : Prop :=
  (∃ m w w', env_get_message E md key w = (inr m, w') ∧ r = Parsed m)
  ∨ (∃ raw w w', env_read E md key w = (inr raw, w') ∧ r = RawBytes raw)
  ∨ r = RawBytes placeholder.

Definition is_parsed {Msg} (r : @record Msg) : bool :=
  match r with Parsed _ => true | RawBytes _ => false end.

(** What the transfer of [key] appends when it reports [outcome]: a parsed
    message for [OK], bytes for [RAW], nothing for [SKIP]. *)
Definition transferred {W Msg} (E : @Env W Msg) (md key outcome : string)
    (rs : list (@record Msg)) : Prop :=
  (outcome = "OK" ∧ ∃ r, rs = [r] ∧ is_parsed r = true ∧ record_for E md key r)
  ∨ (outcome = "RAW" ∧ ∃ r, rs = [r] ∧ is_parsed r = false ∧ record_for E md key r)
  ∨ (outcome = "SKIP" ∧ rs = []).

(** The counts of the [Done] lines, in order. *)
Definition done_counts (ls : list line) : list nat :=
  omap (λ l, match l with Done count _ _ _ => Some count | _ => None end) ls.

Definition is_flush {Msg} (ev : @event Msg) : bool :=
  match ev with EvFlush _ => true | _ => false end.

(** Number of [flush] calls recorded in a trace. *)
Definition flushes {Msg} (t : list (@event Msg)) : nat :=
  length (filter (λ ev, is_flush ev) t).

(** Every character is white space. *)
Definition all_space (s : string) : bool :=
  forallb (λ p, Str.isspace p.1) (Str.decode s).

(** * Strings and paths *)

#[local] Arguments String.append : simpl nomatch.

Section StrFacts.

Lemma app_empty_r (s : string) : s +:+ "" = s.
Proof. induction s as [|a s IH]; simpl; [done|by rewrite IH]. Qed.

Lemma app_assoc_s (s t u : string) : (s +:+ t) +:+ u = s +:+ t +:+ u.
Proof. induction s as [|a s IH]; simpl; [done|by rewrite IH]. Qed.

Lemma app_eq_empty (s t : string) : s +:+ t = "" → s = "" ∧ t = "".
Proof. destruct s; simpl; [done|discriminate]. Qed.

Lemma split_cons c s : ∃ x xs, Str.split c s = x :: xs.
Proof.
  induction s as [|a s (x & xs & IH)]; simpl; [by eauto|].
  case_decide; [by eauto|]. rewrite IH. eauto.
Qed.

Lemma split_app c s t :
  Str.split c (s +:+ String c t) = Str.split c s ++ Str.split c t.
Proof.
  induction s as [|a s IH]; simpl.
  - by rewrite decide_True.
  - case_decide; [by rewrite IH|].
    rewrite IH. by destruct (split_cons c s) as (x & xs & ->).
Qed.

Lemma split_no_sep n : has_sep n = false → Str.split Posix.sep n = [n].
Proof.
  induction n as [|a n IH]; simpl; [done|].
  intros [Ha Hn]%orb_false_elim. apply bool_decide_eq_false in Ha.
  rewrite decide_False by done. by rewrite IH.
Qed.

Lemma split_all_no_sep s : Forall (λ x, has_sep x = false) (Str.split Posix.sep s).
Proof.
  induction s as [|a s IH]; simpl; [by repeat constructor|].
  case_decide as Ha; [by constructor|].
  destruct (split_cons Posix.sep s) as (x & xs & Hs). rewrite Hs in IH |- *.
  inversion_clear IH. constructor; [|done].
  simpl. rewrite bool_decide_eq_false_2 by done. done.
Qed.

Lemma endswith_snoc s c : Str.endswith (s +:+ String c "") c = true.
Proof.
  induction s as [|a s IH]; simpl; [by rewrite bool_decide_eq_true_2|].
  destruct (s +:+ String c "") eqn:Hs; [|done].
  by destruct s.
Qed.

Lemma endswith_inv s c : Str.endswith s c = true → ∃ s0, s = s0 +:+ String c "".
Proof.
  induction s as [|a s IH]; simpl; [done|].
  destruct s as [|b s].
  - intros ->%bool_decide_eq_true. by exists "".
  - intros (s0 & ->)%IH. by exists (String a s0).
Qed.

Lemma endswith_app s t c : t ≠ "" → Str.endswith (s +:+ t) c = Str.endswith t c.
Proof.
  intros Ht. induction s as [|a s IH]; simpl; [done|].
  destruct (s +:+ t) eqn:Hst; [|done].
  by apply app_eq_empty in Hst as [_ ?].
Qed.

Lemma startswith_app s t pre :
  s ≠ "" → Str.startswith (s +:+ t) (String pre "") = Str.startswith s (String pre "").
Proof. intros Hs. destruct s as [|a s]; [done|]. simpl. by case_decide. Qed.

Lemma proper_inv n :
  proper n = true → n ≠ "" ∧ n ≠ "." ∧ n ≠ ".." ∧ has_sep n = false.
Proof.
  unfold proper. rewrite !andb_true_iff, !negb_true_iff, !bool_decide_eq_false.
  by intros [[[? ?] ?] ?].
Qed.

Lemma proper_not_abs n : proper n = true → Str.startswith n "/" = false.
Proof.
  intros (Hn & _ & _ & Hs)%proper_inv. destruct n as [|a n]; [done|].
  simpl in *. apply orb_false_elim in Hs as [Ha%bool_decide_eq_false _].
  by rewrite decide_False.
Qed.

End StrFacts.

(** * Code points *)

(** Turns the hypotheses on bytes into inequalities. *)
Ltac seq_bools :=
  unfold Str.seq2, Str.seq3, Str.seq4, Str.cont in *;
  repeat match goal with
         | H : _ && _ = true |- _ => apply andb_true_iff in H as [? ?]
         | H : _ || _ = true |- _ => apply orb_true_iff in H as [?|?]
         | H : (_ <=? _)%N = true |- _ => apply N.leb_le in H
         | H : (_ =? _)%N = true |- _ => apply N.eqb_eq in H
         | H : (_ <? _)%N = true |- _ => apply N.ltb_lt in H
         | H : (_ <? _)%N = false |- _ => apply N.ltb_ge in H
         end.

(** A boolean test on bytes fails: assume it holds and count. *)
Ltac seq_false := apply not_true_iff_false; intros ?; seq_bools; lia.

Section CodePoints.

Lemma byte_lt a : (Str.byte a < 256)%N.
Proof. apply N_ascii_bounded. Qed.

Lemma byte_inj a b : Str.byte a = Str.byte b → a = b.
Proof.
  unfold Str.byte. intros H.
  by rewrite <-(ascii_N_embedding a), <-(ascii_N_embedding b), H.
Qed.

Lemma first_None s : Str.first s = None ↔ s = "".
Proof.
  split; [|by intros ->].
  destruct s as [|a [|b [|c [|d s]]]]; [done|..]; unfold Str.first;
    repeat case_match; done.
Qed.

Lemma first_Some s c chunk rest :
  Str.first s = Some (c, chunk, rest) →
  s = chunk +:+ rest ∧ is_chunk chunk c ∧ String.length rest < String.length s.
Proof.
  destruct s as [|a [|b [|c0 [|d s]]]]; [done|..]; unfold Str.first;
    repeat case_match; intros [= <- <- <-]; simpl; split_and!; try done; try lia;
    match goal with H : (_ <? _)%N = _ |- _ => by rewrite H end.
Qed.

Lemma seq3_not_seq2 x y z : Str.seq3 x y z = true → Str.seq2 x y = false.
Proof. intros H. seq_false. Qed.

Lemma seq4_not_seq2 x y z w : Str.seq4 x y z w = true → Str.seq2 x y = false.
Proof. intros H. seq_false. Qed.

Lemma seq4_not_seq3 x y z w : Str.seq4 x y z w = true → Str.seq3 x y z = false.
Proof. intros H. seq_false. Qed.

Lemma ascii_not_seq x :
  (x < 128)%N →
  (∀ y, Str.seq2 x y = false) ∧ (∀ y z, Str.seq3 x y z = false)
  ∧ (∀ y z w, Str.seq4 x y z w = false).
Proof. intros Hx. split_and!; intros; seq_false. Qed.

(** A chunk that is no escaped byte is read as it is, whatever follows. *)
Lemma first_solid c chunk r :
  solid (c, chunk) → Str.first (chunk +:+ r) = Some (c, chunk, r).
Proof.
  intros [Hc Hne]. simpl in *.
  destruct chunk as [|a [|b [|c0 [|d [|? ?]]]]]; try done; simpl in Hc.
  - assert (Str.byte a < 128)%N as Hx.
    { pose proof (byte_lt a). destruct (N.ltb_spec (Str.byte a) 128); [done|lia]. }
    destruct (ascii_not_seq _ Hx) as (H2 & H3 & H4).
    apply N.ltb_lt in Hx. rewrite Hx in Hc. subst c.
    destruct r as [|b [|c0 [|d r]]]; unfold Str.first; simpl;
      rewrite ?H2, ?H3, ?H4, ?Hx; done.
  - destruct Hc as [H2 ->]. unfold Str.first. simpl. by rewrite H2.
  - destruct Hc as [H3 ->]. unfold Str.first. simpl.
    by rewrite (seq3_not_seq2 _ _ _ H3), H3.
  - destruct Hc as [H4 ->]. unfold Str.first. simpl.
    by rewrite (seq4_not_seq2 _ _ _ _ H4), (seq4_not_seq3 _ _ _ _ H4), H4.
Qed.

(** What follows a string does not change how its first code point is read,
    when it cannot continue a sequence. *)
Lemma first_boundary s t c chunk rest :
  Str.first s = Some (c, chunk, rest) → boundary t →
  Str.first (s +:+ t) = Some (c, chunk, rest +:+ t).
Proof.
  intros Hs Ht. destruct t as [|e t]; [by rewrite !app_empty_r|]. simpl in Ht.
  assert (∀ x, Str.seq2 x (Str.byte e) = false) as E2
    by (intros; unfold Str.seq2; by rewrite Ht).
  assert (∀ x z, Str.seq3 x (Str.byte e) z = false) as E3
    by (intros; unfold Str.seq3; by rewrite Ht).
  assert (∀ x y, Str.seq3 x y (Str.byte e) = false) as E3'
    by (intros; unfold Str.seq3; by rewrite Ht, andb_false_r).
  assert (∀ x z w, Str.seq4 x (Str.byte e) z w = false) as E4
    by (intros; unfold Str.seq4; by rewrite Ht).
  assert (∀ x y w, Str.seq4 x y (Str.byte e) w = false) as E4'
    by (intros; unfold Str.seq4; by rewrite Ht, andb_false_r).
  assert (∀ x y z, Str.seq4 x y z (Str.byte e) = false) as E4''
    by (intros; unfold Str.seq4; by rewrite Ht, andb_false_r).
  destruct s as [|a [|b [|c0 [|d s]]]]; [done|..]; unfold Str.first in *;
    simpl in *.
  - injection Hs as <- <- <-. destruct t as [|e2 [|e3 t]]; simpl;
      rewrite ?E2, ?E3, ?E4; done.
  - destruct (Str.seq2 _ _); [by injection Hs as <- <- <-|].
    injection Hs as <- <- <-. destruct t as [|e2 t]; simpl; rewrite ?E3', ?E4'; done.
  - destruct (Str.seq2 _ _); [by injection Hs as <- <- <-|].
    destruct (Str.seq3 _ _ _); [by injection Hs as <- <- <-|].
    injection Hs as <- <- <-. by rewrite E4''.
  - destruct (Str.seq2 _ _); [by injection Hs as <- <- <-|].
    destruct (Str.seq3 _ _ _); [by injection Hs as <- <- <-|].
    destruct (Str.seq4 _ _ _ _); by injection Hs as <- <- <-.
Qed.

(** Two chunks of one code point are the same bytes. *)
Lemma is_chunk_inj chunk chunk' c : is_chunk chunk c → is_chunk chunk' c → chunk = chunk'.
Proof.
  destruct chunk as [|a [|b [|c0 [|d [|? ?]]]]]; try done;
    destruct chunk' as [|a' [|b' [|c0' [|d' [|? ?]]]]]; try done; simpl;
    pose proof (byte_lt a); pose proof (byte_lt a');
    repeat case_match; intros; destruct_and?; seq_bools; simplify_eq;
    try lia;
    repeat match goal with
           | |- String ?x _ = String ?y _ =>
               replace y with x by (apply byte_inj; lia); f_equal
           end; done.
Qed.

Lemma decode_upto_enough n m s :
  String.length s ≤ n → String.length s ≤ m → Str.decode_upto n s = Str.decode_upto m s.
Proof.
  revert m s. induction n as [|n IH]; intros [|m] s Hn Hm; simpl; try done.
  - destruct s; [done|simpl in *; lia].
  - destruct s; [done|simpl in *; lia].
  - destruct (Str.first s) as [[[c chunk] rest]|] eqn:Hf; [|done].
    apply first_Some in Hf as (_ & _ & Hlen). f_equal. apply IH; lia.
Qed.

Lemma decode_step s :
  Str.decode s = match Str.first s with
                 | Some (c, chunk, rest) => (c, chunk) :: Str.decode rest
                 | None => []
                 end.
Proof.
  unfold Str.decode. destruct s as [|a s]; [done|].
  change (String.length (String a s)) with (S (String.length s)).
  cbn [Str.decode_upto].
  destruct (Str.first (String a s)) as [[[c chunk] rest]|] eqn:Hf; [|done].
  apply first_Some in Hf as (_ & _ & Hlen). simpl in Hlen. f_equal.
  apply decode_upto_enough; lia.
Qed.

(** Induction along the code points of a string. *)
Lemma decode_ind (P : string → Prop) :
  P "" →
  (∀ s c chunk rest, Str.first s = Some (c, chunk, rest) → P rest → P s) →
  ∀ s, P s.
Proof.
  intros Hnil Hstep.
  assert (∀ n s, String.length s ≤ n → P s) as Hall; [|by eauto].
  induction n as [|n IH]; intros s Hlen.
  - destruct s; [done|simpl in *; lia].
  - destruct (Str.first s) as [[[c chunk] rest]|] eqn:Hf.
    + eapply Hstep; [done|]. apply IH. apply first_Some in Hf as (_ & _ & ?). lia.
    + by apply first_None in Hf as ->.
Qed.

Lemma cat_app l k : Str.cat (l ++ k) = Str.cat l +:+ Str.cat k.
Proof. induction l as [|p l IH]; simpl; [done|]. by rewrite IH, app_assoc_s. Qed.

Lemma cat_decode s : Str.cat (Str.decode s) = s.
Proof.
  induction s as [|s c chunk rest Hf IH] using decode_ind; [done|].
  rewrite decode_step, Hf. simpl. rewrite IH.
  by apply first_Some in Hf as (-> & _).
Qed.

Lemma decode_chunks s : Forall (λ p, is_chunk p.2 p.1) (Str.decode s).
Proof.
  induction s as [|s c chunk rest Hf IH] using decode_ind; [by constructor|].
  rewrite decode_step, Hf. constructor; [|done]. by apply first_Some in Hf as (_ & ? & _).
Qed.

Lemma decode_solid ws r :
  Forall solid ws → Str.decode (Str.cat ws +:+ r) = ws ++ Str.decode r.
Proof.
  induction 1 as [|[c chunk] ws Hp _ IH]; [done|]. simpl.
  by rewrite app_assoc_s, decode_step, (first_solid c chunk) , IH.
Qed.

Lemma decode_app s t :
  boundary t → Str.decode (s +:+ t) = Str.decode s ++ Str.decode t.
Proof.
  intros Ht. induction s as [|s c chunk rest Hf IH] using decode_ind; [done|].
  rewrite (decode_step s), (decode_step (s +:+ t)), Hf.
  by rewrite (first_boundary _ _ _ _ _ Hf Ht), IH.
Qed.

Lemma codepoints_inj s t : Str.codepoints s = Str.codepoints t → s = t.
Proof.
  unfold Str.codepoints. revert t.
  induction s as [|s c chunk rest Hf IH] using decode_ind; intros t.
  - rewrite (decode_step t). destruct (Str.first t) as [[[c chunk] rest]|] eqn:Hf;
      [done|]. by apply first_None in Hf as ->.
  - rewrite (decode_step s), (decode_step t), Hf.
    destruct (Str.first t) as [[[c' chunk'] rest']|] eqn:Hf'; [|done].
    simpl. intros [= <- Hrest]. apply IH in Hrest as ->.
    apply first_Some in Hf as (-> & Hc & _). apply first_Some in Hf' as (-> & Hc' & _).
    by rewrite (is_chunk_inj _ _ _ Hc Hc').
Qed.

Lemma cp_compare_refl l : Str.cp_compare l l = Eq.
Proof. induction l as [|x l IH]; simpl; [done|]. by rewrite N.compare_refl. Qed.

Lemma cp_compare_eq l k : Str.cp_compare l k = Eq → l = k.
Proof.
  revert k. induction l as [|x l IH]; intros [|y k]; simpl; try done.
  destruct (N.compare_spec x y) as [->| |]; try done. by intros ->%IH.
Qed.

Lemma cp_compare_antisym l k : Str.cp_compare l k = CompOpp (Str.cp_compare k l).
Proof.
  revert k. induction l as [|x l IH]; intros [|y k]; simpl; try done.
  rewrite (N.compare_antisym y x). destruct (y ?= x)%N; simpl; [apply IH|done..].
Qed.

Lemma cp_compare_trans l k m :
  Str.cp_compare l k ≠ Gt → Str.cp_compare k m ≠ Gt → Str.cp_compare l m ≠ Gt.
Proof.
  revert k m. induction l as [|x l IH]; intros [|y k] [|z m]; simpl; try done.
  destruct (N.compare_spec x y), (N.compare_spec y z), (N.compare_spec x z);
    try done; try lia. apply IH.
Qed.

Lemma cp_compare_prefix l k : Str.cp_compare l (l ++ k) ≠ Gt.
Proof.
  induction l as [|x l IH]; simpl; [by destruct k|]. by rewrite N.compare_refl.
Qed.

Lemma le_iff s t :
  Str.le s t ↔ Str.cp_compare (Str.codepoints s) (Str.codepoints t) ≠ Gt.
Proof. unfold Str.le, Str.leb. by destruct (Str.cp_compare _ _). Qed.

#[global] Instance le_po : PartialOrder Str.le.
Proof.
  split; [split|].
  - intros s. apply le_iff. by rewrite cp_compare_refl.
  - intros s t u. rewrite !le_iff. apply cp_compare_trans.
  - intros s t. rewrite !le_iff, (cp_compare_antisym (Str.codepoints t)).
    destruct (Str.cp_compare _ _) eqn:Hc; simpl; try done.
    intros _ _. by apply codepoints_inj, cp_compare_eq.
Qed.

#[global] Instance le_total : Total Str.le.
Proof.
  intros s t. rewrite !le_iff, (cp_compare_antisym (Str.codepoints t)).
  destruct (Str.cp_compare _ _); simpl; auto.
Qed.

End CodePoints.

#[local] Arguments Str.startswith : simpl never.
#[local] Arguments Str.endswith : simpl never.

Section PathFacts.

Lemma join2_proper q n :
  proper n = true →
  Posix.join2 q n =
    if bool_decide (q = "") || Str.endswith q Posix.sep then q +:+ n
    else q +:+ String Posix.sep n.
Proof. intros Hn. unfold Posix.join2. by rewrite (proper_not_abs n). Qed.

Lemma join2_rel q x :
  Str.startswith x "/" = false →
  Posix.join2 q x =
    if bool_decide (q = "") || Str.endswith q Posix.sep then q +:+ x
    else q +:+ String Posix.sep x.
Proof. intros Hx. unfold Posix.join2. by rewrite Hx. Qed.

Lemma join2_nonempty q n : proper n = true → Posix.join2 q n ≠ "".
Proof.
  intros Hn. rewrite join2_proper by done.
  apply proper_inv in Hn as (Hn & _).
  destruct (_ || _); intros [_ ?]%app_eq_empty; done.
Qed.

(** Splitting a path extended by one name: the components of the path,
    an empty component at most, then the name. *)
Lemma foldl_split_join2 {A} (f : A → string → A) a q n :
  (∀ st, f (f st "") n = f st n) →
  proper n = true →
  foldl f a (Str.split Posix.sep (Posix.join2 q n))
  = f (foldl f a (Str.split Posix.sep q)) n.
Proof.
  intros Hf Hn. rewrite join2_proper by done.
  pose proof (proper_inv n Hn) as (_ & _ & _ & Hsep).
  destruct (bool_decide (q = "")) eqn:Hq.
  { apply bool_decide_eq_true in Hq as ->. simpl.
    rewrite (split_no_sep n) by done. simpl. by rewrite Hf. }
  simpl. destruct (Str.endswith q Posix.sep) eqn:Hend.
  - apply endswith_inv in Hend as (q0 & ->).
    rewrite app_assoc_s. simpl. rewrite !split_app, !foldl_app.
    rewrite (split_no_sep n) by done. simpl. by rewrite Hf.
  - rewrite split_app, foldl_app, (split_no_sep n) by done. done.
Qed.

Lemma anchored_join2 cwd p n :
  proper n = true →
  Posix.anchored cwd (Posix.join2 p n) = Posix.join2 (Posix.anchored cwd p) n.
Proof.
  intros Hn. pose proof (proper_not_abs n Hn) as Hna.
  unfold Posix.anchored, Posix.isabs, Posix.join. simpl.
  destruct (decide (p = "")) as [->|Hp].
  - rewrite (join2_proper "") by done. simpl. rewrite Hna.
    unfold Posix.join2 at 3. simpl.
    destruct (bool_decide (cwd = "") || Str.endswith cwd Posix.sep) eqn:Hc.
    + by rewrite app_empty_r.
    + rewrite !join2_proper by done. rewrite Hc, endswith_snoc, orb_true_r.
      by rewrite app_assoc_s.
  - assert (Str.startswith (Posix.join2 p n) "/" = Str.startswith p "/") as ->.
    { rewrite join2_proper by done. destruct (_ || _); by apply startswith_app. }
    destruct (Str.startswith p "/") eqn:Habs; [done|].
    assert (Str.startswith (Posix.join2 p n) "/" = false) as Hjabs.
    { rewrite join2_proper by done.
      destruct (_ || _); by rewrite startswith_app. }
    rewrite (join2_rel cwd (Posix.join2 p n)), (join2_rel cwd p) by done.
    rewrite !(join2_proper _ n) by done.
    rewrite (bool_decide_eq_false_2 (p = "")) by done. simpl.
    destruct (bool_decide (cwd = "") || Str.endswith cwd Posix.sep) eqn:Hc.
    + rewrite endswith_app by done.
      rewrite (bool_decide_eq_false_2 (cwd +:+ p = ""))
        by (by intros [_ ?]%app_eq_empty).
      simpl. destruct (Str.endswith p Posix.sep); by rewrite app_assoc_s.
    + rewrite (endswith_app cwd (String Posix.sep p)) by done.
      rewrite (bool_decide_eq_false_2 (cwd +:+ String Posix.sep p = ""))
        by (by intros [_ ?]%app_eq_empty).
      assert (Str.endswith (String Posix.sep p) Posix.sep
              = Str.endswith p Posix.sep) as -> by (by destruct p).
      simpl. destruct (Str.endswith p Posix.sep); by rewrite app_assoc_s.
Qed.

Lemma anchored_abs cwd p :
  Posix.isabs cwd = true → Posix.isabs (Posix.anchored cwd p) = true.
Proof.
  unfold Posix.anchored, Posix.isabs, Posix.join. simpl. intros Hc.
  destruct (Str.startswith p "/") eqn:Hp; [done|].
  rewrite join2_rel by done.
  assert (cwd ≠ "") by (by intros ->).
  destruct (_ || _); by rewrite startswith_app.
Qed.

Lemma join2_abs q n :
  proper n = true → Posix.isabs q = true → Posix.isabs (Posix.join2 q n) = true.
Proof.
  unfold Posix.isabs. intros Hn Hq. rewrite join2_proper by done.
  assert (q ≠ "") by (by intros ->).
  destruct (_ || _); by rewrite startswith_app.
Qed.

Lemma initial_slashes_abs q : Posix.isabs q = true → Posix.initial_slashes q ≠ 0.
Proof.
  unfold Posix.isabs, Posix.initial_slashes. intros ->. by destruct (_ && _).
Qed.

Lemma norm_step_abs k l c : k ≠ 0 → Posix.norm_step k l c = Posix.norm_step 1 l c.
Proof.
  intros Hk. unfold Posix.norm_step.
  by rewrite (bool_decide_eq_false_2 (k = 0)), (bool_decide_eq_false_2 (1 = 0)).
Qed.

Lemma norm_comps_abs q :
  Posix.isabs q = true →
  Posix.norm_comps q = foldl (Posix.norm_step 1) [] (Str.split Posix.sep q).
Proof.
  intros Hq%initial_slashes_abs. unfold Posix.norm_comps.
  generalize (@nil string). induction (Str.split Posix.sep q) as [|c l IH]; intros acc.
  - done.
  - simpl. by rewrite IH, norm_step_abs.
Qed.

Lemma norm_step_proper k l n : proper n = true → Posix.norm_step k l n = l ++ [n].
Proof.
  intros (H1 & H2 & H3 & _)%proper_inv. unfold Posix.norm_step, Posix.curdir, Posix.pardir.
  rewrite (bool_decide_eq_false_2 (n = "")), (bool_decide_eq_false_2 (n = ".")) by done.
  by rewrite (bool_decide_eq_true_2 (n ≠ "..")).
Qed.

Lemma norm_comps_join2 q n :
  proper n = true → Posix.isabs q = true →
  Posix.norm_comps (Posix.join2 q n) = Posix.norm_comps q ++ [n].
Proof.
  intros Hn Hq. rewrite !norm_comps_abs by auto using join2_abs.
  rewrite foldl_split_join2 by done. by apply norm_step_proper.
Qed.

Lemma norm_comps_join q names :
  Forall (λ n, proper n = true) names → Posix.isabs q = true →
  Posix.norm_comps (Posix.join q names) = Posix.norm_comps q ++ names.
Proof.
  unfold Posix.join. intros Hns. revert q.
  induction Hns as [|n ns Hn _ IH]; intros q Hq; simpl.
  - by rewrite app_nil_r.
  - rewrite IH by auto using join2_abs.
    by rewrite norm_comps_join2, <-app_assoc.
Qed.

Lemma anchored_join cwd p names :
  Forall (λ n, proper n = true) names →
  Posix.anchored cwd (Posix.join p names) = Posix.join (Posix.anchored cwd p) names.
Proof.
  unfold Posix.join. intros Hns. revert p.
  induction Hns as [|n ns Hn _ IH]; intros p; simpl; [done|].
  by rewrite IH, anchored_join2.
Qed.

Lemma join_nonempty q names :
  Forall (λ n, proper n = true) names → q ≠ "" ∨ names ≠ [] →
  Posix.join q names ≠ "".
Proof.
  unfold Posix.join. intros Hns. revert q.
  induction Hns as [|n ns Hn _ IH]; intros q Hq; simpl.
  - by destruct Hq.
  - apply IH. left. by apply join2_nonempty.
Qed.

(** Components of a normalised absolute path. *)
Lemma removelast_Forall {A} (P : A → Prop) l : Forall P l → Forall P (removelast l).
Proof.
  induction 1 as [|x l Hx Hl IH]; simpl; [done|].
  destruct l; [done|]. by constructor.
Qed.

Lemma norm_comps_ok q :
  Forall (λ x, x ≠ "" ∧ has_sep x = false) (Posix.norm_comps q).
Proof.
  unfold Posix.norm_comps. generalize (Posix.initial_slashes q). intros k.
  pose proof (split_all_no_sep q) as Hs.
  assert (Forall (λ x, x ≠ "" ∧ has_sep x = false) (@nil string)) as Hacc by done.
  revert Hacc. generalize (@nil string).
  induction Hs as [|c l Hc _ IH]; intros acc Hacc; simpl; [done|].
  apply IH. unfold Posix.norm_step.
  destruct (bool_decide (c = "")) eqn:Hc0; [done|].
  apply bool_decide_eq_false in Hc0. simpl.
  destruct (bool_decide (c = Posix.curdir)); [done|]. simpl.
  destruct (_ || _).
  - apply Forall_app. split; [done|]. by repeat constructor.
  - by apply removelast_Forall.
Qed.

Lemma split_join comps :
  Forall (λ x, has_sep x = false) comps →
  Str.split Posix.sep (Str.join Posix.sep comps)
  = match comps with [] => [""] | _ => comps end.
Proof.
  induction 1 as [|x l Hx Hl IH]; [done|].
  destruct l as [|y l].
  - simpl. by apply split_no_sep.
  - change (Str.join Posix.sep (x :: y :: l))
      with (x +:+ String Posix.sep (Str.join Posix.sep (y :: l))).
    by rewrite split_app, IH, split_no_sep.
Qed.

Lemma filter_nonempty_id (l : list string) :
  Forall (λ x, x ≠ "") l → filter (λ x, x ≠ "") l = l.
Proof.
  induction 1 as [|x l Hx Hl IH]; [done|].
  by rewrite filter_cons_True, IH.
Qed.

Lemma abspath_comps cwd p :
  Posix.isabs cwd = true →
  filter (λ x, x ≠ "") (Str.split Posix.sep (Posix.abspath cwd p))
  = Posix.norm_comps (Posix.anchored cwd p).
Proof.
  intros Hc. pose proof (anchored_abs cwd p Hc) as Hq.
  unfold Posix.abspath. set (q := Posix.anchored cwd p) in *.
  pose proof (norm_comps_ok q) as Hok.
  assert (filter (λ x, x ≠ "")
            (Str.split Posix.sep (Str.join Posix.sep (Posix.norm_comps q)))
          = Posix.norm_comps q) as Hcomps.
  { rewrite split_join by (eapply Forall_impl; [done|]; by intros ? [??]).
    destruct (Posix.norm_comps q) eqn:Heq; [done|].
    apply filter_nonempty_id. eapply Forall_impl; [done|]. by intros ? [??]. }
  unfold Posix.normpath. rewrite decide_False by (by intros Heq; rewrite Heq in Hq).
  unfold Posix.initial_slashes. unfold Posix.isabs in Hq. rewrite Hq.
  destruct (_ && _); simpl;
    rewrite ?filter_cons_False by naive_solver; done.
Qed.

Lemma commonprefix_app (l k : list string) : Posix.commonprefix l (l ++ k) = l.
Proof. induction l as [|x l IH]; simpl; [by destruct k|]. by rewrite decide_True, IH. Qed.

(** A path below [start], reached by proper names, is relative to [start]
    the path made of these names. *)
Lemma relpath_below cwd start n ns :
  Posix.isabs cwd = true →
  Forall (λ n, proper n = true) (n :: ns) →
  Posix.relpath cwd (Posix.join start (n :: ns)) start = inr (Posix.join n ns).
Proof.
  intros Hc Hns. unfold Posix.relpath.
  rewrite decide_False by (apply join_nonempty; auto).
  rewrite !abspath_comps, anchored_join by done.
  rewrite norm_comps_join by auto using anchored_abs.
  rewrite commonprefix_app, Nat.sub_diag, drop_app_length. done.
Qed.

Lemma relpath_self cwd p : p ≠ "" → Posix.relpath cwd p p = inr ".".
Proof.
  intros Hp. unfold Posix.relpath. rewrite decide_False by done.
  set (l := filter _ _).
  pose proof (commonprefix_app l []) as Hl. rewrite app_nil_r in Hl.
  by rewrite Hl, Nat.sub_diag, drop_all.
Qed.

End PathFacts.

(** * Name mapper *)

Section NameMapper.

Lemma strip_leading_dots_app s c t :
  c ≠ "."%char →
  strip_leading_dots (s +:+ String c t) = strip_leading_dots s +:+ String c t.
Proof.
  intros Hc. induction s as [|a s IH]; simpl.
  - by rewrite decide_False.
  - by case_decide.
Qed.

Lemma strip_leading_dots_no_sep s :
  has_sep s = false → has_sep (strip_leading_dots s) = false.
Proof.
  induction s as [|a s IH]; simpl; [done|].
  intros [Ha Hs]%orb_false_elim. destruct (decide (a = "."%char)); [by auto|].
  change (bool_decide (a = Posix.sep) || has_sep s = false). by rewrite Ha, Hs.
Qed.

Lemma replace_app c d s t :
  Str.replace c d (s +:+ t) = Str.replace c d s +:+ Str.replace c d t.
Proof. induction s as [|a s IH]; simpl; [done|]. by rewrite IH. Qed.

Lemma replace_no_sep d s : has_sep s = false → Str.replace Posix.sep d s = s.
Proof.
  induction s as [|a s IH]; simpl; [done|].
  intros [Ha%bool_decide_eq_false Hs]%orb_false_elim.
  by rewrite decide_False, IH.
Qed.

Lemma replace_join d l :
  Forall (λ x, has_sep x = false) l →
  Str.replace Posix.sep d (Str.join Posix.sep l) = Str.join d l.
Proof.
  induction 1 as [|x l Hx Hl IH]; [done|].
  destruct l as [|y l].
  - simpl. by apply replace_no_sep.
  - change (Str.join Posix.sep (x :: y :: l))
      with (x +:+ String Posix.sep (Str.join Posix.sep (y :: l))).
    change (Str.join d (x :: y :: l)) with (x +:+ String d (Str.join d (y :: l))).
    rewrite replace_app, replace_no_sep by done. simpl in *.
    by rewrite IH.
Qed.

Lemma no_sep_endswith s : has_sep s = false → Str.endswith s Posix.sep = false.
Proof.
  unfold Str.endswith. induction s as [|a s IH]; simpl; [done|].
  intros [Ha Hs]%orb_false_elim. destruct s; [done|]. by apply IH.
Qed.

Lemma join_cons_snoc c a b l :
  Str.join c ((a +:+ String c b) :: l) = a +:+ String c (Str.join c (b :: l)).
Proof. destruct l; simpl; [done|]. by rewrite app_assoc_s. Qed.

(** [os.path.join] of names is ["/".join]. *)
Lemma join_names a l :
  a ≠ "" → Str.endswith a Posix.sep = false →
  Forall (λ n, proper n = true) l →
  Posix.join a l = Str.join Posix.sep (a :: l).
Proof.
  unfold Posix.join. intros Ha Hend Hl. revert a Ha Hend.
  induction Hl as [|b l Hb _ IH]; intros a Ha Hend; [done|].
  simpl foldl. rewrite join2_proper by done.
  rewrite (bool_decide_eq_false_2 (a = "")), Hend by done. simpl orb. cbv iota.
  pose proof (proper_inv b Hb) as (Hb0 & _ & _ & Hbs).
  rewrite IH.
  - apply join_cons_snoc.
  - by intros [_ ?]%app_eq_empty.
  - rewrite (endswith_app a (String Posix.sep b)) by done.
    change (Str.endswith (String Posix.sep b) Posix.sep = false).
    assert (Str.endswith (String Posix.sep b) Posix.sep = Str.endswith b Posix.sep)
      as -> by (by destruct b).
    by apply no_sep_endswith.
Qed.

Lemma join_names_not_curdir n ns :
  proper n = true → Str.join Posix.sep (n :: ns) ≠ ".".
Proof.
  intros (Hn & Hdot & _)%proper_inv. destruct ns as [|m ns]; [done|].
  change (n +:+ String Posix.sep (Str.join Posix.sep (m :: ns)) ≠ ".").
  destruct n as [|a n]; [done|]. simpl. intros [= _ Heq].
  by apply app_eq_empty in Heq as [_ ?].
Qed.

Lemma strip_leading_dots_join n ns :
  strip_leading_dots (Str.join Posix.sep (n :: ns))
  = Str.join Posix.sep (strip_leading_dots n :: ns).
Proof.
  destruct ns as [|m ns]; [done|].
  change (Str.join Posix.sep (n :: m :: ns))
    with (n +:+ String Posix.sep (Str.join Posix.sep (m :: ns))).
  by rewrite strip_leading_dots_app.
Qed.

Lemma relpath_ok cwd path start :
  path ≠ "" → ∃ rel, Posix.relpath cwd path start = inr rel.
Proof.
  intros Hp. unfold Posix.relpath. rewrite decide_False by done.
  simpl. destruct (_ ++ _); eauto.
Qed.

(** The relative path of a folder below the root, and what becomes of it. *)
Lemma mbox_filename_segments cwd src_root n ns :
  Posix.isabs cwd = true →
  Forall (λ n, proper n = true) (n :: ns) →
  mbox_filename cwd src_root (Posix.join src_root (n :: ns))
  = inr ((let flat := Str.join "_" (strip_leading_dots n :: ns) in
          if decide (flat = "") then "Inbox" else flat) +:+ ".mbox").
Proof.
  intros Hc Hns. unfold mbox_filename.
  rewrite relpath_below by done.
  inversion_clear Hns as [|?? Hn Hns'].
  pose proof (proper_inv n Hn) as (Hn0 & _ & _ & Hsep).
  rewrite join_names by auto using no_sep_endswith.
  rewrite decide_False by (by apply join_names_not_curdir).
  rewrite strip_leading_dots_join, replace_join; [done|].
  constructor; [by apply strip_leading_dots_no_sep|].
  eapply Forall_impl; [done|]. by intros ? (_ & _ & _ & ?)%proper_inv.
Qed.

(** On a path the name mapper returns a name. *)
Lemma mbox_filename_ok cwd src_root maildir_root :
  maildir_root ≠ "" → ∃ name, mbox_filename cwd src_root maildir_root = inr name.
Proof.
  intros Hmd. unfold mbox_filename.
  destruct (relpath_ok cwd maildir_root src_root Hmd) as [rel ->]. eauto.
Qed.

(** Two laws behind the collisions of file names: a leading dot does not
    count, and a separator counts as an underscore. *)
Lemma mbox_filename_dot_alias cwd src_root n :
  Posix.isabs cwd = true →
  proper n = true → proper (String "." n) = true →
  mbox_filename cwd src_root (Posix.join src_root [String "." n])
  = mbox_filename cwd src_root (Posix.join src_root [n]).
Proof.
  intros Hc Hn Hdn. by rewrite !mbox_filename_segments by (by repeat constructor).
Qed.

Lemma mbox_filename_underscore_alias cwd src_root a b :
  Posix.isabs cwd = true →
  proper a = true → proper b = true → proper (a +:+ String "_" b) = true →
  mbox_filename cwd src_root (Posix.join src_root [a; b])
  = mbox_filename cwd src_root (Posix.join src_root [a +:+ String "_" b]).
Proof.
  intros Hc Ha Hb Hab. rewrite !mbox_filename_segments by (by repeat constructor).
  by rewrite strip_leading_dots_app.
Qed.

End NameMapper.

(** C2, as amended.  For a maildir strictly below the source root, reached
    from it by the names [n :: ns], the file name is made from the relative
    path [n/...] by removing the dots at its very front (so only the first
    segment can lose dots, and a later segment keeps its leading dot), then
    joining the segments with underscores, falling back to [Inbox] when
    nothing is left, and appending [.mbox].  [.Sent] maps to [Sent.mbox],
    and [.a/.b] maps to [a_.b.mbox]. *)
Theorem mbox_filename_below cwd src_root n ns :
  Posix.isabs cwd = true →
  Forall (λ n, proper n = true) (n :: ns) →
  mbox_filename cwd src_root (Posix.join src_root (n :: ns))
  = inr ((let flat := Str.join "_" (strip_leading_dots n :: ns) in
          if decide (flat = "") then "Inbox" else flat) +:+ ".mbox")
  ∧ mbox_filename cwd src_root (Posix.join src_root [".Sent"]) = inr "Sent.mbox"
  ∧ mbox_filename cwd src_root (Posix.join src_root [".a"; ".b"]) = inr "a_.b.mbox".
Proof.
  intros Hc Hns. split; [|split].
  - by rewrite mbox_filename_segments.
  - by rewrite mbox_filename_segments by (by repeat constructor).
  - by rewrite mbox_filename_segments by (by repeat constructor).
Qed.

Lemma mbox_filename_below_witness :
  Posix.isabs "/home/u" = true
  ∧ Forall (λ n, proper n = true) [".Archive"; "2024"]
  ∧ mbox_filename "/home/u" "/srv/mail" "/srv/mail/.Archive/2024"
    = inr "Archive_2024.mbox".
Proof.
  assert (Forall (λ n, proper n = true) [".Archive"; "2024"]) as Hnames
    by (by repeat constructor).
  split; [reflexivity|]. split; [exact Hnames|].
  exact (proj1 (mbox_filename_below "/home/u" "/srv/mail" ".Archive" ["2024"]
                  eq_refl Hnames)).
Defined.

(** C2, as stated, fails on [.a/.b]: the second segment keeps its dot,
    whichever way "stripping a dot segment" is read. *)
Lemma mbox_filename_second_dot_kept :
  mbox_filename "/" "/m" (Posix.join "/m" [".a"; ".b"]) = inr "a_.b.mbox"
  ∧ spec_filename spec_strip_markers [".a"; ".b"] = "a_b.mbox"
  ∧ spec_filename spec_drop_segments [".a"; ".b"] = "Inbox.mbox"
  ∧ spec_filename spec_strip_markers [".Sent"] = "Sent.mbox".
Proof. by vm_compute. Qed.

(** C9.  The name mapper never fails on a path (a non-empty string) and
    always returns a non-empty stem followed by [.mbox]; its result is
    determined by its inputs, and for the source root and the folders below
    it the working directory does not enter into it; the source root itself
    maps to [Inbox.mbox]. *)
Theorem mbox_filename_total cwd src_root maildir_root :
  maildir_root ≠ "" →
  ∃ stem,
    stem ≠ ""
    ∧ mbox_filename cwd src_root maildir_root = inr (stem +:+ ".mbox")
    ∧ (∀ r, mbox_filename cwd src_root maildir_root = r → r = inr (stem +:+ ".mbox"))
    ∧ (maildir_root = src_root → stem = "Inbox")
    ∧ (∀ cwd' names,
         Posix.isabs cwd = true → Posix.isabs cwd' = true →
         Forall (λ n, proper n = true) names →
         maildir_root = Posix.join src_root names →
         mbox_filename cwd' src_root maildir_root = inr (stem +:+ ".mbox")).
Proof.
  intros Hmd.
  assert (∃ stem, stem ≠ "" ∧ mbox_filename cwd src_root maildir_root = inr (stem +:+ ".mbox")
                  ∧ (maildir_root = src_root → stem = "Inbox")) as (stem & Hstem & Heq & Hroot).
  { unfold mbox_filename. destruct (decide (maildir_root = src_root)) as [<-|Hne].
    - rewrite relpath_self by done. by exists "Inbox".
    - destruct (relpath_ok cwd maildir_root src_root Hmd) as [rel ->].
      eexists. split_and!; [|done..].
      destruct (decide (rel = ".")); [done|]. by case_decide. }
  exists stem. split_and!; [done..|by intros ? <-|done|].
  intros cwd' names Hc Hc' Hnames ->. destruct names as [|n ns].
  - unfold Posix.join in *. simpl in *. rewrite (Hroot eq_refl).
    unfold mbox_filename. by rewrite relpath_self.
  - rewrite mbox_filename_segments in Heq |- * by done. done.
Qed.

Lemma mbox_filename_total_witness :
  "mail/.Drafts" ≠ ""
  ∧ ∃ stem, stem ≠ ""
            ∧ mbox_filename "/home/u" "mail" "mail/.Drafts" = inr (stem +:+ ".mbox").
Proof.
  split; [done|].
  destruct (mbox_filename_total "/home/u" "mail" "mail/.Drafts" ltac:(done))
    as (stem & Hstem & Heq & _).
  by exists stem.
Defined.

(** * Folder locator *)

#[local] Arguments Posix.join : simpl never.

Section Locator.

Context (fs : node) (cwd : string).

Lemma merge_sort_perm (l1 l2 : list string) :
  l1 ≡ₚ l2 → merge_sort Str.le l1 = merge_sort Str.le l2.
Proof.
  intros Hl. apply (StronglySorted_unique Str.le);
    [apply StronglySorted_merge_sort; apply _..|].
  by rewrite !merge_sort_Permutation.
Qed.

Lemma assoc_elem d c es : Fs.assoc d es = Some c → (d, c) ∈ es.
Proof.
  induction es as [|[n c'] es IH]; simpl; [done|].
  case_decide; [intros [= ->]; subst; by left|]. intros ?. right. auto.
Qed.

Lemma elem_assoc d c es : NoDup es.*1 → (d, c) ∈ es → Fs.assoc d es = Some c.
Proof.
  induction es as [|[n c'] es IH]; simpl; [by intros _ ?%elem_of_nil|].
  intros [Hn Hnd]%NoDup_cons [[= -> ->]|Hin]%elem_of_cons.
  - by rewrite decide_True.
  - rewrite decide_False; [by apply IH|].
    intros ->. apply Hn. by apply (list_elem_of_fmap_2 fst) in Hin.
Qed.

Lemma wf_tidy n : wf n = true → tidy n = true.
Proof. unfold wf. by intros [? _]%andb_prop. Qed.

Lemma tidy_entries n es :
  tidy n = true → Fs.entries n = Some es →
  NoDup es.*1 ∧ Forall (λ e, proper e.1 = true ∧ tidy e.2 = true) es.
Proof.
  intros Hn Hes.
  assert (bool_decide (NoDup es.*1)
          && forallb (λ e, proper e.1 && tidy e.2) es = true) as [Hnd Hall]%andb_prop
    by (destruct n; by simplify_eq/=).
  split; [by apply bool_decide_eq_true in Hnd|].
  apply Forall_forall. intros e He%list_elem_of_In.
  rewrite forallb_forall in Hall. by apply andb_prop, Hall.
Qed.

Lemma tidy_Link target : tidy (Link target) = true → Forall (λ n, tidy n = true) target.
Proof.
  simpl. rewrite forallb_forall, Forall_forall.
  intros H n Hn. by apply H, list_elem_of_In.
Qed.

Lemma resolve_step_skip st n :
  Fs.resolve_step (Fs.resolve_step st "") n = Fs.resolve_step st n.
Proof.
  destruct st as [[|top up]|]; try done. simpl.
  destruct (Fs.entries top) eqn:Htop; [|done]. simpl. by rewrite Htop.
Qed.

(** One step of the resolution on a directory with entries [es]. *)
Lemma resolve_step_entry top up es n :
  Fs.entries top = Some es → proper n = true →
  Fs.resolve_step (Some (top :: up)) n =
    match Fs.assoc n es with
    | Some (Link target) => Some target
    | Some c => Some (c :: top :: up)
    | None => None
    end.
Proof.
  intros Htop (H1 & H2 & H3 & _)%proper_inv. simpl. rewrite Htop.
  by rewrite (bool_decide_eq_false_2 (n = "")), (bool_decide_eq_false_2 (n = ".")),
    (bool_decide_eq_false_2 (n = "..")) by done.
Qed.

(** What holds of the tree, of the entries of what it holds of and of the
    targets of such links, holds of every node met on the way. *)
Lemma resolve_all (Q : node → bool) comps st :
  (∀ n es d c, Q n = true → Fs.entries n = Some es → (d, c) ∈ es → Q c = true) →
  (∀ target, Q (Link target) = true → Forall (λ n, Q n = true) target) →
  Q fs = true → Fs.resolve fs comps = Some st → Forall (λ n, Q n = true) st.
Proof.
  intros Hent Hlink Hfs. unfold Fs.resolve.
  assert (∀ st0, Some [fs] = Some st0 → Forall (λ n, Q n = true) st0) as Hinit.
  { intros ? [= <-]. by repeat constructor. }
  revert st Hinit. generalize (Some [fs]).
  induction comps as [|c comps IH] using rev_ind; intros o st Hinit; simpl; [by auto|].
  rewrite foldl_app. simpl. intros Hstep.
  destruct (foldl Fs.resolve_step o comps) as [[|top up]|] eqn:Hpre; try done.
  specialize (IH o _ Hinit Hpre). simpl in Hstep.
  destruct (Fs.entries top) as [es|] eqn:Htop; [|done].
  inversion IH as [|?? Hd Hup]; subst.
  destruct (_ || _); [by simplify_eq|].
  destruct (bool_decide (c = "..")).
  { destruct up; simplify_eq; [by repeat constructor|done]. }
  destruct (Fs.assoc c es) as [ch|] eqn:Hch; [|done].
  apply assoc_elem in Hch. pose proof (Hent _ _ _ _ Hd Htop Hch) as Hq.
  destruct ch; simplify_eq; try (by constructor). by apply Hlink.
Qed.

Lemma lookup_all (Q : node → bool) p n :
  (∀ n es d c, Q n = true → Fs.entries n = Some es → (d, c) ∈ es → Q c = true) →
  (∀ target, Q (Link target) = true → Forall (λ n, Q n = true) target) →
  Q fs = true → Fs.lookup fs cwd p = Some n → Q n = true.
Proof.
  intros Hent Hlink Hfs. unfold Fs.lookup. case_decide; [done|].
  destruct (Fs.resolve fs _) as [[|m st]|] eqn:Hres; try done.
  intros [= <-]. apply (resolve_all Q) in Hres; [|done..]. by inversion Hres.
Qed.

Lemma forallb_Forall {A} (Q : A → bool) l : forallb Q l = true → Forall (λ x, Q x = true) l.
Proof.
  rewrite forallb_forall, Forall_forall. intros H x Hx. by apply H, list_elem_of_In.
Qed.

Lemma lookup_tidy p n : tidy fs = true → Fs.lookup fs cwd p = Some n → tidy n = true.
Proof.
  apply lookup_all; [|by intros ?; apply forallb_Forall].
  intros m es d c Hm Hes Hin. destruct (tidy_entries m es Hm Hes) as [_ Hall].
  rewrite Forall_forall in Hall. by apply Hall in Hin as [_ ?].
Qed.

Lemma lookup_listable_node p n :
  listable fs = true → Fs.lookup fs cwd p = Some n → listable n = true.
Proof.
  apply lookup_all; [|by intros ?; apply forallb_Forall].
  intros m es d c Hm Hes Hin. destruct m; simplify_eq/=.
  rewrite forallb_forall in Hm. by apply list_elem_of_In, Hm in Hin.
Qed.

(** On a well-formed tree what is a directory can be listed. *)
Lemma lookup_listable p n :
  wf fs = true → Fs.lookup fs cwd p = Some n → Fs.is_dir n = true →
  ∃ es, n = Dir es.
Proof.
  intros [_ Hfs]%andb_prop Hp Hdir. apply lookup_listable_node in Hp; [|done].
  destruct n; try done. eauto.
Qed.


Lemma lookup_nonempty p n : Fs.lookup fs cwd p = Some n → p ≠ "".
Proof. unfold Fs.lookup. by case_decide. Qed.

(** Resolving [join(p, n)] is looking [n] up in the directory at [p] and
    following it when it is a link. *)
Lemma lookup_join2 p m es n :
  Fs.lookup fs cwd p = Some m → Fs.entries m = Some es → proper n = true →
  Fs.lookup fs cwd (Posix.join p [n]) =
    match Fs.assoc n es with
    | Some (Link target) => head target
    | c => c
    end.
Proof.
  intros Hp Hm Hn. unfold Posix.join. simpl. unfold Fs.lookup in *.
  rewrite decide_False by (by apply join2_nonempty).
  case_decide; [done|].
  rewrite anchored_join2 by done. unfold Fs.resolve in *.
  rewrite foldl_split_join2 by auto using resolve_step_skip.
  destruct (foldl _ _ _) as [[|top up]|]; try done. simplify_eq.
  rewrite (resolve_step_entry _ _ es) by done.
  destruct (Fs.assoc n es) as [[| | |[|t target]]|]; done.
Qed.

(** A path below which something is found leads to a directory. *)
Lemma lookup_join2_inv p n c :
  p ≠ "" → proper n = true →
  Fs.lookup fs cwd (Posix.join p [n]) = Some c →
  ∃ m es, Fs.lookup fs cwd p = Some m ∧ Fs.entries m = Some es.
Proof.
  intros Hp Hn. unfold Posix.join. simpl. unfold Fs.lookup.
  rewrite decide_False by (by apply join2_nonempty).
  rewrite (decide_False (P := p = "")) by done.
  rewrite anchored_join2 by done. unfold Fs.resolve.
  rewrite foldl_split_join2 by auto using resolve_step_skip.
  destruct (foldl _ _ _) as [[|top up]|]; simpl; try done.
  destruct (Fs.entries top) as [es|] eqn:Htop; [|done]. eauto.
Qed.

Lemma leads_to_dir_follow c :
  leads_to_dir c = true ↔
  ∃ n, match c with Link target => head target | c => Some c end = Some n
       ∧ Fs.is_dir n = true.
Proof.
  split.
  - destruct c as [| | |[|t target]]; try done; simpl; eauto.
  - intros (n & Hn & Hdir). destruct c as [| | |[|t target]]; by simplify_eq/=.
Qed.

Lemma isdir_join2 p m es d :
  tidy fs = true → Fs.lookup fs cwd p = Some m → Fs.entries m = Some es →
  proper d = true →
  Fs.isdir fs cwd (Posix.join p [d]) = true ↔ is_subdir fs cwd p d.
Proof.
  intros Hfs Hp Hm Hd. unfold Fs.isdir, is_subdir.
  rewrite (lookup_join2 p m es) by done.
  destruct (tidy_entries m es) as [Hnd _]; [by eapply lookup_tidy|done|]. split.
  - destruct (Fs.assoc d es) as [c|] eqn:Hch; [|done]. intros Hdir.
    exists m, es, c. split_and!; [done..|by apply assoc_elem|].
    apply leads_to_dir_follow. destruct c as [| | |target]; simpl in *; eauto.
    destruct target; [done|]. simpl in *. eauto.
  - intros (m' & es' & c & Hp' & Hm' & Hin & Hc). rewrite Hp in Hp'. simplify_eq.
    rewrite (elem_assoc d c es) by done.
    apply leads_to_dir_follow in Hc as (n & Hn & Hdir).
    destruct c as [| | |target]; simplify_eq/=; try done. by rewrite Hn.
Qed.

Lemma is_maildir_qualifies p m es :
  tidy fs = true → Fs.lookup fs cwd p = Some m → Fs.entries m = Some es →
  is_maildir fs cwd p = true ↔ qualifies fs cwd p.
Proof.
  intros Hfs Hp Hm. unfold is_maildir, qualifies. cbn [forallb].
  rewrite !andb_true_iff, !(isdir_join2 p m es) by done. split.
  - intros (? & ? & ? & _) d Hd.
    repeat (apply elem_of_cons in Hd as [->|Hd]; [done|]).
    by apply elem_of_nil in Hd.
  - intros H. split_and!; try done; apply H; repeat constructor.
Qed.

Lemma elem_of_walk_node top es p :
  p ∈ Fs.walk_node top (Dir es) ↔
  p = top ∨ ∃ e, e ∈ es ∧ p ∈ Fs.walk_node (Posix.join top [e.1]) e.2.
Proof.
  cbn [Fs.walk_node]. rewrite elem_of_cons, list_elem_of_In, in_flat_map.
  setoid_rewrite list_elem_of_In. done.
Qed.

Lemma walk_node_not_listed top n :
  (∀ es, n ≠ Dir es) → Fs.walk_node top n = [].
Proof. intros Hn. destruct n as [|es| |]; try done. by destruct (Hn es). Qed.

(** Everything the walk visits is reached by the descent. *)
Lemma walk_node_descends root n :
  tidy fs = true →
  ∀ top, Fs.lookup fs cwd top = Some n → descends fs cwd root top →
  ∀ p, p ∈ Fs.walk_node top n → descends fs cwd root p.
Proof.
  intros Hfs. induction n as [|es IH|es _|target _] using node_ind;
    intros top Htop Hd p Hp; try (by apply elem_of_nil in Hp).
  apply elem_of_walk_node in Hp as [->|([d c] & He & Hp)]; [done|].
  destruct (tidy_entries (Dir es) es) as [Hnd Hall]; [by eapply lookup_tidy|done|].
  rewrite Forall_forall in IH, Hall.
  destruct (Hall _ He) as [Hproper _]. simpl in *.
  destruct c as [|es'| |]; try (by apply elem_of_nil in Hp).
  apply (IH _ He (Posix.join top [d])); [|by econstructor; [|exists es, es']|done].
  rewrite (lookup_join2 top (Dir es) es) by done. by rewrite (elem_assoc d (Dir es') es).
Qed.

(** The walk is closed under stepping into a subdirectory. *)
Lemma walk_node_closed n :
  tidy fs = true →
  ∀ top, Fs.lookup fs cwd top = Some n →
  ∀ q d, q ∈ Fs.walk_node top n → has_subdir fs cwd q d →
  Posix.join q [d] ∈ Fs.walk_node top n.
Proof.
  intros Hfs. induction n as [|es IH|es _|target _] using node_ind;
    intros top Htop q d Hq (es0 & es' & Hq0 & Hd); try (by apply elem_of_nil in Hq).
  apply elem_of_walk_node. right.
  apply elem_of_walk_node in Hq as [->|([d1 c] & He & Hq)].
  - rewrite Htop in Hq0. simplify_eq. exists (d, Dir es'). split; [done|].
    simpl. by left.
  - exists (d1, c). split; [done|]. simpl in *.
    destruct (tidy_entries (Dir es) es) as [Hnd Hall]; [by eapply lookup_tidy|done|].
    rewrite Forall_forall in IH, Hall.
    destruct (Hall _ He) as [Hproper _]. simpl in *.
    destruct c as [|es1| |]; try (by apply elem_of_nil in Hq).
    apply (IH _ He); [|done|by exists es0, es'].
    rewrite (lookup_join2 top (Dir es) es) by done.
    by rewrite (elem_assoc d1 (Dir es1) es).
Qed.

Lemma elem_of_walk root :
  tidy fs = true → ∀ p, p ∈ Fs.walk fs cwd root ↔ descends fs cwd root p.
Proof.
  intros Hfs p. unfold Fs.walk. split.
  - destruct (Fs.lookup fs cwd root) as [n|] eqn:Hroot; [|by intros ?%elem_of_nil].
    destruct n as [|es| |]; try (by intros ?%elem_of_nil).
    apply walk_node_descends; [done..|]. by econstructor.
  - induction 1 as [es Hroot|q d Hq IH Hd].
    + rewrite Hroot. by left.
    + destruct (Fs.lookup fs cwd root) as [n|] eqn:Hroot; [|by apply elem_of_nil in IH].
      by apply walk_node_closed.
Qed.



(** Every visited path is the top joined with proper names. *)
Lemma walk_node_names n :
  tidy n = true →
  ∀ top p, p ∈ Fs.walk_node top n →
  ∃ names, Forall (λ n, proper n = true) names ∧ p = Posix.join top names.
Proof.
  induction n as [|es IH|es _|target _] using node_ind; intros Hwf top p Hp;
    try (by apply elem_of_nil in Hp).
  apply elem_of_walk_node in Hp as [->|([d c] & He & Hp)]; [by exists []|].
  destruct (tidy_entries (Dir es) es Hwf eq_refl) as [_ Hall].
  rewrite Forall_forall in IH, Hall.
  destruct (Hall _ He) as [Hd Hc].
  destruct (IH _ He Hc _ _ Hp) as (names & Hnames & ->).
  exists (d :: names). by split; [constructor|].
Qed.




(** Every folder found is the root joined with proper names. *)
Lemma find_maildirs_below root p :
  tidy fs = true → p ∈ find_maildirs fs cwd root →
  ∃ names, Forall (λ n, proper n = true) names ∧ p = Posix.join root names.
Proof.
  intros Hfs. unfold find_maildirs.
  rewrite merge_sort_Permutation, list_elem_of_filter. intros [_ Hp].
  unfold Fs.walk in Hp.
  destruct (Fs.lookup fs cwd root) as [n|] eqn:Hroot; [|by apply elem_of_nil in Hp].
  eapply walk_node_names; [|done]. by eapply lookup_tidy.
Qed.

Lemma walk_not_dir root : Fs.isdir fs cwd root = false → Fs.walk fs cwd root = [].
Proof.
  unfold Fs.isdir, Fs.walk. by destruct (Fs.lookup fs cwd root) as [[| | |]|].
Qed.




End Locator.


(** C4, as amended.  For a root that does not exist or is not a directory the
    folder locator raises nothing: it returns the empty list. *)
Theorem find_maildirs_not_dir fs cwd root :
  Fs.isdir fs cwd root = false → find_maildirs fs cwd root = [].
Proof. intros Hroot. unfold find_maildirs. by rewrite walk_not_dir. Qed.

(** * Per-message transfer *)

Section Transfer.

Context {W Msg : Type} (E : @Env W Msg).

Implicit Types s : @state W Msg.

Lemma bind_inr {A B} (m : @M W Msg A) (f : A → @M W Msg B) s y s' :
  (m ≫= f) s = (inr y, s') → ∃ x s1, m s = (inr x, s1) ∧ f x s1 = (inr y, s').
Proof.
  unfold mbind, M_bind. destruct (m s) as [[a|x] s1]; [done|]. eauto.
Qed.

Lemma ask_cases {A} (o : W → result A * W) s :
  (∃ x s', ask o s = (inr x, s') ∧ files s' = files s ∧ trace s' = trace s
           ∧ o (hid s) = (inr x, hid s'))
  ∨ (∃ e s', ask o s = (inl (Raised e), s') ∧ files s' = files s
             ∧ trace s' = trace s).
Proof. unfold ask. destruct (o (hid s)) as [[e|x] w]; [right|left]; eauto 10. Qed.

Lemma mbox_add_cases mbox_obj r s :
  (∃ s', mbox_add E mbox_obj r s = (inr (), s')
         ∧ files s' = appended mbox_obj r (files s)
         ∧ trace s' = trace s ++ [EvAdd mbox_obj r true])
  ∨ (∃ e s', mbox_add E mbox_obj r s = (inl (Raised e), s')
             ∧ files s' = files s
             ∧ trace s' = trace s ++ [EvAdd mbox_obj r false]).
Proof.
  unfold mbox_add. destruct (env_add E mbox_obj r (hid s)) as [[e|] w];
    [right|left]; eauto 10.
Qed.

Lemma tier_parsed_cases mbox_obj md key s :
  (∃ m w s', tier_parsed E mbox_obj md key s = (inr (), s')
             ∧ env_get_message E md key (hid s) = (inr m, w)
             ∧ files s' = appended mbox_obj (Parsed m) (files s))
  ∨ (∃ e s', tier_parsed E mbox_obj md key s = (inl (Raised e), s')
             ∧ files s' = files s).
Proof.
  unfold tier_parsed, md_get_message, mbind, M_bind.
  destruct (ask_cases (env_get_message E md key) s)
    as [(m & s1 & -> & Hf1 & _ & Hm)|(e & s1 & -> & Hf1 & _)]; [|right; eauto].
  destruct (mbox_add_cases mbox_obj (Parsed m) s1)
    as [(s2 & -> & Hf2 & _)|(e & s2 & -> & Hf2 & _)].
  - left. exists m, (hid s1), s2. by rewrite Hf2, Hf1.
  - right. exists e, s2. by rewrite Hf2, Hf1.
Qed.

Lemma tier_raw_cases mbox_obj md key s :
  (∃ raw w s', tier_raw E mbox_obj md key s = (inr (), s')
               ∧ env_read E md key (hid s) = (inr raw, w)
               ∧ files s' = appended mbox_obj (RawBytes raw) (files s))
  ∨ (∃ e s', tier_raw E mbox_obj md key s = (inl (Raised e), s')
             ∧ files s' = files s).
Proof.
  unfold tier_raw, md_read, mbind, M_bind.
  destruct (ask_cases (env_read E md key) s)
    as [(m & s1 & -> & Hf1 & _ & Hm)|(e & s1 & -> & Hf1 & _)]; [|right; eauto].
  destruct (mbox_add_cases mbox_obj (RawBytes m) s1)
    as [(s2 & -> & Hf2 & _)|(e & s2 & -> & Hf2 & _)].
  - left. exists m, (hid s1), s2. by rewrite Hf2, Hf1.
  - right. exists e, s2. by rewrite Hf2, Hf1.
Qed.

(** [add_with_fallback] in terms of its three attempts. *)
Lemma add_with_fallback_unfold mbox_obj md key s :
  add_with_fallback E mbox_obj md key s =
    match tier_parsed E mbox_obj md key s with
    | (inr _, s1) => (inr "OK", s1)
    | (inl (SystemExit c), s1) => (inl (SystemExit c), s1)
    | (inl (Raised _), s1) =>
        match tier_raw E mbox_obj md key s1 with
        | (inr _, s2) => (inr "RAW", s2)
        | (inl (SystemExit c), s2) => (inl (SystemExit c), s2)
        | (inl (Raised _), s2) =>
            match tier_placeholder E mbox_obj s2 with
            | (inr _, s3) => (inr "RAW", s3)
            | (inl (SystemExit c), s3) => (inl (SystemExit c), s3)
            | (inl (Raised _), s3) => (inr "SKIP", s3)
            end
        end
    end.
Proof.
  unfold add_with_fallback, tier_parsed, tier_raw, tier_placeholder, try_except,
    mbind, M_bind, mret, M_ret.
  destruct (md_get_message E md key s) as [[[e|c]|m] s1]; simpl; try done.
  - destruct (md_read E md key s1) as [[[e2|c2]|raw] s2]; simpl; try done.
    + by destruct (mbox_add E mbox_obj (RawBytes placeholder) s2) as [[[?|?]|[]] ?].
    + destruct (mbox_add E mbox_obj (RawBytes raw) s2) as [[[?|?]|[]] s3]; simpl; try done.
      by destruct (mbox_add E mbox_obj (RawBytes placeholder) s3) as [[[?|?]|[]] ?].
  - destruct (mbox_add E mbox_obj (Parsed m) s1) as [[[?|?]|[]] s2]; simpl; try done.
    destruct (md_read E md key s2) as [[[e2|c2]|raw] s3]; simpl; try done.
    + by destruct (mbox_add E mbox_obj (RawBytes placeholder) s3) as [[[?|?]|[]] ?].
    + destruct (mbox_add E mbox_obj (RawBytes raw) s3) as [[[?|?]|[]] s4]; simpl; try done.
      by destruct (mbox_add E mbox_obj (RawBytes placeholder) s4) as [[[?|?]|[]] ?].
Qed.

End Transfer.

(** Two runs of one computation from one state end alike. *)
Ltac same_run :=
  simplify_eq;
  repeat match goal with
         | H : ?m = _, H' : ?m = _ |- _ => rewrite H in H'; simplify_eq
         end.

(** C3.  [add_with_fallback] never raises and returns one of [OK], [RAW] and
    [SKIP].  The three attempts are made in order and the first success
    wins: the parsed copy gives [OK]; when it fails, the raw copy gives
    [RAW]; when that fails too, the placeholder record (sender
    [conversion-error], subject [Recovered placeholder]) is appended and
    gives [RAW]; the outcome is [SKIP] only when appending the placeholder
    fails as well, and then nothing was written. *)
Theorem add_with_fallback_tiers {W Msg} (E : @Env W Msg) mbox_obj md key s :
  (∃ outcome s',
      add_with_fallback E mbox_obj md key s = (inr outcome, s')
      ∧ outcome ∈ ["OK"; "RAW"; "SKIP"])
  ∧ (∀ s1, tier_parsed E mbox_obj md key s = (inr (), s1) →
       add_with_fallback E mbox_obj md key s = (inr "OK", s1)
       ∧ ∃ m w, env_get_message E md key (hid s) = (inr m, w)
                ∧ files s1 = appended mbox_obj (Parsed m) (files s))
  ∧ (∀ a1 s1 s2,
       tier_parsed E mbox_obj md key s = (inl a1, s1) →
       tier_raw E mbox_obj md key s1 = (inr (), s2) →
       add_with_fallback E mbox_obj md key s = (inr "RAW", s2)
       ∧ ∃ raw w, env_read E md key (hid s1) = (inr raw, w)
                  ∧ files s2 = appended mbox_obj (RawBytes raw) (files s))
  ∧ (∀ a1 s1 a2 s2 s3,
       tier_parsed E mbox_obj md key s = (inl a1, s1) →
       tier_raw E mbox_obj md key s1 = (inl a2, s2) →
       tier_placeholder E mbox_obj s2 = (inr (), s3) →
       add_with_fallback E mbox_obj md key s = (inr "RAW", s3)
       ∧ files s3 = appended mbox_obj (RawBytes placeholder) (files s))
  ∧ (∀ a1 s1 a2 s2 a3 s3,
       tier_parsed E mbox_obj md key s = (inl a1, s1) →
       tier_raw E mbox_obj md key s1 = (inl a2, s2) →
       tier_placeholder E mbox_obj s2 = (inl a3, s3) →
       add_with_fallback E mbox_obj md key s = (inr "SKIP", s3)
       ∧ files s3 = files s)
  ∧ (∀ s', add_with_fallback E mbox_obj md key s = (inr "SKIP", s') →
       ∃ a1 s1 a2 s2 a3,
         tier_parsed E mbox_obj md key s = (inl a1, s1)
         ∧ tier_raw E mbox_obj md key s1 = (inl a2, s2)
         ∧ tier_placeholder E mbox_obj s2 = (inl a3, s'))
  ∧ header "From" placeholder = Some "conversion-error"
  ∧ header "Subject" placeholder = Some "Recovered placeholder".
Proof.
  rewrite add_with_fallback_unfold. unfold tier_placeholder.
  destruct (tier_parsed_cases E mbox_obj md key s)
    as [(m & w & s1 & H1 & Hm & Hf1)|(e1 & s1 & H1 & Hf1)]; rewrite H1.
  { split_and!; try by (intros; same_run).
    - eexists _, _. split; [done|]. by left.
    - intros ? [= <-]. split; [done|eauto]. }
  destruct (tier_raw_cases E mbox_obj md key s1)
    as [(raw & w & s2 & H2 & Hraw & Hf2)|(e2 & s2 & H2 & Hf2)]; rewrite H2.
  { split_and!; try by (intros; same_run).
    - eexists _, _. split; [done|]. right. by left.
    - intros. same_run. rewrite Hf1 in Hf2. split; [done|eauto]. }
  destruct (mbox_add_cases E mbox_obj (RawBytes placeholder) s2)
    as [(s3 & H3 & Hf3 & _)|(e3 & s3 & H3 & Hf3 & _)]; rewrite H3.
  - split_and!; try by (intros; same_run).
    + eexists _, _. split; [done|]. right. by left.
    + intros. same_run. by rewrite Hf3, Hf2, Hf1.
  - split_and!; try by (intros; same_run).
    + eexists _, _. split; [done|]. right. right. by left.
    + intros. same_run. by rewrite Hf3, Hf2, Hf1.
    + intros ? [= <-]. eauto 10.
Qed.

(** * Loops and counters *)

Section Loops.

Context {W Msg : Type} (E : @Env W Msg).
Implicit Types s : @state W Msg.

Lemma for_each_snoc {A S} (l : list A) x (body : S → A → @M W Msg S) acc s :
  for_each (l ++ [x]) body acc s = (acc' ← for_each l body acc; body acc' x) s.
Proof.
  revert acc s. induction l as [|y l IH]; intros acc s; simpl.
  - unfold mbind, M_bind, mret, M_ret. by destruct (body acc x s) as [[?|?] ?].
  - unfold mbind, M_bind in *.
    destruct (body acc y s) as [[?|acc1] s1]; [done|]. by rewrite IH.
Qed.

(** An invariant of the loop body holds after a loop that completes. *)
Lemma for_each_inv {A S} (I : list A → S → state → Prop)
    (body : S → A → @M W Msg S) l acc s acc' s' :
  (∀ seen x a1 s1 a2 s2,
      I seen a1 s1 → body a1 x s1 = (inr a2, s2) → I (seen ++ [x]) a2 s2) →
  I [] acc s →
  for_each l body acc s = (inr acc', s') →
  I l acc' s'.
Proof.
  intros Hstep. revert acc s acc' s'.
  induction l as [|x l IH] using rev_ind; intros acc s acc' s' Hinit.
  - simpl. unfold mret, M_ret. by intros [= <- <-].
  - rewrite for_each_snoc. unfold mbind, M_bind.
    destruct (for_each l body acc s) as [[?|a1] s1] eqn:Hl; [done|].
    intros Hx. eapply Hstep; [|done]. by eapply IH.
Qed.

Lemma closes_app (t1 t2 : list (@event Msg)) :
  closes (t1 ++ t2) = closes t1 + closes t2.
Proof. unfold closes. by rewrite filter_app, length_app. Qed.

Lemma runs_ret {A} (x : A) : runs 0 (mret x : @M W Msg A).
Proof. intros s. exists x, s. by rewrite Nat.add_0_r. Qed.

Lemma runs_bind {A B} n1 n2 (m : @M W Msg A) (f : A → @M W Msg B) :
  runs n1 m → (∀ x, runs n2 (f x)) → runs (n1 + n2) (m ≫= f).
Proof.
  intros Hm Hf s. destruct (Hm s) as (x & s1 & Hx & H1).
  destruct (Hf x s1) as (y & s2 & Hy & H2).
  exists y, s2. unfold mbind, M_bind. rewrite Hx, Hy. split; [done|lia].
Qed.

Lemma runs_for_each {A St} k (l : list A) (body : St → A → @M W Msg St) acc :
  (∀ a x, x ∈ l → runs k (body a x)) →
  runs (k * length l) (for_each l body acc).
Proof.
  revert acc. induction l as [|x l IH]; intros acc Hbody; simpl.
  - rewrite Nat.mul_0_r. apply runs_ret.
  - replace (k * S (length l)) with (k + k * length l) by lia.
    apply runs_bind; [apply Hbody; by left|].
    intros a. apply IH. intros ???. apply Hbody. by right.
Qed.

Lemma runs_ask {A} (o : W → result A * W) :
  (∀ w, ∃ x, (o w).1 = inr x) → runs 0 (ask o : @M W Msg A).
Proof.
  intros Ho s. unfold ask. destruct (Ho (hid s)) as [x Hx].
  destruct (o (hid s)) as [[e|y] w]; simplify_eq/=.
  eexists _, _. split; [done|]. simpl. lia.
Qed.

Lemma runs_call (o : W → option exn * W) :
  (∀ w, (o w).1 = None) → runs 0 (call o : @M W Msg ()).
Proof.
  intros Ho s. unfold call. specialize (Ho (hid s)).
  destruct (o (hid s)) as [[e|] w]; simplify_eq/=.
  eexists _, _. split; [done|]. simpl. lia.
Qed.

Lemma runs_act (o : W → option exn * W) (ev : @event Msg) :
  (∀ w, (o w).1 = None) → runs (closes [ev]) (act o ev).
Proof.
  intros Ho s. unfold act. specialize (Ho (hid s)).
  destruct (o (hid s)) as [[e|] w]; simplify_eq/=.
  eexists _, _. split; [done|]. simpl. by rewrite closes_app.
Qed.

(** A call whose failure is swallowed always completes. *)
Lemma runs_act_pass (o : W → option exn * W) (ev : @event Msg) :
  runs (closes [ev]) (try_except (act o ev) pass).
Proof.
  intros s. unfold try_except, act, pass, mret, M_ret.
  destruct (o (hid s)) as [[e|] w]; eexists _, _; (split; [done|]);
    simpl; by rewrite closes_app.
Qed.

Lemma runs_try_finally {A} n1 n2 (m : @M W Msg A) (f : @M W Msg ()) :
  runs n1 m → runs n2 f → runs (n1 + n2) (try_finally m f).
Proof.
  intros Hm Hf s. destruct (Hm s) as (x & s1 & Hx & H1).
  destruct (Hf s1) as (y & s2 & Hy & H2).
  exists x, s2. unfold try_finally. rewrite Hx, Hy. split; [done|lia].
Qed.

Lemma closes_one (ev : @event Msg) : is_close ev = false → closes [ev] = 0.
Proof.
  intros Hev. unfold closes.
  by rewrite filter_cons_False by (rewrite Hev; by intros []).
Qed.

Lemma ask_trace {A} (o : W → result A * W) s : trace (ask o s).2 = trace s.
Proof. unfold ask. by destruct (o (hid s)) as [[e|x] w]. Qed.

Lemma mbox_add_closes mbox_obj r s :
  closes (trace (mbox_add E mbox_obj r s).2) = closes (trace s).
Proof.
  destruct (mbox_add_cases E mbox_obj r s)
    as [(s2 & -> & _ & Ht)|(e & s2 & -> & _ & Ht)];
    simpl; rewrite Ht, closes_app, closes_one by done; lia.
Qed.

Lemma tier_parsed_closes mbox_obj md key s :
  closes (trace (tier_parsed E mbox_obj md key s).2) = closes (trace s).
Proof.
  unfold tier_parsed, md_get_message, mbind, M_bind.
  pose proof (ask_trace (env_get_message E md key) s) as Ht.
  destruct (ask _ s) as [[a|m] s1]; simpl in *; [by rewrite Ht|].
  by rewrite mbox_add_closes, Ht.
Qed.

Lemma tier_raw_closes mbox_obj md key s :
  closes (trace (tier_raw E mbox_obj md key s).2) = closes (trace s).
Proof.
  unfold tier_raw, md_read, mbind, M_bind.
  pose proof (ask_trace (env_read E md key) s) as Ht.
  destruct (ask _ s) as [[a|m] s1]; simpl in *; [by rewrite Ht|].
  by rewrite mbox_add_closes, Ht.
Qed.

Lemma runs_add_with_fallback mbox_obj md key :
  runs 0 (add_with_fallback E mbox_obj md key).
Proof.
  intros s. rewrite add_with_fallback_unfold. unfold tier_placeholder.
  pose proof (tier_parsed_closes mbox_obj md key s) as Hc1.
  destruct (tier_parsed_cases E mbox_obj md key s)
    as [(m & w & s1 & H1 & _)|(e1 & s1 & H1 & _)]; rewrite H1 in *; simpl in Hc1.
  { eexists _, _. split; [done|]. lia. }
  pose proof (tier_raw_closes mbox_obj md key s1) as Hc2.
  destruct (tier_raw_cases E mbox_obj md key s1)
    as [(raw & w & s2 & H2 & _)|(e2 & s2 & H2 & _)]; rewrite H2 in *; simpl in Hc2.
  { eexists _, _. split; [done|]. lia. }
  pose proof (mbox_add_closes mbox_obj (RawBytes placeholder) s2) as Hc3.
  destruct (mbox_add_cases E mbox_obj (RawBytes placeholder) s2)
    as [(s3 & H3 & _)|(e3 & s3 & H3 & _)]; rewrite H3 in *; simpl in Hc3;
    (eexists _, _; split; [done|]; lia).
Qed.

Lemma runs_eq {A} n n' (m : @M W Msg A) : n = n' → runs n m → runs n' m.
Proof. by intros ->. Qed.

Lemma runs_lift {A} (r : result A) x : r = inr x → runs 0 (lift r : @M W Msg A).
Proof. intros -> s. exists x, s. split; [done|lia]. Qed.

Lemma runs_print l : benign E → runs 0 (print E l).
Proof.
  intros (Hp & _). apply (runs_eq (closes [@EvPrint Msg l])); [done|].
  apply runs_act. intros w. apply Hp.
Qed.

Lemma tally_spec c o :
  count (tally c o) = count c + 1
  ∧ msg_total (tally c o) = msg_total c + 1
  ∧ ((ok (tally c o) = ok c + 1 ∧ raw (tally c o) = raw c ∧ skip (tally c o) = skip c)
     ∨ (ok (tally c o) = ok c ∧ raw (tally c o) = raw c + 1 ∧ skip (tally c o) = skip c)
     ∨ (ok (tally c o) = ok c ∧ raw (tally c o) = raw c ∧ skip (tally c o) = skip c + 1)).
Proof. unfold tally. repeat case_decide; simpl; auto 10. Qed.

Lemma periodic_flush_run mbox_obj c s :
  ∃ s', periodic_flush E mbox_obj c s = (inr (), s')
        ∧ files s' = files s
        ∧ trace s' = trace s ++ (if decide (count c `mod` 200 = 0)
                                 then [EvFlush mbox_obj] else []).
Proof.
  unfold periodic_flush. case_decide.
  - unfold try_except, mbox_flush, act, pass, mret, M_ret.
    destruct (env_flush E mbox_obj (hid s)) as [[e|] w]; by eexists.
  - exists s. by rewrite app_nil_r.
Qed.

Lemma report_run v t c o key s :
  ∃ r s', report E v t c o key s = (r, s')
          ∧ files s' = files s
          ∧ ∃ evs, trace s' = trace s ++ evs ∧ Forall (λ ev, ∃ l, ev = EvPrint l) evs.
Proof.
  assert (∀ l, ∃ r s', print E l s = (r, s') ∧ files s' = files s
            ∧ ∃ evs, trace s' = trace s ++ evs
                     ∧ Forall (λ ev, ∃ l, ev = EvPrint l) evs) as Hprint.
  { intros l. unfold print, act. destruct (env_print E l (hid s)) as [[e|] w];
      eexists _, _; (split; [done|]); (split; [done|]);
      eexists; (split; [done|]); repeat constructor; by eexists. }
  unfold report. destruct v; [apply Hprint|]. destruct (_ && _); [apply Hprint|].
  exists (inr ()), s. split; [done|]. split; [done|].
  exists []. by rewrite app_nil_r.
Qed.

Lemma convert_message_inr v t out md c key s c' s' :
  convert_message E v t out md c key s = (inr c', s') →
  ∃ o s1 s2,
    add_with_fallback E out md key s = (inr o, s1)
    ∧ c' = tally c o
    ∧ report E v t c' o key s1 = (inr (), s2)
    ∧ periodic_flush E out c' s2 = (inr (), s').
Proof.
  unfold convert_message, mbind, M_bind, mret, M_ret.
  destruct (add_with_fallback E out md key s) as [[a|o] s1]; [done|].
  destruct (report E v t (tally c o) o key s1) as [[a|[]] s2] eqn:Hr; [done|].
  destruct (periodic_flush E out (tally c o) s2) as [[a|[]] s3] eqn:Hf; [done|].
  intros [= <- <-]. by exists o, s1, s2.
Qed.

Lemma runs_convert_message v t out md c key :
  benign E → runs 0 (convert_message E v t out md c key).
Proof.
  intros HE. unfold convert_message.
  apply (runs_bind 0 0); [apply runs_add_with_fallback|]. intros o.
  apply (runs_bind 0 0).
  { unfold report. destruct v; [by apply runs_print|].
    destruct (_ && _); [by apply runs_print|apply runs_ret]. }
  intros _. apply (runs_bind 0 0); [|intros; apply runs_ret].
  unfold periodic_flush. case_decide; [|apply runs_ret].
  apply (runs_eq (closes [@EvFlush Msg out])); [done|]. apply runs_act_pass.
Qed.

(** The counters after a loop that completes. *)
Lemma for_each_counters v t out md keys c0 s c s' :
  for_each keys (convert_message E v t out md) c0 s = (inr c, s') →
  count c = count c0 + length keys
  ∧ msg_total c = msg_total c0 + length keys
  ∧ ok c + raw c + skip c = ok c0 + raw c0 + skip c0 + length keys.
Proof.
  apply (for_each_inv
           (λ seen c _, count c = count c0 + length seen
                        ∧ msg_total c = msg_total c0 + length seen
                        ∧ ok c + raw c + skip c
                          = ok c0 + raw c0 + skip c0 + length seen)).
  - intros seen x a1 s1 a2 s2 (H1 & H2 & H3) (o & ? & ? & _ & -> & _)%convert_message_inr.
    rewrite length_app. simpl.
    destruct (tally_spec a1 o) as (-> & -> & Hcase). split_and!; lia.
  - simpl. lia.
Qed.

(** The [finally] clause attempts both calls and swallows what they raise. *)
Lemma finalize_run out s :
  ∃ s', finalize E out s = (inr (), s')
        ∧ files s' = files s
        ∧ trace s' = trace s ++ [EvFlush out; EvClose out].
Proof.
  unfold finalize, mbind, M_bind, try_except, mbox_flush, mbox_close, act, pass,
    mret, M_ret.
  destruct (env_flush E out (hid s)) as [[e|] w]; simpl;
    destruct (env_close E out w) as [[e'|] w']; simpl;
    eexists; (split; [done|]); simpl; by rewrite <-app_assoc.
Qed.

Lemma try_finally_finalize {A} (m : @M W Msg A) out s :
  (try_finally m (finalize E out) s).1 = (m s).1
  ∧ files (try_finally m (finalize E out) s).2 = files (m s).2
  ∧ trace (try_finally m (finalize E out) s).2
    = trace (m s).2 ++ [EvFlush out; EvClose out].
Proof.
  unfold try_finally. destruct (m s) as [r s1].
  by destruct (finalize_run out s1) as (s2 & -> & Hf & Ht).
Qed.

Lemma runs_finalize out : runs 1 (finalize E out).
Proof.
  intros s. destruct (finalize_run out s) as (s' & -> & _ & Ht).
  eexists _, _. split; [done|]. by rewrite Ht, closes_app.
Qed.

(** The message that makes [count] a multiple of 200 ends with a flush. *)
Lemma for_each_flush v t out md keys total k c s sk :
  0 < k → k `mod` 200 = 0 → k ≤ length keys →
  for_each (take k keys) (convert_message E v t out md)
    {| count := 0; ok := 0; raw := 0; skip := 0; msg_total := total |} s
  = (inr c, sk) →
  last (trace sk) = Some (EvFlush out).
Proof.
  intros Hk Hmod Hlen. destruct k as [|k]; [lia|].
  destruct (lookup_lt_is_Some_2 keys k) as [x Hx]; [lia|].
  rewrite (take_S_r _ _ _ Hx), for_each_snoc. unfold mbind, M_bind.
  destruct (for_each (take k keys) _ _ s) as [[a|c1] s1] eqn:Hloop; [done|].
  apply for_each_counters in Hloop as (Hcount & _). simpl in Hcount.
  rewrite length_take, Nat.min_l in Hcount by lia.
  intros (o & sa & sb & _ & -> & _ & Hflush)%convert_message_inr.
  destruct (periodic_flush_run out (tally c1 o) sb) as (s' & Hrun & _ & Ht).
  rewrite Hflush in Hrun. injection Hrun as <-.
  destruct (tally_spec c1 o) as (Hc & _).
  rewrite Ht, decide_True by (rewrite Hc, Hcount; by replace (k + 1) with (S k) by lia).
  apply last_snoc.
Qed.

End Loops.

(** * Whole runs *)

Section Run.

Context {W Msg : Type} (E : @Env W Msg) (fs : node) (cwd : string).
Implicit Types s : @state W Msg.

Lemma join2_left_nonempty q x : q ≠ "" → Posix.join2 q x ≠ "".
Proof.
  intros Hq. unfold Posix.join2.
  destruct (Str.startswith x "/") eqn:Hx; [by intros ->|].
  destruct (_ || _); by intros [? _]%app_eq_empty.
Qed.

Lemma walk_node_nonempty n : ∀ top p, top ≠ "" → p ∈ Fs.walk_node top n → p ≠ "".
Proof.
  induction n as [|es IH|es _|target _] using node_ind; intros top p Htop Hp;
    try (by apply elem_of_nil in Hp).
  apply elem_of_walk_node in Hp as [->|(e & He & Hp)]; [done|].
  rewrite Forall_forall in IH. eapply (IH _ He); [|done].
  by apply join2_left_nonempty.
Qed.

Lemma find_maildirs_nonempty root p : p ∈ find_maildirs fs cwd root → p ≠ "".
Proof.
  unfold find_maildirs. rewrite merge_sort_Permutation, list_elem_of_filter.
  intros [_ Hp]. unfold Fs.walk in Hp.
  destruct (Fs.lookup fs cwd root) as [n|] eqn:Hroot; [|by apply elem_of_nil in Hp].
  eapply walk_node_nonempty; [|done]. by eapply lookup_nonempty.
Qed.

Lemma runs_os_listdir p :
  benign E → wf fs = true → Fs.isdir fs cwd p = true → runs 0 (os_listdir E fs cwd p).
Proof.
  intros (_ & _ & Hl & _) Hfs Hdir. unfold os_listdir.
  apply (runs_bind 0 0); [apply runs_call; intros w; apply Hl|]. intros _.
  unfold Fs.listdir, Fs.isdir in *.
  destruct (Fs.lookup fs cwd p) as [n|] eqn:Hp; [|done].
  destruct (lookup_listable fs cwd p n Hfs Hp Hdir) as [es ->]. by eapply runs_lift.
Qed.

Lemma runs_collect_entries mdir :
  benign E → wf fs = true → runs 0 (collect_entries E fs cwd mdir).
Proof.
  intros HE Hfs. unfold collect_entries.
  apply (runs_for_each 0 ["cur"; "new"]). intros entries sub _.
  destruct (Fs.isdir fs cwd _) eqn:Hdir; [|apply runs_ret].
  apply (runs_bind 0 0); [by apply runs_os_listdir|]. intros; apply runs_ret.
Qed.

Lemma runs_md_keys md : benign E → runs 0 (md_keys E md : @M W Msg _).
Proof. intros (_ & _ & _ & _ & Hk & _). apply runs_ask. intros w. apply Hk. Qed.

Lemma runs_folder_keys mdir entries : benign E → runs 0 (folder_keys E mdir entries).
Proof.
  intros HE. unfold folder_keys.
  apply (runs_bind 0 0).
  { destruct HE as (_ & _ & _ & Hm & _). apply runs_call. intros w. apply Hm. }
  intros _. apply (runs_bind 0 0); [by apply runs_md_keys|]. intros ks.
  apply (runs_bind 0 0); [|intros; apply runs_ret].
  case_decide; [by apply runs_md_keys|apply runs_ret].
Qed.

Lemma runs_convert_folder root dst_dir v t total mdir :
  benign E → wf fs = true → mdir ≠ "" →
  runs 1 (convert_folder E fs cwd root dst_dir v t total mdir).
Proof.
  intros HE Hfs Hmdir. unfold convert_folder.
  destruct (mbox_filename_ok cwd root mdir Hmdir) as (fname & Hname).
  apply (runs_bind 0 1); [by eapply runs_lift|]. intros name.
  apply (runs_bind 0 1); [by apply runs_print|]. intros _.
  apply (runs_bind 0 1).
  { destruct HE as (_ & Hmk & _).
    apply (runs_eq (closes [@EvMakedirs Msg (Posix.dirname (Posix.join dst_dir [name]))]));
      [done|].
    apply runs_act. intros w. apply Hmk. }
  intros _. apply (runs_bind 0 1); [by apply runs_collect_entries|]. intros entries.
  apply (runs_bind 0 1); [by apply runs_folder_keys|]. intros keys.
  apply (runs_bind 0 1).
  { destruct HE as (_ & _ & _ & _ & _ & Hmb). intros s. unfold mbox.
    specialize (Hmb (Posix.join dst_dir [name]) (hid s)).
    destruct (env_mbox E _ (hid s)) as [[e|] w]; simplify_eq/=.
    eexists _, _. split; [done|]. simpl. by rewrite closes_app. }
  intros _. apply (runs_bind 1 0).
  { apply (runs_try_finally 0 1); [|apply runs_finalize].
    apply (runs_for_each 0). intros. by apply runs_convert_message. }
  intros c. apply (runs_bind 0 0); [by apply runs_print|]. intros; apply runs_ret.
Qed.

(** In a benign environment every folder is converted and closed, whatever
    flushing and closing raise. *)
Lemma runs_convert_maildir root dst_dir v t :
  benign E → wf fs = true →
  runs (length (find_maildirs fs cwd root)) (convert_maildir E fs cwd root dst_dir v t).
Proof.
  intros HE Hfs. unfold convert_maildir. case_decide as Hnil.
  { rewrite Hnil. apply (runs_bind 0 0); [by apply runs_print|]. intros; apply runs_ret. }
  apply (runs_bind 0 (length (find_maildirs fs cwd root))); [by apply runs_print|].
  intros _.
  apply (runs_eq (1 * length (find_maildirs fs cwd root) + 0)); [lia|].
  apply runs_bind.
  { apply runs_for_each. intros total mdir Hin.
    apply runs_convert_folder; [done..|]. by eapply find_maildirs_nonempty. }
  intros total. apply (runs_bind 0 0); [by apply runs_print|]. intros; apply runs_ret.
Qed.

(** A folder adds the number of its keys to the total, whatever became of
    the messages. *)
Lemma convert_folder_total root dst_dir v t total mdir s total' s' :
  convert_folder E fs cwd root dst_dir v t total mdir s = (inr total', s') →
  ∃ entries keys s1 s2,
    folder_keys E mdir entries s1 = (inr keys, s2)
    ∧ total' = total + length keys.
Proof.
  unfold convert_folder.
  intros (name & s1 & _ & (_ & s2 & _ & (_ & s3 & _ & (entries & s4 & _ &
    (keys & s5 & Hkeys & (_ & s6 & _ & (c & s7 & Hloop & (_ & s8 & _ & Hret)%bind_inr
    )%bind_inr)%bind_inr)%bind_inr)%bind_inr)%bind_inr)%bind_inr)%bind_inr.
  exists entries, keys, s4, s5. split; [done|].
  unfold try_finally in Hloop.
  destruct (for_each keys _ _ s6) as [r s6'] eqn:Hfor.
  destruct (finalize E _ s6') as [[a|[]] s6'']; [done|]. simplify_eq.
  apply for_each_counters in Hfor as (_ & Htotal & _).
  unfold mret, M_ret in Hret. by simplify_eq.
Qed.

End Run.

(** * Keys of a folder *)

Section Keys.

Context {W Msg : Type} (E : @Env W Msg) (fs : node) (cwd : string).
Implicit Types s : @state W Msg.

Lemma os_listdir_inr p fns s s' :
  os_listdir E fs cwd p s = (inr fns, s') →
  ∃ es, Fs.lookup fs cwd p = Some (Dir es) ∧ fns = es.*1.
Proof.
  unfold os_listdir, Fs.listdir, lift. intros (_ & s1 & _ & Hl)%bind_inr.
  destruct (Fs.lookup fs cwd p) as [[|es| |]|]; try done.
  injection Hl as <- <-. eauto.
Qed.

Lemma collect_entries_inr mdir entries s s' :
  collect_entries E fs cwd mdir s = (inr entries, s') →
  entries = listed fs cwd mdir "cur" ++ listed fs cwd mdir "new".
Proof.
  assert (∀ sub acc acc' s1 s2,
            (if Fs.isdir fs cwd (Posix.join mdir [sub])
             then fns ← os_listdir E fs cwd (Posix.join mdir [sub]); mret (acc ++ fns)
             else mret acc) s1 = (inr acc', s2) →
            acc' = acc ++ listed fs cwd mdir sub) as Hsub.
  { intros sub acc acc' s1 s2. unfold listed, Fs.isdir.
    destruct (Fs.lookup fs cwd (Posix.join mdir [sub])) as [n|] eqn:Hl;
      [|intros [= <- <-]; by rewrite app_nil_r].
    destruct (Fs.is_dir n) eqn:Hdir.
    2:{ intros [= <- <-]. destruct n; try done; by rewrite app_nil_r. }
    unfold mbind, M_bind, mret, M_ret.
    destruct (os_listdir _ _ _ _ s1) as [[a|fns] s3] eqn:Hls; [done|].
    apply os_listdir_inr in Hls as (es' & Hl' & ->). intros [= <- <-].
    rewrite Hl in Hl'. by simplify_eq. }
  unfold collect_entries. cbn [for_each].
  intros (e1 & s1 & H1 & (e2 & s2 & H2 & H3)%bind_inr)%bind_inr.
  apply Hsub in H1 as ->. apply Hsub in H2 as ->.
  unfold mret, M_ret in H3. by simplify_eq.
Qed.

End Keys.

(** C5.  The entries of a folder are the names listed under [cur] followed by
    those listed under [new], collected once.  The keys to process are the
    keys of the mailbox layer that are among these entries; when there is
    none, all the keys of the mailbox layer (asked again) are taken instead.
    Either way the list is sorted, by code point as [list.sort] orders
    strings, and the sorted list depends only on which keys it holds, not on
    the order they were reported in. *)
Theorem folder_keys_spec {W Msg} (E : @Env W Msg) fs cwd mdir s0 entries s s1 ks s2 :
  collect_entries E fs cwd mdir s0 = (inr entries, s) →
  Maildir E mdir s = (inr (), s1) →
  md_keys E mdir s1 = (inr ks, s2) →
  entries = listed fs cwd mdir "cur" ++ listed fs cwd mdir "new"
  ∧ (filter (λ k, k ∈ entries) ks ≠ [] →
       ∃ keys, folder_keys E mdir entries s = (inr keys, s2)
               ∧ keys ≡ₚ filter (λ k, k ∈ entries) ks
               ∧ StronglySorted Str.le keys)
  ∧ (filter (λ k, k ∈ entries) ks = [] →
       ∀ all s3, md_keys E mdir s2 = (inr all, s3) →
       ∃ keys, folder_keys E mdir entries s = (inr keys, s3)
               ∧ keys ≡ₚ all
               ∧ StronglySorted Str.le keys)
  ∧ (∀ l1 l2 : list string,
       l1 ≡ₚ l2 → merge_sort Str.le l1 = merge_sort Str.le l2).
Proof.
  intros Hentries Hmd Hks. split_and!.
  - by eapply collect_entries_inr.
  - intros Hne. eexists. unfold folder_keys, mbind, M_bind, mret, M_ret.
    rewrite Hmd, Hks, decide_False by done.
    split_and!; [done|apply merge_sort_Permutation|].
    apply StronglySorted_merge_sort; apply _.
  - intros Hnil all s3 Hall. eexists. unfold folder_keys, mbind, M_bind, mret, M_ret.
    rewrite Hmd, Hks, decide_True, Hall by done.
    split_and!; [done|apply merge_sort_Permutation|].
    apply StronglySorted_merge_sort; apply _.
  - apply merge_sort_perm.
Qed.

(** C7.  When the loop over the keys of a folder completes, the counters
    satisfy [count = ok + raw + skip] and [count] is the number of keys; every
    key adds one to [count] and to exactly one of [ok], [raw] and [skip]; and
    the loop does complete when the terminal does not fail. *)
Theorem folder_counters {W Msg} (E : @Env W Msg) per_message_verbose tick out_path
    mdir keys total s c s' :
  for_each keys (convert_message E per_message_verbose tick out_path mdir)
    {| count := 0; ok := 0; raw := 0; skip := 0; msg_total := total |} s
  = (inr c, s') →
  count c = ok c + raw c + skip c
  ∧ count c = length keys
  ∧ msg_total c = total + length keys
  ∧ (∀ c0 key s0 c1 s1,
       convert_message E per_message_verbose tick out_path mdir c0 key s0 = (inr c1, s1) →
       count c1 = count c0 + 1
       ∧ ((ok c1 = ok c0 + 1 ∧ raw c1 = raw c0 ∧ skip c1 = skip c0)
          ∨ (ok c1 = ok c0 ∧ raw c1 = raw c0 + 1 ∧ skip c1 = skip c0)
          ∨ (ok c1 = ok c0 ∧ raw c1 = raw c0 ∧ skip c1 = skip c0 + 1)))
  ∧ (benign E → ∀ c0 s0, ∃ c1 s1,
       for_each keys (convert_message E per_message_verbose tick out_path mdir) c0 s0
       = (inr c1, s1)).
Proof.
  intros (H1 & H2 & H3)%for_each_counters. simpl in *. split_and!; [lia..| |].
  - intros c0 key s0 c1 s1 (o & ? & ? & _ & -> & _)%convert_message_inr.
    by destruct (tally_spec c0 o) as (-> & _ & Hcase).
  - intros HE c0 s0.
    destruct (runs_for_each 0 keys
                (convert_message E per_message_verbose tick out_path mdir) c0
                (λ a x _, runs_convert_message E _ _ _ _ a x HE) s0)
      as (c1 & s1 & Hrun & _).
    eauto.
Qed.

(** * The installation at work *)

(** C1.  One mailbox with one message, an archive that refuses every append:
    the message is skipped, the archive stays empty, the run reports one
    message and the exit status is 0, not 2. *)
Theorem main_all_skipped_exit_status :
  let run := main (Demo.env Demo.inbox false) Demo.inbox "/"
               (Demo.start ["/srv/mail"; "/out"; ""]) in
  exit_status run.1 = 0
  ∧ files run.2 = {["/out/Inbox.mbox" := []]}
  ∧ printed (trace run.2)
    = [Banner; Starting; Found 1; Converting "/srv/mail" "/out/Inbox.mbox";
       Done 1 0 0 1; AllDone 1 "/out"].
Proof. split_and!; by vm_compute. Qed.

(** C4, as stated, fails: for a missing root and for a root that is a file
    the locator returns the empty list, and [convert_maildir] on such a root
    returns 0 without raising. *)
Lemma find_maildirs_missing_root :
  Fs.isdir Demo.tree "/" "/nowhere" = false
  ∧ find_maildirs Demo.tree "/" "/nowhere" = []
  ∧ Fs.isdir Demo.tree "/" "/etc/passwd" = false
  ∧ find_maildirs Demo.tree "/" "/etc/passwd" = []
  ∧ (convert_maildir (Demo.env Demo.tree true) Demo.tree "/" "/nowhere" "/out" false 200
       (Demo.start [])).1 = inr 0.
Proof. by vm_compute. Qed.

Lemma find_maildirs_not_dir_witness :
  Fs.isdir Demo.tree "/" "/etc/passwd" = false
  ∧ find_maildirs Demo.tree "/" "/etc/passwd" = [].
Proof.
  split; [reflexivity|].
  exact (find_maildirs_not_dir Demo.tree "/" "/etc/passwd" eq_refl).
Defined.

(** C10.  The name mapper is not injective: [.Sent] and [Sent], and [a/b]
    and [a_b], are different folders with one file name.  When [.Sent] and
    [Sent] are both mailboxes, the messages of both end in [Sent.mbox]. *)
Theorem mbox_filename_not_injective :
  Posix.join "/srv/mail" [".Sent"] ≠ Posix.join "/srv/mail" ["Sent"]
  ∧ mbox_filename "/" "/srv/mail" (Posix.join "/srv/mail" [".Sent"]) = inr "Sent.mbox"
  ∧ mbox_filename "/" "/srv/mail" (Posix.join "/srv/mail" ["Sent"]) = inr "Sent.mbox"
  ∧ Posix.join "/srv/mail" ["a"; "b"] ≠ Posix.join "/srv/mail" ["a_b"]
  ∧ mbox_filename "/" "/srv/mail" (Posix.join "/srv/mail" ["a"; "b"]) = inr "a_b.mbox"
  ∧ mbox_filename "/" "/srv/mail" (Posix.join "/srv/mail" ["a_b"]) = inr "a_b.mbox"
  ∧ find_maildirs Demo.tree "/" "/srv/mail"
    = ["/srv/mail"; "/srv/mail/.Sent"; "/srv/mail/Sent"]
  ∧ let run := convert_maildir (Demo.env Demo.tree true) Demo.tree "/" "/srv/mail" "/out"
                 false 200 (Demo.start []) in
    run.1 = inr 3
    ∧ files run.2 !! "/out/Sent.mbox"
      = Some [Parsed "/srv/mail/.Sent:m2"; Parsed "/srv/mail/Sent:m3"]
    ∧ files run.2 !! "/out/Inbox.mbox" = Some [Parsed "/srv/mail:m1"].
Proof. split_and!; by vm_compute. Qed.



Lemma folder_keys_spec_witness :
  let s := Demo.start [] in
  collect_entries (Demo.env Demo.tree true) Demo.tree "/" "/srv/mail" s = (inr ["m1"], s)
  ∧ ∃ keys, folder_keys (Demo.env Demo.tree true) "/srv/mail" ["m1"] s = (inr keys, s)
            ∧ keys ≡ₚ ["m1"].
Proof.
  intros s. split; [reflexivity|].
  destruct (folder_keys_spec (Demo.env Demo.tree true) Demo.tree "/" "/srv/mail"
              s ["m1"] s s ["m1"] s eq_refl eq_refl eq_refl)
    as (_ & Hkeys & _).
  destruct (Hkeys ltac:(done)) as (keys & Hrun & Hperm & _).
  by exists keys.
Defined.

Lemma folder_counters_witness :
  let run := for_each ["m1"; "m2"]
               (convert_message (Demo.env Demo.tree true) false 200 "/out/Inbox.mbox"
                  "/srv/mail")
               {| count := 0; ok := 0; raw := 0; skip := 0; msg_total := 0 |}
               (Demo.start []) in
  ∃ c, run = (inr c, run.2) ∧ count c = ok c + raw c + skip c ∧ count c = 2.
Proof.
  intros run.
  exists {| count := 2; ok := 2; raw := 0; skip := 0; msg_total := 2 |}.
  assert (run = (inr {| count := 2; ok := 2; raw := 0; skip := 0; msg_total := 2 |},
                 run.2)) as Hrun by (vm_compute; reflexivity).
  destruct (folder_counters _ _ _ _ _ _ _ _ _ _ Hrun) as (H1 & H2 & _).
  by split.
Defined.

Lemma add_with_fallback_tiers_witness :
  let E := Demo.env_with Demo.tree
             {| Demo.parse_fails := true; Demo.read_fails := true;
                Demo.add_fails := λ _, false; Demo.sync_fails := false |} in
  let s := Demo.start [] in
  add_with_fallback E "/out/Inbox.mbox" "/srv/mail" "m1" s
  = (inr "RAW", (tier_placeholder E "/out/Inbox.mbox" s).2)
  ∧ files (tier_placeholder E "/out/Inbox.mbox" s).2
    = appended "/out/Inbox.mbox" (RawBytes placeholder) (files s).
Proof.
  intros E s.
  destruct (add_with_fallback_tiers E "/out/Inbox.mbox" "/srv/mail" "m1" s)
    as (_ & _ & _ & Hplaceholder & _).
  exact (Hplaceholder (Raised (OtherError "MessageParseError")) s
           (Raised (OtherError "FileNotFoundError")) s
           (tier_placeholder E "/out/Inbox.mbox" s).2 eq_refl eq_refl eq_refl).
Defined.

(** * More of the installation *)

(** The four ways one message can go. *)
Example add_with_fallback_outcomes :
  let run f := add_with_fallback (Demo.env_with Demo.tree f) "/out/Inbox.mbox"
                 "/srv/mail" "m1" (Demo.start []) in
  let written f := files (run f).2 !! "/out/Inbox.mbox" in
  let faults p r a :=
    {| Demo.parse_fails := p; Demo.read_fails := r; Demo.add_fails := a;
       Demo.sync_fails := false |} in
  (run (faults false false (λ _, false))).1 = inr "OK"
  ∧ written (faults false false (λ _, false)) = Some [Parsed "/srv/mail:m1"]
  ∧ (run (faults true false (λ _, false))).1 = inr "RAW"
  ∧ written (faults true false (λ _, false)) = Some [RawBytes "m1"]
  ∧ (run (faults false false (λ r, match r with Parsed _ => true | _ => false end))).1
    = inr "RAW"
  ∧ (run (faults true true (λ _, false))).1 = inr "RAW"
  ∧ written (faults true true (λ _, false)) = Some [RawBytes placeholder]
  ∧ (run (faults true true (λ _, true))).1 = inr "SKIP"
  ∧ written (faults true true (λ _, true)) = None.
Proof. split_and!; by vm_compute. Qed.

(** A message that can neither be parsed nor read is counted as [RAW]. *)
Example unreadable_message_summary :
  let E := Demo.env_with Demo.inbox
             {| Demo.parse_fails := true; Demo.read_fails := true;
                Demo.add_fails := λ _, false; Demo.sync_fails := false |} in
  let run := main E Demo.inbox "/" (Demo.start ["/srv/mail"; "/out"; ""]) in
  exit_status run.1 = 0
  ∧ files run.2 !! "/out/Inbox.mbox" = Some [RawBytes placeholder]
  ∧ printed (trace run.2)
    = [Banner; Starting; Found 1; Converting "/srv/mail" "/out/Inbox.mbox";
       Done 1 0 1 0; AllDone 1 "/out"].
Proof. split_and!; by vm_compute. Qed.

(** The exits of [main] before any conversion, and the empty tree. *)
Example main_exit_statuses :
  let status fs stdin :=
    exit_status (main (Demo.env fs true) fs "/" (Demo.start stdin)).1 in
  status Demo.tree ["   "] = 1
  ∧ status Demo.tree ["/nowhere"] = 1
  ∧ status Demo.tree ["/etc/passwd"] = 1
  ∧ status Demo.tree ["/srv/mail"; ""] = 1
  ∧ status Demo.tree ["/srv/mail/notes"; "/out"; ""] = 2
  ∧ status Demo.tree ["/srv/mail"; "/out"; "1"] = 0
  ∧ status Demo.tree [] = 1.
Proof. split_and!; by vm_compute. Qed.

(** Two hundred messages: the last thing done is a flush. *)
Example flush_after_200_messages :
  let run := for_each (replicate 200 "m1")
               (convert_message (Demo.env Demo.tree true) false 200 "/out/Inbox.mbox"
                  "/srv/mail")
               {| count := 0; ok := 0; raw := 0; skip := 0; msg_total := 0 |}
               (Demo.start []) in
  run.1 = inr {| count := 200; ok := 200; raw := 0; skip := 0; msg_total := 200 |}
  ∧ last (trace run.2) = Some (EvFlush "/out/Inbox.mbox")
  ∧ last (printed (trace run.2)) = Some (Periodic 200 200 0 0).
Proof. split_and!; by vm_compute. Qed.

(** * What a run touches *)

Section Confinement.

Context {W Msg : Type} (E : @Env W Msg).
Implicit Types s : @state W Msg.

Lemma confined_mono {A} (Q Q' : @event Msg → Prop) (T T' : string → Prop)
    (m : @M W Msg A) :
  (∀ ev, Q ev → Q' ev) → (∀ p, T p → T' p) → confined Q T m → confined Q' T' m.
Proof.
  intros HQ HT Hm s. destruct (Hm s) as ((evs & Ht & Hevs) & Hp & Hu & Hx).
  split_and!; [|done| |done].
  - exists evs. split; [done|]. by eapply Forall_impl.
  - intros p Hnot. apply Hu. intros ?. by apply Hnot, HT.
Qed.

Lemma confined_ret {A} (Q : @event Msg → Prop) T (x : A) :
  confined Q T (mret x : @M W Msg A).
Proof.
  intros s. unfold mret, M_ret. simpl.
  split_and!; [by exists []; rewrite app_nil_r|by auto..].
Qed.

Lemma confined_bind {A B} (Q : @event Msg → Prop) T (m : @M W Msg A)
    (f : A → @M W Msg B) :
  confined Q T m → (∀ x, confined Q T (f x)) → confined Q T (m ≫= f).
Proof.
  intros Hm Hf s. unfold mbind, M_bind.
  destruct (Hm s) as ((evs & Ht & Hevs) & Hp & Hu & Hx).
  destruct (m s) as [[a|x] s1]; simpl in *.
  { split_and!; [by exists evs|by auto..|]. intros c [= ->]. by destruct (Hx c). }
  destruct (Hf x s1) as ((evs2 & Ht2 & Hevs2) & Hp2 & Hu2 & Hx2).
  split_and!; [| | |by auto].
  - exists (evs ++ evs2). rewrite Ht2, Ht, <-app_assoc. split; [done|].
    by apply Forall_app.
  - intros p. etrans; [apply Hp|apply Hp2].
  - intros p Hn. by rewrite Hu2, Hu.
Qed.

Lemma confined_lift_bind {A B} (Q : @event Msg → Prop) T (r : result A)
    (f : A → @M W Msg B) :
  (∀ x, r = inr x → confined Q T (f x)) → confined Q T (lift r ≫= f).
Proof.
  intros Hf s. unfold mbind, M_bind, lift. destruct r as [e|x]; simpl.
  - split_and!; [by exists []; rewrite app_nil_r|by auto..].
  - by apply Hf.
Qed.

Lemma confined_ask {A} (Q : @event Msg → Prop) T (o : W → result A * W) :
  confined Q T (ask o : @M W Msg A).
Proof.
  intros s. unfold ask. destruct (o (hid s)) as [[e|x] w]; simpl;
    (split_and!; [by exists []; rewrite app_nil_r|by auto..]).
Qed.

Lemma confined_call (Q : @event Msg → Prop) T (o : W → option exn * W) :
  confined Q T (call o : @M W Msg ()).
Proof.
  intros s. unfold call. destruct (o (hid s)) as [[e|] w]; simpl;
    (split_and!; [by exists []; rewrite app_nil_r|by auto..]).
Qed.

Lemma confined_act (Q : @event Msg → Prop) T (o : W → option exn * W) ev :
  Q ev → confined Q T (act o ev : @M W Msg ()).
Proof.
  intros Hev s. unfold act. destruct (o (hid s)) as [[e|] w]; simpl;
    (split_and!; [by exists [ev]; split; [|repeat constructor]|by auto..]).
Qed.

Lemma confined_print (Q : @event Msg → Prop) T l :
  Q (EvPrint l) → confined Q T (print E l).
Proof. apply confined_act. Qed.

Lemma lookup_total_alter_prefix (fl : gmap string (list (@record Msg))) out rs p :
  fl !!! p `prefix_of` <[out := fl !!! out ++ rs]> fl !!! p.
Proof.
  destruct (decide (out = p)) as [->|Hne].
  - rewrite lookup_total_insert_eq. by apply prefix_app_r.
  - by rewrite lookup_total_insert_ne.
Qed.

Lemma confined_mbox (Q : @event Msg → Prop) (T : string → Prop) out :
  Q (EvOpen out) → T out → confined Q T (mbox E out).
Proof.
  intros Hev HT s. unfold mbox. destruct (env_mbox E out (hid s)) as [[e|] w]; simpl.
  { split_and!; [by exists [EvOpen out]; split; [|repeat constructor]|by auto..]. }
  split_and!; [by exists [EvOpen out]; split; [|repeat constructor]| | |by auto].
  - intros p. pose proof (lookup_total_alter_prefix (files s) out [] p) as Hp.
    by rewrite app_nil_r in Hp.
  - intros p Hp. rewrite lookup_insert_ne; [done|]. by intros ->.
Qed.

Lemma confined_mbox_add (Q : @event Msg → Prop) (T : string → Prop) out r :
  (∀ b, Q (EvAdd out r b)) → T out → confined Q T (mbox_add E out r).
Proof.
  intros Hev HT s. unfold mbox_add. destruct (env_add E out r (hid s)) as [[e|] w]; simpl.
  { split_and!; [by exists [EvAdd out r false]; split; [|repeat constructor]|by auto..]. }
  split_and!; [by exists [EvAdd out r true]; split; [|repeat constructor]| | |by auto].
  - intros p. apply lookup_total_alter_prefix.
  - intros p Hp. rewrite lookup_insert_ne; [done|]. by intros ->.
Qed.

Lemma confined_try_except {A} (Q : @event Msg → Prop) T (m : @M W Msg A)
    (h : exn → @M W Msg A) :
  confined Q T m → (∀ e, confined Q T (h e)) → confined Q T (try_except m h).
Proof.
  intros Hm Hh s. unfold try_except.
  destruct (Hm s) as ((evs & Ht & Hevs) & Hp & Hu & Hx).
  destruct (m s) as [[[e|c]|x] s1]; simpl in *.
  - destruct (Hh e s1) as ((evs2 & Ht2 & Hevs2) & Hp2 & Hu2 & Hx2).
    split_and!; [| | |by auto].
    + exists (evs ++ evs2). rewrite Ht2, Ht, <-app_assoc. split; [done|].
      by apply Forall_app.
    + intros p. etrans; [apply Hp|apply Hp2].
    + intros p Hn. by rewrite Hu2, Hu.
  - by destruct (Hx c).
  - split_and!; [by exists evs|by auto..].
Qed.

Lemma confined_try_finally {A} (Q : @event Msg → Prop) T (m : @M W Msg A)
    (f : @M W Msg ()) :
  confined Q T m → confined Q T f → confined Q T (try_finally m f).
Proof.
  intros Hm Hf s. unfold try_finally.
  destruct (Hm s) as ((evs & Ht & Hevs) & Hp & Hu & Hx).
  destruct (m s) as [r s1]; simpl in *.
  destruct (Hf s1) as ((evs2 & Ht2 & Hevs2) & Hp2 & Hu2 & Hx2).
  destruct (f s1) as [[a|[]] s2]; simpl in *.
  - split_and!; [| | |intros c [= ->]; by destruct (Hx2 c)].
    + exists (evs ++ evs2). rewrite Ht2, Ht, <-app_assoc. split; [done|].
      by apply Forall_app.
    + intros p. etrans; [apply Hp|apply Hp2].
    + intros p Hn. by rewrite Hu2, Hu.
  - split_and!; [| | |by auto].
    + exists (evs ++ evs2). rewrite Ht2, Ht, <-app_assoc. split; [done|].
      by apply Forall_app.
    + intros p. etrans; [apply Hp|apply Hp2].
    + intros p Hn. by rewrite Hu2, Hu.
Qed.

Lemma confined_for_each {A St} (Q : @event Msg → Prop) T (l : list A)
    (body : St → A → @M W Msg St) acc :
  (∀ a x, x ∈ l → confined Q T (body a x)) → confined Q T (for_each l body acc).
Proof.
  revert acc. induction l as [|x l IH]; intros acc Hbody; simpl.
  - apply confined_ret.
  - apply confined_bind; [apply Hbody; by left|].
    intros a. apply IH. intros ???. apply Hbody. by right.
Qed.

Lemma confined_lift {A} (Q : @event Msg → Prop) T (r : result A) :
  confined Q T (lift r : @M W Msg A).
Proof.
  intros s. unfold lift.
  destruct r; simpl; (split_and!; [by exists []; rewrite app_nil_r|by auto..]).
Qed.

End Confinement.

(** * One message at a time *)

Section Steps.

Context {W Msg : Type} (E : @Env W Msg).
Implicit Types s : @state W Msg.

Lemma printed_app (t1 t2 : list (@event Msg)) :
  printed (t1 ++ t2) = printed t1 ++ printed t2.
Proof. apply omap_app. Qed.

Lemma flushes_app (t1 t2 : list (@event Msg)) :
  flushes (t1 ++ t2) = flushes t1 + flushes t2.
Proof. unfold flushes. by rewrite filter_app, length_app. Qed.

Lemma added_app out (t1 t2 : list (@event Msg)) :
  added out (t1 ++ t2) = added out t1 ++ added out t2.
Proof. apply omap_app. Qed.

Lemma added_prints out (ls : list line) : added out (@EvPrint Msg <$> ls) = [].
Proof. by induction ls. Qed.

Lemma added_one out (r : @record Msg) : added out [EvAdd out r true] = [r].
Proof. unfold added. simpl. by rewrite decide_True. Qed.

Lemma printed_prints (ls : list line) : printed (@EvPrint Msg <$> ls) = ls.
Proof. induction ls as [|l ls IH]; [done|]. unfold printed in *. simpl. f_equal. apply IH. Qed.

Lemma flushes_prints (ls : list line) : flushes (@EvPrint Msg <$> ls) = 0.
Proof. by induction ls. Qed.

Lemma adds_quiet out (evs : list (@event Msg)) :
  Forall (adds_to out) evs →
  printed evs = [] ∧ flushes evs = 0 ∧ Forall (step_event out) evs.
Proof.
  induction 1 as [|ev evs Hev _ (IH1 & IH2 & IH3)]; [done|].
  destruct ev; try done. simpl in Hev. split_and!; [done..|]. by constructor.
Qed.

Lemma act_inr (o : W → option exn * W) (ev : @event Msg) s x s' :
  act o ev s = (inr x, s') → files s' = files s ∧ trace s' = trace s ++ [ev].
Proof. unfold act. destruct (o (hid s)) as [[e|] w]; [done|]. by intros [= _ <-]. Qed.

(** One attempt of [add_with_fallback]. *)
Lemma tier_parsed_step out md key s :
  (∃ m s', tier_parsed E out md key s = (inr (), s')
           ∧ record_for E md key (Parsed m)
           ∧ files s' = appended out (Parsed m) (files s)
           ∧ trace s' = trace s ++ [EvAdd out (Parsed m) true])
  ∨ (∃ e s' evs, tier_parsed E out md key s = (inl (Raised e), s')
                 ∧ files s' = files s
                 ∧ trace s' = trace s ++ evs ∧ Forall (adds_to out) evs
                 ∧ added out evs = []).
Proof.
  unfold tier_parsed, md_get_message, mbind, M_bind.
  destruct (ask_cases (env_get_message E md key) s)
    as [(m & s1 & -> & Hf1 & Ht1 & Hm)|(e & s1 & -> & Hf1 & Ht1)].
  - destruct (mbox_add_cases E out (Parsed m) s1)
      as [(s2 & -> & Hf2 & Ht2)|(e & s2 & -> & Hf2 & Ht2)].
    + left. exists m, s2. rewrite Hf2, Ht2, Hf1, Ht1. split_and!; [done| |done..].
      left. eauto.
    + right. exists e, s2, [EvAdd out (Parsed m) false].
      rewrite Hf2, Ht2, Hf1, Ht1. split_and!; [done..| |done]. by repeat constructor.
  - right. exists e, s1, []. rewrite app_nil_r. by split_and!.
Qed.

Lemma tier_raw_step out md key s :
  (∃ raw s', tier_raw E out md key s = (inr (), s')
             ∧ record_for E md key (RawBytes raw)
             ∧ files s' = appended out (RawBytes raw) (files s)
             ∧ trace s' = trace s ++ [EvAdd out (RawBytes raw) true])
  ∨ (∃ e s' evs, tier_raw E out md key s = (inl (Raised e), s')
                 ∧ files s' = files s
                 ∧ trace s' = trace s ++ evs ∧ Forall (adds_to out) evs
                 ∧ added out evs = []).
Proof.
  unfold tier_raw, md_read, mbind, M_bind.
  destruct (ask_cases (env_read E md key) s)
    as [(m & s1 & -> & Hf1 & Ht1 & Hm)|(e & s1 & -> & Hf1 & Ht1)].
  - destruct (mbox_add_cases E out (RawBytes m) s1)
      as [(s2 & -> & Hf2 & Ht2)|(e & s2 & -> & Hf2 & Ht2)].
    + left. exists m, s2. rewrite Hf2, Ht2, Hf1, Ht1. split_and!; [done| |done..].
      right. left. eauto.
    + right. exists e, s2, [EvAdd out (RawBytes m) false].
      rewrite Hf2, Ht2, Hf1, Ht1. split_and!; [done..| |done]. by repeat constructor.
  - right. exists e, s1, []. rewrite app_nil_r. by split_and!.
Qed.

Lemma appended_lookup out (r : @record Msg) fl :
  appended out r fl !!! out = fl !!! out ++ [r].
Proof. unfold appended. by rewrite lookup_total_insert_eq. Qed.

(** The transfer of one message: its outcome, what it appends and what it
    records. *)
Lemma add_with_fallback_step out md key s :
  ∃ o s' rs evs,
    add_with_fallback E out md key s = (inr o, s')
    ∧ transferred E md key o rs
    ∧ files s' !!! out = files s !!! out ++ rs
    ∧ trace s' = trace s ++ evs
    ∧ Forall (adds_to out) evs
    ∧ added out evs = rs.
Proof.
  rewrite add_with_fallback_unfold. unfold tier_placeholder.
  destruct (tier_parsed_step out md key s)
    as [(m & s1 & -> & Hr1 & Hf1 & Ht1)
       |(e1 & s1 & evs1 & -> & Hf1 & Ht1 & He1 & Ha1)].
  { exists "OK", s1, [Parsed m], [EvAdd out (Parsed m) true].
    rewrite Hf1, appended_lookup, added_one.
    split_and!; [done| |done..|by repeat constructor|done].
    left. split; [done|]. by exists (Parsed m). }
  destruct (tier_raw_step out md key s1)
    as [(raw & s2 & -> & Hr2 & Hf2 & Ht2)
       |(e2 & s2 & evs2 & -> & Hf2 & Ht2 & He2 & Ha2)].
  { exists "RAW", s2, [RawBytes raw], (evs1 ++ [EvAdd out (RawBytes raw) true]).
    rewrite Hf2, appended_lookup, Hf1, Ht2, Ht1, <-app_assoc, added_app, Ha1, added_one.
    split_and!; [done| |done..| |done].
    - right. left. split; [done|]. by exists (RawBytes raw).
    - apply Forall_app. split; [done|]. by repeat constructor. }
  destruct (mbox_add_cases E out (RawBytes placeholder) s2)
    as [(s3 & -> & Hf3 & Ht3)|(e3 & s3 & -> & Hf3 & Ht3)].
  - exists "RAW", s3, [RawBytes placeholder],
      (evs1 ++ evs2 ++ [EvAdd out (RawBytes placeholder) true]).
    rewrite Hf3, appended_lookup, Hf2, Hf1, Ht3, Ht2, Ht1, <-!app_assoc, !added_app,
      Ha1, Ha2, added_one.
    split_and!; [done| |done..| |done].
    + right. left. split; [done|]. exists (RawBytes placeholder).
      split_and!; [done..|]. by right; right.
    + rewrite !Forall_app. split_and!; [done..|]. by repeat constructor.
  - exists "SKIP", s3, [],
      (evs1 ++ evs2 ++ [EvAdd out (RawBytes placeholder) false]).
    rewrite Hf3, Hf2, Hf1, Ht3, Ht2, Ht1, <-!app_assoc, app_nil_r, !added_app, Ha1, Ha2.
    split_and!; [done| |done..| |done].
    + by right; right.
    + rewrite !Forall_app. split_and!; [done..|]. by repeat constructor.
Qed.

Lemma report_inr v t c o key s s' :
  report E v t c o key s = (inr (), s') →
  files s' = files s ∧ trace s' = trace s ++ (EvPrint <$> progress v t c o key).
Proof.
  unfold report, progress. destruct v; [apply act_inr|].
  destruct (_ && _); [apply act_inr|].
  unfold mret, M_ret. intros [= <-]. by rewrite app_nil_r.
Qed.

Lemma progress_step_event out v t c o key :
  Forall (step_event out) (@EvPrint Msg <$> progress v t c o key).
Proof.
  unfold progress. destruct v; [by repeat constructor|].
  destruct (_ && _); by repeat constructor.
Qed.

(** One round of the loop over the keys. *)
Lemma convert_message_step v t out md c key s c' s' :
  convert_message E v t out md c key s = (inr c', s') →
  ∃ o rs evs,
    c' = tally c o
    ∧ transferred E md key o rs
    ∧ files s' !!! out = files s !!! out ++ rs
    ∧ trace s' = trace s ++ evs
    ∧ Forall (step_event out) evs
    ∧ printed evs = progress v t c' o key
    ∧ flushes evs = (if decide (count c' `mod` 200 = 0) then 1 else 0)
    ∧ added out evs = rs.
Proof.
  intros (o & s1 & s2 & Hadd & -> & Hrep & Hfl)%convert_message_inr.
  destruct (add_with_fallback_step out md key s)
    as (o' & s1' & rs & evs & Hadd' & Hrs & Hf1 & Ht1 & Hevs & Ha).
  rewrite Hadd in Hadd'. injection Hadd' as <- <-.
  apply report_inr in Hrep as (Hf2 & Ht2).
  destruct (periodic_flush_run E out (tally c o) s2) as (s3 & Hfl' & Hf3 & Ht3).
  rewrite Hfl in Hfl'. injection Hfl' as <-.
  destruct (adds_quiet out evs Hevs) as (Hp & Hfs & Hstep).
  exists o, rs,
    (evs ++ (EvPrint <$> progress v t (tally c o) o key)
         ++ (if decide (count (tally c o) `mod` 200 = 0) then [EvFlush out] else [])).
  rewrite Hf3, Hf2, Ht3, Ht2, Ht1, <-!app_assoc. split_and!; [done..| | | |].
  - rewrite !Forall_app. split_and!; [done|apply progress_step_event|].
    case_decide; by repeat constructor.
  - rewrite !printed_app, Hp, printed_prints. case_decide; simpl; by rewrite app_nil_r.
  - rewrite !flushes_app, Hfs, flushes_prints. by case_decide.
  - rewrite !added_app, Ha, added_prints. case_decide; simpl; by rewrite app_nil_r.
Qed.

End Steps.

(** * The loop over the keys of a folder *)

Section LoopFacts.

Context {W Msg : Type} (E : @Env W Msg).
Implicit Types s : @state W Msg.

Lemma div_succ n t :
  t ≠ 0 → (n + 1) `div` t = n `div` t + (if decide ((n + 1) `mod` t = 0) then 1 else 0).
Proof.
  intros Ht.
  pose proof (Nat.div_mod_eq n t) as Hn. pose proof (Nat.mod_upper_bound n t Ht) as Hr.
  pose proof (Nat.div_mod_eq (n + 1) t) as Hn'.
  pose proof (Nat.mod_upper_bound (n + 1) t Ht) as Hr'.
  case_decide; nia.
Qed.

Lemma tally_outcome c o :
  (o = "OK" → ok (tally c o) = ok c + 1 ∧ raw (tally c o) = raw c
              ∧ skip (tally c o) = skip c)
  ∧ (o = "RAW" → ok (tally c o) = ok c ∧ raw (tally c o) = raw c + 1
                 ∧ skip (tally c o) = skip c)
  ∧ (o = "SKIP" → ok (tally c o) = ok c ∧ raw (tally c o) = raw c
                  ∧ skip (tally c o) = skip c + 1).
Proof. split_and!; by intros ->. Qed.

Lemma sublist_same_length {A} (l k : list A) :
  l `sublist_of` k → length k ≤ length l → l = k.
Proof.
  induction 1 as [|x l k Hsub IH|x l k Hsub IH]; simpl; intros Hlen; [done| |].
  - f_equal. apply IH. lia.
  - apply sublist_length in Hsub. lia.
Qed.

(** What the loop leaves in the archive. *)
Lemma loop_records_inv v t out md keys c0 s c s' :
  for_each keys (convert_message E v t out md) c0 s = (inr c, s') →
  ∃ rs ks,
    files s' !!! out = files s !!! out ++ rs
    ∧ length (filter (λ r, is_parsed r) rs) + ok c0 = ok c
    ∧ length rs + ok c0 + raw c0 = ok c + raw c
    ∧ length ks + skip c = length keys + skip c0
    ∧ ks `sublist_of` keys
    ∧ Forall2 (record_for E md) ks rs.
Proof.
  apply (for_each_inv
           (λ seen c s', ∃ rs ks,
               files s' !!! out = files s !!! out ++ rs
               ∧ length (filter (λ r, is_parsed r) rs) + ok c0 = ok c
               ∧ length rs + ok c0 + raw c0 = ok c + raw c
               ∧ length ks + skip c = length seen + skip c0
               ∧ ks `sublist_of` seen
               ∧ Forall2 (record_for E md) ks rs)).
  - intros seen x a1 s1 a2 s2 (rs & ks & Hf & Hok & Hlen & Hskip & Hsub & Hrec)
      (o & rs' & evs & -> & Htr & Hf' & _)%convert_message_step.
    destruct (tally_outcome a1 o) as (HOK & HRAW & HSKIP).
    destruct Htr as [(Ho & r & -> & Hp & Hr)|[(Ho & r & -> & Hp & Hr)|(Ho & ->)]].
    + destruct (HOK Ho) as (-> & -> & ->). exists (rs ++ [r]), (ks ++ [x]).
      rewrite Hf', Hf, <-app_assoc, filter_app, !length_app.
      rewrite filter_cons_True by (by rewrite Hp). simpl.
      split_and!; [done|lia|lia|lia|by apply sublist_app|].
      apply Forall2_app; [done|]. constructor; [done|constructor].
    + destruct (HRAW Ho) as (-> & -> & ->). exists (rs ++ [r]), (ks ++ [x]).
      rewrite Hf', Hf, <-app_assoc, filter_app, !length_app.
      rewrite filter_cons_False by (rewrite Hp; by intros []). simpl.
      split_and!; [done|lia|lia|lia|by apply sublist_app|].
      apply Forall2_app; [done|]. constructor; [done|constructor].
    + destruct (HSKIP Ho) as (-> & -> & ->). exists rs, ks.
      rewrite Hf', Hf, <-app_assoc, app_nil_r, length_app. simpl.
      split_and!; [done|done|done|lia|by apply sublist_inserts_r|done].
  - exists [], []. rewrite app_nil_r. by split_and!.
Qed.

(** The records the loop leaves in the archive are those of the [add] calls
    that returned. *)
Lemma loop_added_inv v t out md keys c0 s c s' :
  for_each keys (convert_message E v t out md) c0 s = (inr c, s') →
  ∃ body,
    trace s' = trace s ++ body
    ∧ files s' !!! out = files s !!! out ++ added out body.
Proof.
  apply (for_each_inv
           (λ (seen : list string) (c : counters) s', ∃ body,
               trace s' = trace s ++ body
               ∧ files s' !!! out = files s !!! out ++ added out body)).
  - intros seen x a1 s1 a2 s2 (body & Ht & Hf)
      (o & rs & evs & _ & _ & Hf' & Ht' & _ & _ & _ & Ha)%convert_message_step.
    exists (body ++ evs). by rewrite Ht', Ht, Hf', Hf, added_app, Ha, <-!app_assoc.
  - exists []. by rewrite !app_nil_r.
Qed.

(** What the loop records: only calls on the archive and progress lines, one
    flush for every 200 messages, and the progress lines of the chosen mode. *)
Lemma loop_trace_inv v t out md keys c0 s c s' :
  count c0 = 0 → ok c0 + raw c0 + skip c0 = 0 →
  for_each keys (convert_message E v t out md) c0 s = (inr c, s') →
  ∃ body,
    trace s' = trace s ++ body
    ∧ Forall (step_event out) body
    ∧ flushes body = length keys `div` 200
    ∧ (v = true →
         ∃ os, length os = length keys
               ∧ printed body = imap (λ i p, PerMessage (S i) p.1 p.2) (zip os keys))
    ∧ (v = false →
         length (printed body) = (if decide (t = 0) then 0 else length keys `div` t)
         ∧ Forall (λ l, ∃ k a b d, l = Periodic k a b d ∧ k ≠ 0 ∧ k `mod` t = 0
                                   ∧ a + b + d = k) (printed body)).
Proof.
  intros Hc0 Hsum0 Hrun.
  cut (∃ body,
          (count c = length keys ∧ ok c + raw c + skip c = length keys)
          ∧ trace s' = trace s ++ body
          ∧ Forall (step_event out) body
          ∧ flushes body = length keys `div` 200
          ∧ (v = true →
               ∃ os, length os = length keys
                     ∧ printed body
                       = imap (λ i p, PerMessage (S i) p.1 p.2) (zip os keys))
          ∧ (v = false →
               length (printed body)
               = (if decide (t = 0) then 0 else length keys `div` t)
               ∧ Forall (λ l, ∃ k a b d, l = Periodic k a b d ∧ k ≠ 0
                                         ∧ k `mod` t = 0 ∧ a + b + d = k)
                   (printed body))).
  { intros (body & _ & ?). by exists body. }
  revert Hrun.
  apply (for_each_inv
           (λ seen c s', ∃ body,
               (count c = length seen ∧ ok c + raw c + skip c = length seen)
               ∧ trace s' = trace s ++ body
               ∧ Forall (step_event out) body
               ∧ flushes body = length seen `div` 200
               ∧ (v = true →
                    ∃ os, length os = length seen
                          ∧ printed body
                            = imap (λ i p, PerMessage (S i) p.1 p.2) (zip os seen))
               ∧ (v = false →
                    length (printed body)
                    = (if decide (t = 0) then 0 else length seen `div` t)
                    ∧ Forall (λ l, ∃ k a b d, l = Periodic k a b d ∧ k ≠ 0
                                              ∧ k `mod` t = 0 ∧ a + b + d = k)
                        (printed body)))).
  - intros seen x a1 s1 a2 s2 (body & (Hcount & Hsum) & Ht & Hbody & Hfl & Hv & Hp)
      (o & rs' & evs & -> & _ & _ & Ht' & Hevs & Hpr & Hfl' & _)%convert_message_step.
    destruct (tally_spec a1 o) as (Hc & _ & Hcase).
    exists (body ++ evs). rewrite length_app. cbn [length].
    rewrite Ht', Ht, <-app_assoc, flushes_app, printed_app, Hfl, Hfl', Hpr, Hc, Hcount.
    split_and!; [lia|lia|done|by apply Forall_app| | |].
    + by rewrite div_succ.
    + intros ->. destruct (Hv eq_refl) as (os & Hlen & ->).
      exists (os ++ [o]). rewrite length_app. simpl. split; [lia|].
      rewrite zip_with_app, imap_app by done. simpl.
      rewrite length_zip_with, Hlen, Nat.min_id, Nat.add_0_r. unfold progress.
      rewrite Hc, Hcount. by replace (length seen + 1) with (S (length seen)) by lia.
    + intros ->. destruct (Hp eq_refl) as (Hlen & Hall). unfold progress.
      rewrite length_app, Hlen, Forall_app.
      destruct (decide (t = 0)) as [->|Hne]; simpl; [done|].
      rewrite bool_decide_true by done. simpl. rewrite div_succ by done.
      case_bool_decide as Hmod; rewrite Hc, Hcount in Hmod.
      * rewrite decide_True by done. split; [done|]. split; [done|].
        repeat constructor. eexists _, _, _, _. rewrite Hc, Hcount.
        split_and!; [done|lia|done|lia].
      * rewrite decide_False by done. simpl. split; [lia|]. by split.
  - exists []. rewrite app_nil_r. simpl.
    split_and!; [done|lia|done|done|done| |].
    + intros _. by exists [].
    + intros _. split; [|done]. case_decide; [done|]. by rewrite Nat.Div0.div_0_l.
Qed.

End LoopFacts.

(** * What the functions of the script touch *)

Ltac confine :=
  repeat first
    [ apply confined_ret | apply confined_bind | apply confined_try_except
    | apply confined_ask | apply confined_call | apply confined_act
    | apply confined_print | apply confined_mbox_add | apply confined_mbox
    | apply confined_lift
    | match goal with |- ∀ _, _ => intro end ].

Section Footprint.

Context {W Msg : Type} (E : @Env W Msg) (fs : node) (cwd : string).
Implicit Types s : @state W Msg.

(** A computation that records nothing and touches no file. *)
Lemma confined_quiet {A} (m : @M W Msg A) s :
  confined no_event no_file m → trace (m s).2 = trace s ∧ files (m s).2 = files s.
Proof.
  intros Hm. destruct (Hm s) as ((evs & Ht & Hevs) & _ & Hu & _).
  destruct evs as [|ev evs]; [|by inversion Hevs].
  rewrite app_nil_r in Ht. split; [done|].
  apply map_eq. intros p. apply Hu. by intros [].
Qed.

Lemma confined_no_exit {A} (Q : @event Msg → Prop) T (m : @M W Msg A) s c s' :
  confined Q T m → m s ≠ (inl (SystemExit c), s').
Proof. intros Hm Hs. destruct (Hm s) as (_ & _ & _ & Hx). apply (Hx c). by rewrite Hs. Qed.

Lemma confined_add_with_fallback out md key :
  confined (adds_to out) (λ p, p = out) (add_with_fallback E out md key).
Proof. unfold add_with_fallback, md_get_message, md_read. confine; done. Qed.

Lemma step_event_adds out (ev : @event Msg) : adds_to out ev → step_event out ev.
Proof. by destruct ev. Qed.

Lemma confined_convert_message v t out md c key :
  confined (step_event out) (λ p, p = out) (convert_message E v t out md c key).
Proof.
  unfold convert_message. apply confined_bind.
  { eapply confined_mono; [apply step_event_adds| |apply confined_add_with_fallback].
    done. }
  intros o. apply confined_bind.
  { unfold report. destruct v; [by apply confined_print|].
    destruct (_ && _); [by apply confined_print|apply confined_ret]. }
  intros _. apply confined_bind; [|intros; apply confined_ret].
  unfold periodic_flush, mbox_flush, pass. case_decide; confine; done.
Qed.

Lemma confined_finalize (Q : @event Msg → Prop) T out :
  Q (EvFlush out) → Q (EvClose out) → confined Q T (finalize E out).
Proof. intros. unfold finalize, mbox_flush, mbox_close, pass. confine; done. Qed.

Lemma confined_collect_entries (Q : @event Msg → Prop) T mdir :
  confined Q T (collect_entries E fs cwd mdir).
Proof.
  unfold collect_entries. apply confined_for_each. intros entries sub _.
  destruct (Fs.isdir _ _ _); [|apply confined_ret].
  unfold os_listdir. confine.
Qed.

Lemma confined_folder_keys (Q : @event Msg → Prop) T mdir entries :
  confined Q T (folder_keys E mdir entries).
Proof.
  unfold folder_keys, Maildir, md_keys. confine. case_decide; confine.
Qed.

Lemma about_step (T : string → Prop) out (ev : @event Msg) :
  T out → step_event out ev → about T ev.
Proof. intros HT. destruct ev as [[]| | | | | |]; simpl; try done; by intros ->. Qed.

(** A folder touches its own archive only. *)
Lemma confined_convert_folder root dst_dir v t total mdir :
  confined (about (target cwd root dst_dir mdir)) (target cwd root dst_dir mdir)
    (convert_folder E fs cwd root dst_dir v t total mdir).
Proof.
  unfold convert_folder. apply confined_lift_bind. intros name Hname.
  assert (target cwd root dst_dir mdir (Posix.join dst_dir [name])) as HT
    by (by exists name).
  apply confined_bind; [by apply confined_print|]. intros _.
  apply confined_bind.
  { apply confined_act. simpl. eauto. }
  intros _. apply confined_bind; [apply confined_collect_entries|]. intros entries.
  apply confined_bind; [apply confined_folder_keys|]. intros keys.
  apply confined_bind; [by apply confined_mbox|]. intros _.
  apply confined_bind.
  { apply confined_try_finally; [|by apply confined_finalize].
    apply confined_for_each. intros c key _.
    eapply confined_mono; [| |apply confined_convert_message].
    - intros ev. by apply about_step.
    - by intros ? ->. }
  intros c. apply confined_bind; [by apply confined_print|]. intros; apply confined_ret.
Qed.

Lemma about_mono (T T' : string → Prop) (ev : @event Msg) :
  (∀ p, T p → T' p) → about T ev → about T' ev.
Proof.
  intros HT. destruct ev; simpl; auto. intros (p & Hp & ->). eauto.
Qed.

(** A run touches the archives of the folders it found only. *)
Lemma confined_convert_maildir root dst_dir v t :
  confined (about (run_target fs cwd root dst_dir)) (run_target fs cwd root dst_dir)
    (convert_maildir E fs cwd root dst_dir v t).
Proof.
  unfold convert_maildir. case_decide as Hnil.
  { apply confined_bind; [by apply confined_print|]. intros; apply confined_ret. }
  apply confined_bind; [by apply confined_print|]. intros _.
  apply confined_bind.
  { apply confined_for_each. intros total mdir Hin.
    assert (∀ p, target cwd root dst_dir mdir p → run_target fs cwd root dst_dir p)
      as Hsub by (intros p Hp; by exists mdir).
    eapply confined_mono; [| |apply confined_convert_folder]; [|done].
    intros ev. by apply about_mono. }
  intros total. apply confined_bind; [by apply confined_print|].
  intros; apply confined_ret.
Qed.

End Footprint.

(** * The shape of a run *)

Section Shape.

Context {W Msg : Type} (E : @Env W Msg) (fs : node) (cwd : string).
Implicit Types s : @state W Msg.

Lemma lift_inr {A} (r : result A) s x s' :
  (lift r : @M W Msg A) s = (inr x, s') → r = inr x ∧ s' = s.
Proof. unfold lift. destruct r; [done|]. by intros [= <- <-]. Qed.

Lemma mbox_inr out s x s' :
  mbox E out s = (inr x, s') →
  files s' !!! out = files s !!! out ∧ trace s' = trace s ++ [EvOpen out].
Proof.
  unfold mbox. destruct (env_mbox E out (hid s)) as [[e|] w]; [done|].
  intros [= _ <-]. simpl. by rewrite lookup_total_insert_eq.
Qed.

Lemma quiet_inr {A} (m : @M W Msg A) s x s' :
  confined no_event no_file m → m s = (inr x, s') →
  files s' = files s ∧ trace s' = trace s.
Proof.
  intros Hm Hs. destruct (confined_quiet m s Hm) as (Ht & Hf).
  rewrite Hs in Ht, Hf. done.
Qed.

Lemma done_counts_app l1 l2 : done_counts (l1 ++ l2) = done_counts l1 ++ done_counts l2.
Proof. apply omap_app. Qed.

Lemma step_done_counts out (body : list (@event Msg)) :
  Forall (step_event out) body → done_counts (printed body) = [].
Proof.
  induction 1 as [|ev evs Hev _ IH]; [done|].
  destruct ev as [[]| | | | | |]; try done.
Qed.

(** One folder, from the announcement to the [Done] line. *)
Lemma convert_folder_shape root dst_dir v t total mdir s total' s' :
  convert_folder E fs cwd root dst_dir v t total mdir s = (inr total', s') →
  ∃ name body rs c,
    let out_path := Posix.join dst_dir [name] in
    mbox_filename cwd root mdir = inr name
    ∧ trace s' = trace s
        ++ [EvPrint (Converting mdir out_path); EvMakedirs (Posix.dirname out_path);
            EvOpen out_path]
        ++ body
        ++ [EvFlush out_path; EvClose out_path;
            EvPrint (Done (count c) (ok c) (raw c) (skip c))]
    ∧ Forall (step_event out_path) body
    ∧ flushes body = count c `div` 200
    ∧ count c = ok c + raw c + skip c
    ∧ total' = total + count c
    ∧ files s' !!! out_path = files s !!! out_path ++ rs
    ∧ length rs = ok c + raw c
    ∧ added out_path body = rs.
Proof.
  unfold convert_folder.
  intros (name & s1 & (Hname & ->)%lift_inr & (_ & s2 & (Hf2 & Ht2)%act_inr &
    (_ & s3 & (Hf3 & Ht3)%act_inr & (entries & s4 & H4 &
    (keys & s5 & H5 & (_ & s6 & (Hf6 & Ht6)%mbox_inr & (c & s7 & Hloop &
    (_ & s8 & (Hf8 & Ht8)%act_inr & Hret)%bind_inr
    )%bind_inr)%bind_inr)%bind_inr)%bind_inr)%bind_inr)%bind_inr)%bind_inr.
  apply quiet_inr in H4 as (Hf4 & Ht4); [|apply confined_collect_entries].
  apply quiet_inr in H5 as (Hf5 & Ht5); [|apply confined_folder_keys].
  destruct (try_finally_finalize E
              (for_each keys (convert_message E v t (Posix.join dst_dir [name]) mdir)
                 {| count := 0; ok := 0; raw := 0; skip := 0; msg_total := total |})
              (Posix.join dst_dir [name]) s6) as (Hr & Hf7 & Ht7).
  rewrite Hloop in Hr, Hf7, Ht7. simpl in Hr, Hf7, Ht7.
  destruct (for_each keys _ _ s6) as [r s6'] eqn:Hfor. simpl in *. subst r.
  pose proof (for_each_counters E _ _ _ _ _ _ _ _ _ Hfor) as (Hcount & Htotal & Hsum).
  simpl in Hcount, Htotal, Hsum.
  destruct (λ H1 H2, loop_trace_inv E _ _ _ _ _ _ _ _ _ H1 H2 Hfor)
    as (body & Htb & Hbody & Hfl & _); [done..|].
  destruct (loop_records_inv E _ _ _ _ _ _ _ _ _ Hfor)
    as (rs & ks & Hfr & _ & Hlen & _).
  destruct (loop_added_inv E _ _ _ _ _ _ _ _ _ Hfor) as (body' & Htb' & Hfa).
  assert (body' = body) as -> by (rewrite Htb in Htb'; by apply app_inv_head in Htb').
  assert (added (Posix.join dst_dir [name]) body = rs) as Ha
    by (rewrite Hfr in Hfa; by apply app_inv_head in Hfa).
  unfold mret, M_ret in Hret. injection Hret as <- <-. simpl in *.
  exists name, body, rs, c. simpl.
  rewrite Ht8, Ht7, Htb, Ht6, Ht5, Ht4, Ht3, Ht2, Hf8, Hf7, Hfr, Hf6, Hf5, Hf4, Hf3, Hf2,
    Hfl, Hcount, <-!app_assoc.
  split_and!; [done..|lia|lia|done|lia|done].
Qed.

(** What the loop over the folders leaves in the trace. *)
Lemma folders_shape root dst_dir v t mdirs total0 s total s' :
  for_each mdirs (convert_folder E fs cwd root dst_dir v t) total0 s = (inr total, s') →
  ∃ evs,
    trace s' = trace s ++ evs
    ∧ total = total0 + sum_list (done_counts (printed evs))
    ∧ length (done_counts (printed evs)) = length mdirs
    ∧ closes evs = length mdirs.
Proof.
  apply (for_each_inv
           (λ seen total s', ∃ evs,
               trace s' = trace s ++ evs
               ∧ total = total0 + sum_list (done_counts (printed evs))
               ∧ length (done_counts (printed evs)) = length seen
               ∧ closes evs = length seen)).
  - intros seen x a1 s1 a2 s2 (evs & Ht & Hsum & Hlen & Hcl)
      (name & body & rs & c & _ & Ht' & Hbody & _ & _ & -> & _)%convert_folder_shape.
    eexists. rewrite Ht', Ht, <-app_assoc. split; [done|].
    rewrite !printed_app, !done_counts_app, (step_done_counts _ _ Hbody).
    rewrite !closes_app, Hcl, !length_app, Hlen, sum_list_with_app.
    assert (closes body = 0) as ->.
    { clear -Hbody. induction Hbody as [|ev evs Hev _ IH]; [done|].
      destruct ev as [[]| | | | | |]; done. }
    unfold printed, done_counts, closes in *. simpl. split_and!; lia.
  - exists []. rewrite app_nil_r. simpl. split_and!; [done|lia|done..].
Qed.

End Shape.

(** * The run and the script as a whole *)

Section Whole.

Context {W Msg : Type} (E : @Env W Msg) (fs : node) (cwd : string).
Implicit Types s : @state W Msg.

(** The run: either no folder and one line, or the folders between the
    [Found] line and the [All done] line. *)
Lemma convert_maildir_shape root dst_dir v t s total s' :
  convert_maildir E fs cwd root dst_dir v t s = (inr total, s') →
  (find_maildirs fs cwd root = [] ∧ total = 0 ∧ files s' = files s
   ∧ trace s' = trace s ++ [EvPrint (NoMaildirs root)])
  ∨ (find_maildirs fs cwd root ≠ []
     ∧ ∃ evs,
         trace s' = trace s
           ++ [EvPrint (Found (length (find_maildirs fs cwd root)))]
           ++ evs ++ [EvPrint (AllDone total dst_dir)]
         ∧ total = sum_list (done_counts (printed evs))
         ∧ length (done_counts (printed evs)) = length (find_maildirs fs cwd root)
         ∧ closes evs = length (find_maildirs fs cwd root)).
Proof.
  unfold convert_maildir. case_decide as Hnil.
  - intros (_ & s1 & (Hf1 & Ht1)%act_inr & Hret)%bind_inr.
    unfold mret, M_ret in Hret. injection Hret as <- <-. by left.
  - intros (_ & s1 & (Hf1 & Ht1)%act_inr & (n & s2 & Hloop &
      (_ & s3 & (Hf3 & Ht3)%act_inr & Hret)%bind_inr)%bind_inr)%bind_inr.
    unfold mret, M_ret in Hret. injection Hret as <- <-.
    apply folders_shape in Hloop as (evs & Ht2 & Hsum & Hlen & Hcl).
    right. split; [done|]. exists evs.
    rewrite Ht3, Ht2, Ht1, <-!app_assoc. by split_and!.
Qed.

Lemma act_cases (o : W → option exn * W) (ev : @event Msg) s :
  ∃ s', files s' = files s ∧ trace s' = trace s ++ [ev]
        ∧ (act o ev s = (inr (), s') ∨ ∃ e, act o ev s = (inl (Raised e), s')).
Proof.
  unfold act. destruct (o (hid s)) as [[e|] w]; eexists; (split; [|split]);
    [| |right; by exists e| | |by left]; done.
Qed.

Lemma choose_cases prompt default s :
  ∃ s', files s' = files s ∧ trace s' = trace s ++ [EvInput prompt]
        ∧ ((∃ x, choose E prompt default s = (inr x, s'))
           ∨ ∃ e, choose E prompt default s = (inl (Raised e), s')).
Proof.
  unfold choose, input, mbind, M_bind, mret, M_ret.
  destruct (env_input E prompt (hid s)) as [[e|x] w]; eexists;
    (split; [|split]); [| |right; by exists e| | |left; by eexists]; done.
Qed.

Lemma convert_maildir_cases root dst_dir v t s :
  (∃ e s', convert_maildir E fs cwd root dst_dir v t s = (inl (Raised e), s'))
  ∨ (∃ total s', convert_maildir E fs cwd root dst_dir v t s = (inr total, s')).
Proof.
  destruct (convert_maildir E fs cwd root dst_dir v t s) as [[[e|c]|total] s'] eqn:Hrun;
    [eauto| |eauto].
  by eapply confined_no_exit in Hrun; [|apply confined_convert_maildir].
Qed.

Lemma print_cases l s :
  ∃ s', files s' = files s ∧ trace s' = trace s ++ [EvPrint l]
        ∧ (print E l s = (inr (), s') ∨ ∃ e, print E l s = (inl (Raised e), s')).
Proof. apply act_cases. Qed.

Lemma os_makedirs_cases p s :
  ∃ s', files s' = files s ∧ trace s' = trace s ++ [EvMakedirs p]
        ∧ (os_makedirs E p s = (inr (), s')
           ∨ ∃ e, os_makedirs E p s = (inl (Raised e), s')).
Proof. apply act_cases. Qed.

(** How the script can end. *)
Lemma main_cases s :
  ∃ r s' evs,
    main E fs cwd s = (r, s')
    ∧ match r with
      | inl (Raised _) => True
      | inl (SystemExit c) =>
          trace s' = trace s ++ evs
          ∧ ((c = 1 ∧ files s' = files s ∧ Forall on_terminal evs
              ∧ ∃ l, last (printed evs) = Some l
                     ∧ (l = NoSource
                        ∨ (∃ src, l = SourceMissing src ∧ Fs.isdir fs cwd src = false)
                        ∨ l = NoDestination))
             ∨ (c = 2
                ∧ ∃ x, last (printed evs) = Some (NoMaildirs x)
                       ∨ last (printed evs) = Some (AllDone 0 x)))
      | inr _ =>
          trace s' = trace s ++ evs
          ∧ ∃ n dst, 0 < n ∧ last (printed evs) = Some (AllDone n dst)
      end.
Proof.
  unfold main, mbind, M_bind, raise.
  destruct (print_cases Banner s) as (s1 & Hf1 & Ht1 & [->|[e ->]]);
    [|by eexists _, _, []].
  destruct (choose_cases "Enter Maildir root path (absolute): " "" s1)
    as (s2 & Hf2 & Ht2 & [[src ->]|[e ->]]); [|by eexists _, _, []].
  case_decide as Hsrc.
  { destruct (print_cases NoSource s2) as (s3 & Hf3 & Ht3 & [->|[e ->]]);
      [|by eexists _, _, []].
    eexists _, _, _. split; [done|].
    rewrite Ht3, Ht2, Ht1, Hf3, Hf2, Hf1, <-!app_assoc. split; [reflexivity|]. left.
    split_and!; [done..|by repeat constructor|]. exists NoSource. by split; [|left]. }
  destruct (Fs.isdir fs cwd (Str.strip src)) eqn:Hdir; simpl.
  2:{ destruct (print_cases (SourceMissing (Str.strip src)) s2)
        as (s3 & Hf3 & Ht3 & [->|[e ->]]); [|by eexists _, _, []].
      eexists _, _, _. split; [done|].
      rewrite Ht3, Ht2, Ht1, Hf3, Hf2, Hf1, <-!app_assoc. split; [reflexivity|]. left.
      split_and!; [done..|by repeat constructor|]. eexists. split; [done|].
      right. left. eauto. }
  destruct (choose_cases "Enter destination directory for .mbox files: " "" s2)
    as (s3 & Hf3 & Ht3 & [[dst ->]|[e ->]]); [|by eexists _, _, []].
  case_decide as Hdst.
  { destruct (print_cases NoDestination s3) as (s4 & Hf4 & Ht4 & [->|[e ->]]);
      [|by eexists _, _, []].
    eexists _, _, _. split; [done|].
    rewrite Ht4, Ht3, Ht2, Ht1, Hf4, Hf3, Hf2, Hf1, <-!app_assoc.
    split; [reflexivity|]. left.
    split_and!; [done..|by repeat constructor|]. eexists. split; [done|].
    by right; right. }
  destruct (os_makedirs_cases (Str.strip dst) s3) as (s4 & Hf4 & Ht4 & [->|[e ->]]);
    [|by eexists _, _, []].
  destruct (choose_cases
              "Verbosity: [1] per-message (very chatty)  [2] periodic (every 200 msgs)  [Enter=2]: "
              "" s4)
    as (s5 & Hf5 & Ht5 & [[mode ->]|[e ->]]); [|by eexists _, _, []].
  destruct (print_cases Starting s5) as (s6 & Hf6 & Ht6 & [->|[e ->]]);
    [|by eexists _, _, []].
  match goal with
  | |- context [convert_maildir E fs cwd ?r ?d ?v ?t s6] =>
      destruct (convert_maildir_cases r d v t s6)
        as [(e & s7 & Hrun)|(total & s7 & Hrun)]; rewrite Hrun;
        [by eexists _, _, []|]
  end.
  apply convert_maildir_shape in Hrun
    as [(_ & -> & _ & Ht7)|(_ & evs & Ht7 & _)].
  - rewrite decide_True by done. eexists _, _, _. split; [done|].
    rewrite Ht7, Ht6, Ht5, Ht4, Ht3, Ht2, Ht1, <-!app_assoc. split; [reflexivity|].
    right. split; [done|]. eexists. left.
    rewrite !app_assoc, printed_app. apply last_snoc.
  - case_decide as Htotal.
    + eexists _, _, _. split; [done|].
      rewrite Ht7, Ht6, Ht5, Ht4, Ht3, Ht2, Ht1, <-!app_assoc. split; [reflexivity|].
      right. split; [done|]. eexists. right. subst total.
      rewrite !app_assoc, printed_app. apply last_snoc.
    + eexists _, _, _. split; [done|].
      rewrite Ht7, Ht6, Ht5, Ht4, Ht3, Ht2, Ht1, <-!app_assoc. split; [reflexivity|].
      exists total, (Str.strip dst). split; [lia|].
      rewrite !app_assoc, printed_app. apply last_snoc.
Qed.

End Whole.

(** * Trimming the answers *)

Section Trim.

Implicit Types l : list (N * string).

Lemma lstrip_chars_split l :
  ∃ ws, l = ws ++ Str.lstrip_chars l ∧ Forall (λ p, Str.isspace p.1 = true) ws.
Proof.
  induction l as [|p l (ws & Hl & Hws)]; [by exists []|]. simpl.
  destruct (Str.isspace p.1) eqn:Hp; [|by exists []].
  exists (p :: ws). split; [by rewrite Hl at 1|by constructor].
Qed.

Lemma rstrip_chars_split l :
  ∃ ws, l = Str.rstrip_chars l ++ ws ∧ Forall (λ p, Str.isspace p.1 = true) ws.
Proof.
  unfold Str.rstrip_chars. destruct (lstrip_chars_split (reverse l)) as (ws & Hl & Hws).
  exists (reverse ws). split; [|by apply Forall_reverse].
  by rewrite <-reverse_app, <-Hl, reverse_involutive.
Qed.

(** What is left begins with no white space. *)
Lemma lstrip_chars_head l :
  match Str.lstrip_chars l with
  | [] => True
  | p :: _ => Str.isspace p.1 = false
  end.
Proof.
  induction l as [|p l IH]; simpl; [done|]. by destruct (Str.isspace p.1) eqn:Hp.
Qed.

Lemma lstrip_chars_id l :
  match l with [] => True | p :: _ => Str.isspace p.1 = false end →
  Str.lstrip_chars l = l.
Proof. destruct l as [|p l]; simpl; [done|]. by intros ->. Qed.

Lemma lstrip_chars_nil l :
  Str.lstrip_chars l = [] ↔ forallb (λ p, Str.isspace p.1) l = true.
Proof.
  induction l as [|p l IH]; simpl; [done|].
  destruct (Str.isspace p.1); simpl; [done|]. split; done.
Qed.

(** Trimming twice is trimming once. *)
Lemma strip_chars_trimmed l :
  let m := Str.rstrip_chars (Str.lstrip_chars l) in
  Str.rstrip_chars (Str.lstrip_chars m) = m.
Proof.
  intros m. assert (Str.lstrip_chars m = m) as ->.
  { apply lstrip_chars_id. pose proof (lstrip_chars_head l) as Hhead.
    destruct (rstrip_chars_split (Str.lstrip_chars l)) as (ws & Hl & Hws).
    fold m in Hl. destruct m as [|p m']; [done|].
    rewrite Hl in Hhead. done. }
  unfold m, Str.rstrip_chars. rewrite reverse_involutive. f_equal.
  apply lstrip_chars_id, lstrip_chars_head.
Qed.

Lemma isspace_solid c chunk :
  Str.isspace c = true → is_chunk chunk c → solid (c, chunk).
Proof.
  intros Hc Hchunk. split; [done|]. left. simpl. unfold Str.isspace in Hc.
  seq_bools; lia.
Qed.

(** A chunk that is no escaped byte cannot continue a sequence. *)
Lemma solid_boundary c chunk r : solid (c, chunk) → boundary (chunk +:+ r).
Proof.
  intros [Hc Hne]. simpl in *.
  destruct chunk as [|a [|b [|c0 [|d [|? ?]]]]]; try done; simpl in *.
  - pose proof (byte_lt a). destruct (N.ltb_spec (Str.byte a) 128); [seq_false|lia].
  - destruct Hc as [H2 _]. seq_false.
  - destruct Hc as [H3 _]. seq_false.
  - destruct Hc as [H4 _]. seq_false.
Qed.

(** The code points of a trimmed string are those of the string without the
    white space at both ends. *)
Lemma decode_strip v :
  Str.decode (Str.strip v) = Str.rstrip_chars (Str.lstrip_chars (Str.decode v)).
Proof.
  unfold Str.strip.
  destruct (lstrip_chars_split (Str.decode v)) as (ws1 & H1 & Hws1).
  destruct (rstrip_chars_split (Str.lstrip_chars (Str.decode v))) as (ws2 & H2 & Hws2).
  set (mid := Str.rstrip_chars (Str.lstrip_chars (Str.decode v))) in *.
  pose proof (decode_chunks v) as Hall. rewrite H1, H2, !Forall_app in Hall.
  destruct Hall as (Hc1 & _ & Hc2).
  assert (∀ ws, Forall (λ p, Str.isspace p.1 = true) ws →
                Forall (λ p, is_chunk p.2 p.1) ws → Forall solid ws) as Hsolid.
  { intros ws Hs Hc. rewrite Forall_forall in Hs, Hc |- *.
    intros [c chunk] Hin. apply isspace_solid; [apply (Hs _ Hin)|apply (Hc _ Hin)]. }
  pose proof (Hsolid _ Hws1 Hc1) as Hs1. pose proof (Hsolid _ Hws2 Hc2) as Hs2.
  pose proof (cat_decode v) as Hv. rewrite H1, H2, !cat_app in Hv.
  pose proof H1 as Hd. rewrite H2 in Hd. rewrite <-Hv in Hd at 1.
  rewrite decode_solid in Hd by done. apply app_inv_head in Hd.
  assert (Str.decode (Str.cat ws2) = ws2) as Hd2.
  { rewrite <-(app_empty_r (Str.cat ws2)), decode_solid by done. apply app_nil_r. }
  rewrite decode_app, Hd2 in Hd; [by apply app_inv_tail in Hd|].
  destruct Hs2 as [|[c chunk] ws2' Hp _]; [done|]. simpl. by eapply solid_boundary.
Qed.

Lemma strip_idem v : Str.strip (Str.strip v) = Str.strip v.
Proof.
  unfold Str.strip at 1. rewrite decode_strip. by rewrite strip_chars_trimmed.
Qed.

Lemma strip_empty v : Str.strip v = "" ↔ all_space v = true.
Proof.
  unfold all_space. rewrite <-lstrip_chars_nil. split.
  - intros Hv. apply (f_equal Str.decode) in Hv. rewrite decode_strip in Hv.
    change (Str.decode "") with (@nil (N * string)) in Hv.
    destruct (rstrip_chars_split (Str.lstrip_chars (Str.decode v))) as (ws & Hl & Hws).
    rewrite Hv in Hl. simpl in Hl. pose proof (lstrip_chars_head (Str.decode v)) as Hh.
    rewrite Hl in Hh |- *. destruct Hws as [|p ws Hp _]; [done|]. by rewrite Hp in Hh.
  - intros Hv. unfold Str.strip. by rewrite Hv.
Qed.

End Trim.

(** * Where the archives go *)

Section Layout.

Lemma has_sep_app s t : has_sep (s +:+ t) = has_sep s || has_sep t.
Proof. induction s as [|a s IH]; simpl; [done|]. by rewrite IH, orb_assoc. Qed.

Lemma has_sep_replace s : has_sep (Str.replace Posix.sep "_" s) = false.
Proof.
  induction s as [|a s IH]; simpl; [done|]. rewrite IH, orb_false_r.
  case_decide as Ha; by apply bool_decide_eq_false.
Qed.

Lemma mbox_filename_no_sep cwd src_root maildir_root name :
  mbox_filename cwd src_root maildir_root = inr name → has_sep name = false.
Proof.
  unfold mbox_filename. destruct (Posix.relpath _ _ _) as [e|rel]; [done|].
  intros [= <-]. rewrite has_sep_app, orb_false_r.
  case_decide; [done|]. case_decide; [done|]. apply has_sep_replace.
Qed.

Lemma no_sep_not_abs n : has_sep n = false → Str.startswith n "/" = false.
Proof.
  destruct n as [|a n]; [done|]. simpl. intros [Ha _]%orb_false_iff.
  apply bool_decide_eq_false in Ha. unfold Str.startswith. by rewrite decide_False.
Qed.

Lemma dirname_head_no_sep n : has_sep n = false → Posix.dirname_head n = "".
Proof.
  induction n as [|a n IH]; simpl; [done|]. intros [Ha Hn]%orb_false_iff.
  apply bool_decide_eq_false in Ha. by rewrite IH, decide_False.
Qed.

Lemma dirname_head_app s n :
  has_sep n = false → Posix.dirname_head (s +:+ String Posix.sep n) = s +:+ "/".
Proof.
  intros Hn. induction s as [|a s IH]; simpl.
  - by rewrite dirname_head_no_sep.
  - rewrite IH. by destruct s.
Qed.

Lemma rstrip_sep_snoc s : Posix.rstrip_sep (s +:+ "/") = Posix.rstrip_sep s.
Proof. induction s as [|a s IH]; simpl; [done|]. by rewrite IH. Qed.

Lemma rstrip_sep_id s : Str.endswith s Posix.sep = false → Posix.rstrip_sep s = s.
Proof.
  induction s as [|a s IH]; [done|]. unfold Str.endswith. fold Str.endswith.
  destruct s as [|b s].
  - intros Ha%bool_decide_eq_false. simpl. by rewrite decide_False.
  - intros Hs. change (Posix.rstrip_sep (String a (String b s)))
      with (match Posix.rstrip_sep (String b s) with
            | EmptyString => if decide (a = Posix.sep) then EmptyString
                             else String a EmptyString
            | r => String a r
            end).
    by rewrite IH.
Qed.

(** [os.path.dirname(os.path.join(dst_dir, name))] for a name without
    separator: the destination without its trailing separators. *)
Lemma dirname_join dst_dir n :
  has_sep n = false →
  Posix.dirname (Posix.join dst_dir [n])
  = (if decide (Posix.rstrip_sep dst_dir = "") then dst_dir
     else Posix.rstrip_sep dst_dir).
Proof.
  intros Hn. unfold Posix.join, Posix.dirname. simpl.
  rewrite join2_rel by (by apply no_sep_not_abs).
  case_bool_decide as Hdst; simpl.
  { subst dst_dir. simpl. by rewrite dirname_head_no_sep. }
  destruct (Str.endswith dst_dir Posix.sep) eqn:Hend.
  - apply endswith_inv in Hend as [s0 ->].
    rewrite app_assoc_s. simpl. by rewrite dirname_head_app.
  - rewrite dirname_head_app, rstrip_sep_snoc, rstrip_sep_id by done. by case_decide.
Qed.

End Layout.

(** * The first folder *)

Section First.

Context (fs : node) (cwd : string).

Lemma decode_sep_app s t :
  Str.decode (s +:+ String Posix.sep t)
  = Str.decode s ++ (47%N, "/") :: Str.decode t.
Proof.
  rewrite decode_app by done. f_equal.
  by apply (decode_solid [(47%N, "/")] t); repeat constructor.
Qed.

(** The code points of a path begin with those of the directory it was
    joined from. *)
Lemma join_prefix root names :
  Forall (λ n, proper n = true) names →
  ∃ l, Str.codepoints (Posix.join root names) = Str.codepoints root ++ l.
Proof.
  unfold Posix.join. intros Hns. revert root.
  induction Hns as [|n ns Hn _ IH]; intros root; simpl.
  - exists []. by rewrite app_nil_r.
  - destruct (IH (Posix.join2 root n)) as [l ->].
    rewrite join2_proper by done. unfold Str.codepoints.
    destruct (bool_decide (root = "")) eqn:Hroot; simpl.
    { apply bool_decide_eq_true in Hroot as ->. simpl. eauto. }
    destruct (Str.endswith root Posix.sep) eqn:Hend.
    + apply endswith_inv in Hend as [r0 ->].
      rewrite app_assoc_s. simpl. rewrite !decode_sep_app.
      change (Str.decode "") with (@nil (N * string)).
      rewrite !fmap_app. simpl.
      exists ((Str.decode n).*1 ++ l). by rewrite <-!app_assoc.
    + rewrite decode_sep_app, fmap_app, <-app_assoc. simpl. eauto.
Qed.

(** A root that is a mailbox itself comes first. *)
Lemma find_maildirs_head root :
  wf fs = true → Fs.isdir fs cwd root = true → is_maildir fs cwd root = true →
  head (find_maildirs fs cwd root) = Some root.
Proof.
  intros Hfs Hdir Hm. pose proof (wf_tidy _ Hfs) as Htidy.
  assert (root ∈ find_maildirs fs cwd root) as Hin.
  { unfold find_maildirs. rewrite merge_sort_Permutation, list_elem_of_filter.
    split; [by rewrite Hm|]. apply elem_of_walk; [done|].
    unfold Fs.isdir in Hdir.
    destruct (Fs.lookup fs cwd root) as [n|] eqn:Hroot; [|done].
    destruct (lookup_listable fs cwd root n Hfs Hroot Hdir) as [es ->].
    by econstructor. }
  assert (StronglySorted Str.le (find_maildirs fs cwd root)) as Hsorted
    by (apply StronglySorted_merge_sort; apply _).
  assert (∀ p, p ∈ find_maildirs fs cwd root → Str.le root p) as Hle.
  { intros p (names & Hnames & ->)%find_maildirs_below; [|done].
    destruct (join_prefix root names Hnames) as [l Hl].
    apply le_iff. rewrite Hl. apply cp_compare_prefix. }
  destruct (find_maildirs fs cwd root) as [|h tl]; [by apply elem_of_nil in Hin|].
  simpl. f_equal. apply (anti_symm Str.le); [|apply Hle; by left].
  apply elem_of_cons in Hin as [->|Hin]; [done|].
  apply StronglySorted_inv in Hsorted as [_ Hall].
  rewrite Forall_forall in Hall. by apply Hall.
Qed.

End First.

(** * What makes a mailbox *)

Section Mailbox.

Context (fs : node) (cwd : string).

Lemma is_maildir_tidy p :
  tidy fs = true → p ≠ "" → is_maildir fs cwd p = true ↔ qualifies fs cwd p.
Proof.
  intros Hfs Hp. split.
  - intros Hm.
    assert (∃ m es, Fs.lookup fs cwd p = Some m ∧ Fs.entries m = Some es)
      as (m & es & Hm' & Hes).
    { unfold is_maildir in Hm. cbn [forallb] in Hm.
      apply andb_true_iff in Hm as [Hcur _]. unfold Fs.isdir in Hcur.
      destruct (Fs.lookup fs cwd (Posix.join p ["cur"])) as [c|] eqn:Hc; [|done].
      by eapply (lookup_join2_inv fs cwd p "cur"). }
    by apply (is_maildir_qualifies fs cwd p m es).
  - intros Hq. destruct (Hq "cur") as (m & es & _ & Hm' & Hes & _); [by left|].
    by apply (is_maildir_qualifies fs cwd p m es).
Qed.

Lemma is_maildir_iff p :
  wf fs = true → p ≠ "" → is_maildir fs cwd p = true ↔ qualifies fs cwd p.
Proof. intros Hfs%wf_tidy. by apply is_maildir_tidy. Qed.

End Mailbox.

(** * When nothing fails *)

Section Lossless.

Context {W Msg : Type} (E : @Env W Msg).
Implicit Types s : @state W Msg.

Lemma tier_parsed_ok out md key s :
  (∀ w, ∃ m, (env_get_message E md key w).1 = inr m) →
  (∀ r w, (env_add E out r w).1 = None) →
  ∃ m w s', tier_parsed E out md key s = (inr (), s')
            ∧ env_get_message E md key (hid s) = (inr m, w)
            ∧ files s' = appended out (Parsed m) (files s).
Proof.
  intros Hget Hadd. unfold tier_parsed, md_get_message, ask, mbox_add, mbind, M_bind.
  destruct (Hget (hid s)) as [m Hm].
  destruct (env_get_message E md key (hid s)) as [[e|m'] w]; simplify_eq/=.
  specialize (Hadd (Parsed m) w).
  destruct (env_add E out (Parsed m) w) as [[e|] w']; simplify_eq/=.
  by eexists _, _, _.
Qed.

Lemma convert_message_ok v t out md c key s c' s' :
  (∀ w, ∃ m, (env_get_message E md key w).1 = inr m) →
  (∀ r w, (env_add E out r w).1 = None) →
  convert_message E v t out md c key s = (inr c', s') →
  ∃ m w w',
    env_get_message E md key w = (inr m, w')
    ∧ files s' !!! out = files s !!! out ++ [Parsed m]
    ∧ ok c' = ok c + 1 ∧ raw c' = raw c ∧ skip c' = skip c.
Proof.
  intros Hget Hadd (o & s1 & s2 & Hawf & -> & Hrep & Hfl)%convert_message_inr.
  destruct (tier_parsed_ok out md key s Hget Hadd) as (m & w & s1' & Htp & Hm & Hf1).
  rewrite add_with_fallback_unfold, Htp in Hawf. injection Hawf as <- <-.
  apply report_inr in Hrep as (Hf2 & _).
  destruct (periodic_flush_run E out (tally c "OK") s2) as (s3 & Hfl' & Hf3 & _).
  rewrite Hfl in Hfl'. injection Hfl' as <-.
  exists m, (hid s), w. rewrite Hf3, Hf2, Hf1, appended_lookup. by split_and!.
Qed.

(** With a mailbox layer that parses every message and an archive that takes
    every record, no message is lost, altered or moved. *)
Lemma loop_lossless_inv v t out md keys c0 s c s' :
  (∀ key w, ∃ m, (env_get_message E md key w).1 = inr m) →
  (∀ r w, (env_add E out r w).1 = None) →
  for_each keys (convert_message E v t out md) c0 s = (inr c, s') →
  ∃ ms,
    files s' !!! out = files s !!! out ++ (Parsed <$> ms)
    ∧ Forall2 (λ key m, ∃ w w', env_get_message E md key w = (inr m, w')) keys ms
    ∧ ok c = ok c0 + length keys ∧ raw c = raw c0 ∧ skip c = skip c0.
Proof.
  intros Hget Hadd.
  apply (for_each_inv
           (λ seen c s', ∃ ms,
               files s' !!! out = files s !!! out ++ (Parsed <$> ms)
               ∧ Forall2 (λ key m, ∃ w w', env_get_message E md key w = (inr m, w'))
                   seen ms
               ∧ ok c = ok c0 + length seen ∧ raw c = raw c0 ∧ skip c = skip c0)).
  - intros seen x a1 s1 a2 s2 (ms & Hf & Hms & Hok & Hraw & Hskip)
      (m & w & w' & Hm & Hf' & -> & -> & ->)%convert_message_ok; [|done..].
    exists (ms ++ [m]). rewrite Hf', Hf, fmap_app, <-app_assoc, length_app. simpl.
    split_and!; [done| |lia|done..].
    apply Forall2_app; [done|]. constructor; [eauto|constructor].
  - exists []. simpl. rewrite app_nil_r. split_and!; [done|constructor|lia|done..].
Qed.

End Lossless.

(** * The end of a folder *)

Section Folder.

Context {W Msg : Type} (E : @Env W Msg) (fs : node) (cwd : string).
Implicit Types s : @state W Msg.

Lemma quiet_cases {A} (m : @M W Msg A) s :
  confined no_event no_file m →
  trace (m s).2 = trace s
  ∧ ((∃ e, (m s).1 = inl (Raised e)) ∨ ∃ x, (m s).1 = inr x).
Proof.
  intros Hm. destruct (confined_quiet m s Hm) as (Ht & _). split; [done|].
  destruct (Hm s) as (_ & _ & _ & Hx).
  destruct (m s).1 as [[e|c]|x]; [eauto|by destruct (Hx c)|eauto].
Qed.

Lemma mbox_cases out s :
  (∃ e w w' s', env_mbox E out w = (Some e, w')
                ∧ mbox E out s = (inl (Raised e), s')
                ∧ trace s' = trace s ++ [EvOpen out])
  ∨ (∃ s', mbox E out s = (inr (), s') ∧ trace s' = trace s ++ [EvOpen out]).
Proof.
  unfold mbox. destruct (env_mbox E out (hid s)) as [[e|] w] eqn:Hopen.
  - left. by eexists _, _, _, _.
  - right. by eexists.
Qed.

(** One folder, however it ends: before its archive is open, or with the
    flush and the close of the [finally] clause after whatever the loop
    did. *)
Lemma convert_folder_cases root dst_dir v t total mdir s :
  let run := convert_folder E fs cwd root dst_dir v t total mdir s in
  match mbox_filename cwd root mdir with
  | inl e => run = (inl (Raised e), s)
  | inr name =>
      let out_path := Posix.join dst_dir [name] in
      let opening := [EvPrint (Converting mdir out_path);
                      EvMakedirs (Posix.dirname out_path)] in
      (∃ e evs,
          run.1 = inl (Raised e)
          ∧ trace run.2 = trace s ++ evs
          ∧ (evs = take 1 opening
             ∨ evs = opening
             ∨ (evs = opening ++ [EvOpen out_path]
                ∧ ∃ w w', env_mbox E out_path w = (Some e, w'))))
      ∨ (∃ keys s0,
            trace s0 = trace s ++ opening ++ [EvOpen out_path]
            ∧ let loop :=
                for_each keys (convert_message E v t out_path mdir)
                  {| count := 0; ok := 0; raw := 0; skip := 0; msg_total := total |}
                  s0 in
              ∃ post,
                trace run.2
                = trace loop.2 ++ [EvFlush out_path; EvClose out_path] ++ post
                ∧ match loop.1 with
                  | inl a => run.1 = inl a ∧ post = []
                  | inr c =>
                      post = [EvPrint (Done (count c) (ok c) (raw c) (skip c))]
                      ∧ (run.1 = inr (msg_total c)
                         ∨ ∃ e w w',
                             env_print E (Done (count c) (ok c) (raw c) (skip c)) w
                             = (Some e, w')
                             ∧ run.1 = inl (Raised e))
                  end)
  end.
Proof.
  unfold convert_folder, mbind, M_bind. unfold lift at 1.
  destruct (mbox_filename cwd root mdir) as [e|name]; [done|]. simpl.
  set (out := Posix.join dst_dir [name]).
  unfold print, os_makedirs.
  destruct (act_cases (env_print E (Converting mdir out))
              (EvPrint (Converting mdir out)) s) as (s1 & _ & Ht1 & [->|[e1 ->]]);
    simpl; [|left; exists e1; eexists; by eauto].
  destruct (act_cases (env_makedirs E (Posix.dirname out))
              (EvMakedirs (Posix.dirname out)) s1) as (s2 & _ & Ht2 & [->|[e2 ->]]);
    simpl.
  2:{ left. exists e2. eexists. split; [done|]. rewrite Ht2, Ht1, <-app_assoc. eauto. }
  destruct (quiet_cases (collect_entries E fs cwd mdir) s2
              (confined_collect_entries E fs cwd _ _ mdir)) as (Ht3 & H3).
  destruct (collect_entries E fs cwd mdir s2) as [r3 s3]. simpl in Ht3, H3.
  destruct H3 as [[e3 ->]|[entries ->]]; simpl.
  { left. exists e3. eexists. split; [done|]. rewrite Ht3, Ht2, Ht1, <-app_assoc. eauto. }
  destruct (quiet_cases (folder_keys E mdir entries) s3
              (confined_folder_keys E _ _ mdir entries)) as (Ht4 & H4).
  destruct (folder_keys E mdir entries s3) as [r4 s4]. simpl in Ht4, H4.
  destruct H4 as [[e4 ->]|[keys ->]]; simpl.
  { left. exists e4. eexists. split; [done|].
    rewrite Ht4, Ht3, Ht2, Ht1, <-app_assoc. eauto. }
  destruct (mbox_cases out s4)
    as [(e5 & w & w' & s5 & Hopen & -> & Ht5)|(s5 & -> & Ht5)]; simpl.
  { left. exists e5. eexists. split; [done|].
    rewrite Ht5, Ht4, Ht3, Ht2, Ht1, <-!app_assoc. split; [done|]. right. right. eauto. }
  right. exists keys, s5. split; [by rewrite Ht5, Ht4, Ht3, Ht2, Ht1, <-!app_assoc|].
  destruct (try_finally_finalize E
              (for_each keys (convert_message E v t out mdir)
                 {| count := 0; ok := 0; raw := 0; skip := 0; msg_total := total |})
              out s5) as (Hr & _ & Ht6).
  destruct (try_finally _ _ s5) as [r6 s6]. simpl in Hr, Ht6. subst r6.
  destruct (for_each keys _ _ s5) as [[a|c] sl]; simpl in *.
  { exists []. by rewrite Ht6. }
  exists [EvPrint (Done (count c) (ok c) (raw c) (skip c))]. unfold act.
  destruct (env_print E _ (hid s6)) as [[e7|] w7] eqn:Hdone; simpl;
    rewrite Ht6, <-app_assoc; (split; [done|]); split; eauto 10.
Qed.

End Folder.

(** C8.  The flushes and the close of a folder.  A folder ends either
    before its archive is open (the announcement, the making of the
    directory, the listing, the keys or the opening itself raised), or after
    it: then, whatever the loop over the keys did, completed or raised
    mid-folder, a flush and then a close of the archive follow what the loop
    recorded.  What these two calls raise is swallowed: after a loop that
    raised the folder ends with the error of the loop, and after a loop that
    completed the [Done] line follows and the folder returns its total,
    unless the printing of that line itself raised.  Inside the loop the
    archive is flushed after every 200th processed message.  When only
    reading, appending, flushing and closing can fail, and every directory
    can be listed, the run completes and closes one archive per folder
    found. *)
Theorem flush_and_close {W Msg} (E : @Env W Msg) :
  (∀ fs cwd root dst_dir per_message_verbose tick total mdir (s : @state W Msg),
      let run :=
        convert_folder E fs cwd root dst_dir per_message_verbose tick total mdir s in
      match mbox_filename cwd root mdir with
      | inl e => run = (inl (Raised e), s)
      | inr name =>
          let out_path := Posix.join dst_dir [name] in
          let opening := [EvPrint (Converting mdir out_path);
                          EvMakedirs (Posix.dirname out_path)] in
          (∃ e evs,
              run.1 = inl (Raised e)
              ∧ trace run.2 = trace s ++ evs
              ∧ (evs = take 1 opening
                 ∨ evs = opening
                 ∨ (evs = opening ++ [EvOpen out_path]
                    ∧ ∃ w w', env_mbox E out_path w = (Some e, w'))))
          ∨ (∃ keys s0,
                trace s0 = trace s ++ opening ++ [EvOpen out_path]
                ∧ let loop :=
                    for_each keys
                      (convert_message E per_message_verbose tick out_path mdir)
                      {| count := 0; ok := 0; raw := 0; skip := 0;
                         msg_total := total |}
                      s0 in
                  ∃ post,
                    trace run.2
                    = trace loop.2 ++ [EvFlush out_path; EvClose out_path] ++ post
                    ∧ match loop.1 with
                      | inl a => run.1 = inl a ∧ post = []
                      | inr c =>
                          post = [EvPrint (Done (count c) (ok c) (raw c) (skip c))]
                          ∧ (run.1 = inr (msg_total c)
                             ∨ ∃ e w w',
                                 env_print E (Done (count c) (ok c) (raw c) (skip c)) w
                                 = (Some e, w')
                                 ∧ run.1 = inl (Raised e))
                      end)
      end)
  ∧ (∀ per_message_verbose tick out_path mdir keys total k c s sk,
       0 < k → k `mod` 200 = 0 → k ≤ length keys →
       for_each (take k keys) (convert_message E per_message_verbose tick out_path mdir)
         {| count := 0; ok := 0; raw := 0; skip := 0; msg_total := total |} s
       = (inr c, sk) →
       last (trace sk) = Some (EvFlush out_path))
  ∧ (benign E → ∀ fs cwd root dst_dir per_message_verbose tick s,
       wf fs = true →
       ∃ total s',
         convert_maildir E fs cwd root dst_dir per_message_verbose tick s = (inr total, s')
         ∧ closes (trace s') = closes (trace s) + length (find_maildirs fs cwd root)).
Proof.
  split_and!.
  - intros. apply convert_folder_cases.
  - intros. by eapply for_each_flush.
  - intros HE fs cwd root dst_dir v t s Hfs. by apply runs_convert_maildir.
Qed.

Lemma flush_and_close_witness :
  (let E := Demo.env_mute Demo.tree in
   let run := convert_folder E Demo.tree "/" "/srv/mail" "/out" true 0 0
                "/srv/mail/.Sent" (Demo.start []) in
   run.1 = inl (Raised (OtherError "BrokenPipeError"))
   ∧ ∃ evs, trace run.2
            = evs ++ [EvFlush "/out/Sent.mbox"; EvClose "/out/Sent.mbox"])
  ∧ (let E := Demo.env_with Demo.tree
                {| Demo.parse_fails := false; Demo.read_fails := false;
                   Demo.add_fails := λ _, false; Demo.sync_fails := true |} in
     benign E
     ∧ wf Demo.tree = true
     ∧ ∃ total s',
         convert_maildir E Demo.tree "/" "/srv/mail" "/out" false 200 (Demo.start [])
         = (inr total, s')
         ∧ closes (trace s') = 3).
Proof.
  split.
  - intros E run.
    assert (mbox_filename "/" "/srv/mail" "/srv/mail/.Sent" = inr "Sent.mbox") as Hname
      by reflexivity.
    assert (run.1 = inl (Raised (OtherError "BrokenPipeError"))) as Hres
      by (vm_compute; reflexivity).
    assert (length (trace run.2) = 7) as Hlen by (vm_compute; reflexivity).
    split; [exact Hres|]. unfold run in *.
    destruct (flush_and_close E) as (Hfolder & _ & _).
    specialize (Hfolder Demo.tree "/" "/srv/mail" "/out" true 0 0 "/srv/mail/.Sent"
                  (Demo.start [])).
    rewrite Hname in Hfolder. cbv zeta in Hfolder.
    destruct Hfolder as [(e & evs & _ & Ht & Hevs)|(keys & s0 & _ & post & Ht & Hcase)].
    + rewrite Ht in Hlen.
      destruct Hevs as [->|[->|[-> _]]]; vm_compute in Hlen; discriminate Hlen.
    + destruct (for_each keys _ _ s0) as [[a|c] sl]; cbn [fst snd] in Ht, Hcase.
      * destruct Hcase as (_ & ->). exists (trace sl). exact Ht.
      * destruct Hcase as (_ & [Hr|(e & w & w' & Hpr & _)]); [congruence|].
        unfold E in Hpr. simpl in Hpr. discriminate.
  - intros E.
    assert (benign E) as HE by (repeat split; intros; simpl; eauto).
    assert (wf Demo.tree = true) as Hfs by reflexivity.
    split; [done|]. split; [done|].
    destruct (flush_and_close E) as (_ & _ & Hruns).
    destruct (Hruns HE Demo.tree "/" "/srv/mail" "/out" false 200 (Demo.start []) Hfs)
      as (total & s' & Hrun & Hcloses).
    exists total, s'. split; [done|]. by rewrite Hcloses.
Defined.

(** * Further properties of the script *)

(** X1.  [choose] shows its prompt, reads one line and returns it with the
    white space of [str.strip] (that of Unicode, not of ASCII only) removed
    at both ends, or the default when the line is nothing but white space;
    what it returns from a typed answer is not empty and is already
    trimmed, so trimming it again changes nothing.  The prompt is all it
    writes, it touches no file, and a failed read is raised to the
    caller. *)
Theorem choose_trimmed {W Msg} (E : @Env W Msg) prompt default (s : @state W Msg) :
  match env_input E prompt (hid s) with
  | (inl e, w) =>
      choose E prompt default s
      = (inl (Raised e),
         {| hid := w; files := files s; trace := trace s ++ [EvInput prompt] |})
  | (inr v, w) =>
      ∃ x, choose E prompt default s
           = (inr x,
              {| hid := w; files := files s; trace := trace s ++ [EvInput prompt] |})
           ∧ ((all_space v = true ∧ x = default)
              ∨ (all_space v = false ∧ x = Str.strip v ∧ x ≠ ""
                 ∧ Str.strip x = x))
  end.
Proof.
  unfold choose, input, log, mbind, M_bind, mret, M_ret.
  destruct (env_input E prompt (hid s)) as [[e|v] w]; [done|].
  eexists. split; [done|].
  destruct (all_space v) eqn:Hv.
  - left. split; [done|]. by rewrite decide_True by (by apply strip_empty).
  - right. assert (Str.strip v ≠ "") as Hne.
    { intros Hs%strip_empty. by rewrite Hs in Hv. }
    rewrite decide_False by done. split_and!; [done..|apply strip_idem].
Qed.

Lemma choose_trimmed_witness :
  let nbsp := String "194"%char (String "160"%char "") in
  let wide := String "227"%char (String "128"%char (String "128"%char "")) in
  let E := Demo.env Demo.tree true in
  (choose E "Enter: " "none" (Demo.start [nbsp +:+ " /out" +:+ wide])).1 = inr "/out"
  ∧ (choose E "Enter: " "none" (Demo.start [wide +:+ nbsp])).1 = inr "none".
Proof.
  intros nbsp wide E. split.
  - pose proof (choose_trimmed E "Enter: " "none"
                  (Demo.start [nbsp +:+ " /out" +:+ wide])) as H.
    cbn [env_input E Demo.env Demo.env_with Demo.start hid] in H.
    destruct H as (x & -> & [(Hsp & _)|(_ & -> & _)]); [|reflexivity].
    vm_compute in Hsp. discriminate Hsp.
  - pose proof (choose_trimmed E "Enter: " "none" (Demo.start [wide +:+ nbsp])) as H.
    cbn [env_input E Demo.env Demo.env_with Demo.start hid] in H.
    destruct H as (x & -> & [(_ & ->)|(Hsp & _)]); [reflexivity|].
    vm_compute in Hsp. discriminate Hsp.
Defined.

(** X2.  When [main] ends by its own [sys.exit(1)], the script has only
    written to the terminal, lines and prompts: no directory was made, no
    archive was opened and no file was changed.  The last line printed says
    why: no source, a source that is not a directory, or no destination.
    (An uncaught exception is another matter: it may come after the
    destination was made.) *)
Theorem main_rejects_before_writing {W Msg} (E : @Env W Msg) fs cwd
    (s s' : @state W Msg) :
  main E fs cwd s = (inl (SystemExit 1), s') →
  files s' = files s
  ∧ ∃ evs l,
      trace s' = trace s ++ evs
      ∧ Forall on_terminal evs
      ∧ last (printed evs) = Some l
      ∧ (l = NoSource
         ∨ (∃ src, l = SourceMissing src ∧ Fs.isdir fs cwd src = false)
         ∨ l = NoDestination).
Proof.
  intros Hmain. destruct (main_cases E fs cwd s) as (r & s1 & evs & Hm & Hcase).
  rewrite Hmain in Hm. injection Hm as <- <-.
  destruct Hcase as (Ht & [(_ & Hf & Hevs & l & Hl & Hwhy)|(? & _)]); [|done].
  split; [done|]. by exists evs, l.
Qed.

Lemma main_rejects_before_writing_witness :
  let run := main (Demo.env Demo.tree true) Demo.tree "/" (Demo.start ["/etc/passwd"]) in
  run.1 = inl (SystemExit 1)
  ∧ files run.2 = ∅
  ∧ ∃ evs, trace run.2 = [] ++ evs ∧ Forall on_terminal evs.
Proof.
  intros run.
  assert (run = (inl (SystemExit 1), run.2)) as Hrun by (vm_compute; reflexivity).
  split; [by rewrite Hrun|].
  destruct (main_rejects_before_writing _ _ _ _ _ Hrun) as (Hf & evs & l & Ht & Hevs & _).
  split; [done|]. by exists evs.
Defined.

(** X3.  [main] ends in one of four ways: an exception that nothing
    catches; [sys.exit(1)]; [sys.exit(2)], and then the last line printed is
    the one that reports no folder or the one that reports 0 messages; or a
    normal return, and then the last line printed reports a positive number
    of messages.  It calls [sys.exit] with no other code. *)
Theorem main_exit_status {W Msg} (E : @Env W Msg) fs cwd (s : @state W Msg) :
  match (main E fs cwd s).1 with
  | inr _ =>
      ∃ evs n dst,
        trace (main E fs cwd s).2 = trace s ++ evs
        ∧ 0 < n ∧ last (printed evs) = Some (AllDone n dst)
  | inl (SystemExit c) =>
      c = 1
      ∨ (c = 2
         ∧ ∃ evs x,
             trace (main E fs cwd s).2 = trace s ++ evs
             ∧ (last (printed evs) = Some (NoMaildirs x)
                ∨ last (printed evs) = Some (AllDone 0 x)))
  | inl (Raised _) => True
  end.
Proof.
  destruct (main_cases E fs cwd s) as (r & s1 & evs & -> & Hcase). simpl.
  destruct r as [[e|c]|[]]; simpl.
  - done.
  - destruct Hcase as (Ht & [(-> & _)|(-> & x & Hlast)]).
    + by left.
    + right. split; [done|]. by exists evs, x.
  - destruct Hcase as (Ht & n & dst & Hn & Hlast). by exists evs, n, dst.
Qed.

(** X4.  Whatever the environment does, a run of [convert_maildir] records
    only lines printed and calls on the archives of the folders it found
    (making their directory, opening, adding, flushing, closing); it only
    appends to what a file held before; it leaves every other file as it
    was; and it never ends in [sys.exit]. *)
Theorem convert_maildir_footprint {W Msg} (E : @Env W Msg) fs cwd root dst_dir
    per_message_verbose tick (s : @state W Msg) :
  let run := convert_maildir E fs cwd root dst_dir per_message_verbose tick s in
  (∃ evs, trace run.2 = trace s ++ evs
          ∧ Forall (about (run_target fs cwd root dst_dir)) evs)
  ∧ (∀ p, files s !!! p `prefix_of` files run.2 !!! p)
  ∧ (∀ p, ¬ run_target fs cwd root dst_dir p → files run.2 !! p = files s !! p)
  ∧ (∀ c, run.1 ≠ inl (SystemExit c)).
Proof. apply confined_convert_maildir. Qed.

(** X5.  A folder that is converted to the end leaves this record, in this
    order: the announcement, the directory of the archive made, the archive
    opened, then only adds and flushes on this archive and progress lines,
    then one flush and one close of the archive, then the [Done] line.  The
    loop flushes once for every 200 messages; the counts of the [Done] line
    add up, the first is what the folder adds to the total, and the [add]
    calls that returned are as many as the [OK] and [RAW] counts
    together. *)
Theorem convert_folder_protocol {W Msg} (E : @Env W Msg) fs cwd root dst_dir
    per_message_verbose tick total mdir (s : @state W Msg) total' s' :
  convert_folder E fs cwd root dst_dir per_message_verbose tick total mdir s
  = (inr total', s') →
  ∃ name body c,
    let out_path := Posix.join dst_dir [name] in
    mbox_filename cwd root mdir = inr name
    ∧ trace s' = trace s
        ++ [EvPrint (Converting mdir out_path); EvMakedirs (Posix.dirname out_path);
            EvOpen out_path]
        ++ body
        ++ [EvFlush out_path; EvClose out_path;
            EvPrint (Done (count c) (ok c) (raw c) (skip c))]
    ∧ Forall (step_event out_path) body
    ∧ flushes body = count c `div` 200
    ∧ count c = ok c + raw c + skip c
    ∧ total' = total + count c
    ∧ length (added out_path body) = ok c + raw c.
Proof.
  intros (name & body & rs & c & Hname & Ht & Hbody & Hfl & Hsum & Htotal & _ & Hlen
          & Ha)%convert_folder_shape.
  exists name, body, c. simpl in *. rewrite Ha. by split_and!.
Qed.

Lemma convert_folder_protocol_witness :
  let run := convert_folder (Demo.env Demo.tree true) Demo.tree "/" "/srv/mail" "/out"
               true 0 5 "/srv/mail/.Sent" (Demo.start []) in
  ∃ name body c,
    run.1 = inr 6
    ∧ name = "Sent.mbox"
    ∧ trace run.2
      = [EvPrint (Converting "/srv/mail/.Sent" "/out/Sent.mbox"); EvMakedirs "/out";
         EvOpen "/out/Sent.mbox"]
        ++ body
        ++ [EvFlush "/out/Sent.mbox"; EvClose "/out/Sent.mbox";
            EvPrint (Done (count c) (ok c) (raw c) (skip c))]
    ∧ 6 = 5 + count c
    ∧ length (added "/out/Sent.mbox" body) = ok c + raw c.
Proof.
  intros run.
  assert (run = (inr 6, run.2)) as Hrun by (vm_compute; reflexivity).
  destruct (convert_folder_protocol _ _ _ _ _ _ _ _ _ _ _ _ Hrun)
    as (name & body & c & Hname & Ht & _ & _ & _ & Htotal & Hadded).
  assert (name = "Sent.mbox") as -> by (vm_compute in Hname; congruence).
  exists "Sent.mbox", body, c.
  split; [by rewrite Hrun|]. split; [done|]. split; [exact Ht|].
  split; [exact Htotal|exact Hadded].
Defined.

(** X6.  The file name of an archive holds no separator, so every archive
    lies directly in the destination directory: the directory made for it is
    the destination without its trailing separators, never a directory below
    it. *)
Theorem archives_flat cwd src_root maildir_root dst_dir name :
  mbox_filename cwd src_root maildir_root = inr name →
  has_sep name = false
  ∧ Posix.dirname (Posix.join dst_dir [name])
    = (if decide (Posix.rstrip_sep dst_dir = "") then dst_dir
       else Posix.rstrip_sep dst_dir).
Proof.
  intros Hname%mbox_filename_no_sep. split; [done|]. by apply dirname_join.
Qed.

Lemma archives_flat_witness :
  mbox_filename "/" "/srv/mail" "/srv/mail/lists/rocq" = inr "lists_rocq.mbox"
  ∧ Posix.dirname (Posix.join "/out/" ["lists_rocq.mbox"]) = "/out".
Proof.
  assert (mbox_filename "/" "/srv/mail" "/srv/mail/lists/rocq" = inr "lists_rocq.mbox")
    as Hname by reflexivity.
  split; [done|].
  destruct (archives_flat "/" "/srv/mail" "/srv/mail/lists/rocq" "/out/" _ Hname)
    as (_ & ->).
  reflexivity.
Defined.

(** X7.  A run that completes prints either the one line that reports no
    folder, and returns 0, or the [Found] line first and the [All done] line
    last; between them there is one [Done] line for every folder found, and
    the total reported and returned is the sum of the counts of the [Done]
    lines. *)
Theorem convert_maildir_totals {W Msg} (E : @Env W Msg) fs cwd root dst_dir
    per_message_verbose tick (s : @state W Msg) total s' :
  convert_maildir E fs cwd root dst_dir per_message_verbose tick s = (inr total, s') →
  ∃ evs,
    trace s' = trace s ++ evs
    ∧ total = sum_list (done_counts (printed evs))
    ∧ length (done_counts (printed evs)) = length (find_maildirs fs cwd root)
    ∧ (find_maildirs fs cwd root = [] → printed evs = [NoMaildirs root])
    ∧ (find_maildirs fs cwd root ≠ [] →
         head (printed evs) = Some (Found (length (find_maildirs fs cwd root)))
         ∧ last (printed evs) = Some (AllDone total dst_dir)).
Proof.
  intros [(Hnil & -> & _ & Ht)|(Hne & evs & Ht & Hsum & Hlen & _)]%convert_maildir_shape.
  - eexists. split; [done|]. rewrite Hnil. by split_and!.
  - eexists. split; [done|].
    rewrite !printed_app, !done_counts_app, length_app, length_app, sum_list_with_app,
      sum_list_with_app.
    unfold printed at 1 3 4 6 7 9, done_counts at 1 3 4 6. simpl.
    split_and!; [lia|lia|done|]. intros _. split; [done|].
    change (Found (length (find_maildirs fs cwd root)) :: printed evs
            ++ [AllDone total dst_dir])
      with ((Found (length (find_maildirs fs cwd root)) :: printed evs)
            ++ [AllDone total dst_dir]).
    apply last_snoc.
Qed.

Lemma convert_maildir_totals_witness :
  let run := convert_maildir (Demo.env Demo.tree true) Demo.tree "/" "/srv/mail" "/out"
               false 200 (Demo.start []) in
  run.1 = inr 3
  ∧ ∃ evs,
      trace run.2 = [] ++ evs
      ∧ 3 = sum_list (done_counts (printed evs))
      ∧ length (done_counts (printed evs)) = 3.
Proof.
  intros run.
  assert (run = (inr 3, run.2)) as Hrun by (vm_compute; reflexivity).
  destruct (convert_maildir_totals _ _ _ _ _ _ _ _ _ _ Hrun)
    as (evs & Ht & Hsum & Hlen & _).
  split; [by rewrite Hrun|]. exists evs.
  split; [exact Ht|]. split; [exact Hsum|]. rewrite Hlen. vm_compute. reflexivity.
Defined.

(** X8.  When the loop over the keys of a folder completes, the [add] calls
    on the archive that returned are as many as the [OK] and [RAW] counts
    together, and those of a parsed message as many as the [OK] count.
    Their records come in the order of the keys, each from a key of its own
    (the message parsed for that key, the bytes read for it, or the
    placeholder); the keys without such a call are as many as the [SKIP]
    count, so when nothing is skipped every key has its record. *)
Theorem loop_records {W Msg} (E : @Env W Msg) per_message_verbose tick out_path mdir
    keys total (s : @state W Msg) c s' :
  for_each keys (convert_message E per_message_verbose tick out_path mdir)
    {| count := 0; ok := 0; raw := 0; skip := 0; msg_total := total |} s
  = (inr c, s') →
  ∃ body ks,
    trace s' = trace s ++ body
    ∧ length (filter (λ r, is_parsed r) (added out_path body)) = ok c
    ∧ length (added out_path body) = ok c + raw c
    ∧ ks `sublist_of` keys
    ∧ length ks + skip c = length keys
    ∧ (skip c = 0 → ks = keys)
    ∧ Forall2 (record_for E mdir) ks (added out_path body).
Proof.
  intros Hrun.
  destruct (loop_records_inv _ _ _ _ _ _ _ _ _ _ Hrun)
    as (rs & ks & Hf & Hok & Hlen & Hskip & Hsub & Hrec).
  destruct (loop_added_inv _ _ _ _ _ _ _ _ _ _ Hrun) as (body & Ht & Hfa).
  assert (added out_path body = rs) as <-
    by (rewrite Hf in Hfa; by apply app_inv_head in Hfa).
  simpl in *. exists body, ks. split_and!; [done|lia|lia|done|lia| |done].
  intros Hzero. apply sublist_same_length; [done|lia].
Qed.

Lemma loop_records_witness :
  let E := Demo.env_with Demo.tree
             {| Demo.parse_fails := true; Demo.read_fails := false;
                Demo.add_fails := λ r, match r with
                                       | RawBytes raw => bool_decide (raw = "m2")
                                       | Parsed _ => false
                                       end;
                Demo.sync_fails := false |} in
  let run := for_each ["m1"; "m2"; "m3"]
               (convert_message E false 200 "/out/Inbox.mbox" "/srv/mail")
               {| count := 0; ok := 0; raw := 0; skip := 0; msg_total := 0 |}
               (Demo.start []) in
  ∃ c body,
    run.1 = inr c
    ∧ trace run.2 = [] ++ body
    ∧ length (added "/out/Inbox.mbox" body) = ok c + raw c
    ∧ length (filter (λ r, is_parsed r) (added "/out/Inbox.mbox" body)) = ok c.
Proof.
  intros E run.
  assert (∃ c, run = (inr c, run.2)) as [c Hrun] by (eexists; vm_compute; reflexivity).
  destruct (loop_records _ _ _ _ _ _ _ _ _ _ Hrun) as (body & ks & Ht & Hok & Hlen & _).
  exists c, body. split; [by rewrite Hrun|].
  split; [exact Ht|]. split; [exact Hlen|exact Hok].
Defined.

(** X9.  The progress lines of a folder.  In the per-message mode the loop
    prints one line for every key, numbered from 1, in the order of the
    keys.  In the periodic mode it prints one line every [tick] messages
    (none at all when [tick] is 0), each with a count that is a positive
    multiple of [tick] and the sum of the three counts beside it. *)
Theorem loop_progress {W Msg} (E : @Env W Msg) per_message_verbose tick out_path mdir
    keys total (s : @state W Msg) c s' :
  for_each keys (convert_message E per_message_verbose tick out_path mdir)
    {| count := 0; ok := 0; raw := 0; skip := 0; msg_total := total |} s
  = (inr c, s') →
  ∃ body,
    trace s' = trace s ++ body
    ∧ (per_message_verbose = true →
         ∃ outcomes,
           length outcomes = length keys
           ∧ printed body
             = imap (λ i p, PerMessage (S i) p.1 p.2) (zip outcomes keys))
    ∧ (per_message_verbose = false →
         length (printed body)
         = (if decide (tick = 0) then 0 else length keys `div` tick)
         ∧ Forall (λ l, ∃ k a b d, l = Periodic k a b d ∧ k ≠ 0 ∧ k `mod` tick = 0
                                   ∧ a + b + d = k) (printed body)).
Proof.
  intros Hrun.
  destruct (λ H1 H2, loop_trace_inv E _ _ _ _ _ _ _ _ _ H1 H2 Hrun)
    as (body & Ht & _ & _ & Hv & Hp); [done..|].
  by exists body.
Qed.

Lemma loop_progress_witness :
  let run := for_each ["m1"; "m2"; "m3"]
               (convert_message (Demo.env Demo.tree true) false 2 "/out/Inbox.mbox"
                  "/srv/mail")
               {| count := 0; ok := 0; raw := 0; skip := 0; msg_total := 0 |}
               (Demo.start []) in
  ∃ c body,
    run.1 = inr c ∧ trace run.2 = [] ++ body ∧ length (printed body) = 1.
Proof.
  intros run.
  assert (∃ c, run = (inr c, run.2)) as [c Hrun] by (eexists; vm_compute; reflexivity).
  destruct (loop_progress _ _ _ _ _ _ _ _ _ _ Hrun) as (body & Ht & _ & Hp).
  destruct (Hp eq_refl) as (Hlen & _).
  exists c, body. split; [by rewrite Hrun|]. split; [exact Ht|].
  rewrite Hlen. reflexivity.
Defined.

(** X10.  On a well-formed tree, a source root that is a mailbox itself is
    the first folder of the list, so it is the first to be converted. *)
Theorem find_maildirs_root_first fs cwd root :
  wf fs = true → Fs.isdir fs cwd root = true → is_maildir fs cwd root = true →
  head (find_maildirs fs cwd root) = Some root.
Proof. apply find_maildirs_head. Qed.

Lemma find_maildirs_root_first_witness :
  wf Demo.tree = true
  ∧ is_maildir Demo.tree "/" "/srv/mail" = true
  ∧ head (find_maildirs Demo.tree "/" "/srv/mail") = Some "/srv/mail".
Proof.
  split; [reflexivity|]. split; [reflexivity|].
  exact (find_maildirs_root_first Demo.tree "/" "/srv/mail" eq_refl eq_refl eq_refl).
Defined.

(** X11.  On a well-formed tree, [is_maildir] holds of a path exactly when
    the path leads to a directory in which [cur], [new] and [tmp] are all
    subdirectories: a missing path or a file is no mailbox, and a file named
    [cur] does not count. *)
Theorem is_maildir_spec fs cwd path :
  wf fs = true → path ≠ "" →
  is_maildir fs cwd path = true ↔ qualifies fs cwd path.
Proof. apply is_maildir_iff. Qed.

Lemma is_maildir_spec_witness :
  wf Demo.tree = true
  ∧ (is_maildir Demo.tree "/" "/srv/mail/notes" = true
     ↔ qualifies Demo.tree "/" "/srv/mail/notes")
  ∧ is_maildir Demo.tree "/" "/srv/mail/notes" = false.
Proof.
  split; [reflexivity|]. split; [|reflexivity].
  apply (is_maildir_spec Demo.tree "/" "/srv/mail/notes" eq_refl). done.
Defined.

(** X12.  With a mailbox layer that parses every message of the folder and an
    archive that takes every record, a loop that completes loses nothing:
    the archive grows by the parsed messages of all the keys, one for each
    key, in the order of the keys, and every message counts as [OK]. *)
Theorem loop_lossless {W Msg} (E : @Env W Msg) per_message_verbose tick out_path mdir
    keys total (s : @state W Msg) c s' :
  (∀ key w, ∃ m, (env_get_message E mdir key w).1 = inr m) →
  (∀ r w, (env_add E out_path r w).1 = None) →
  for_each keys (convert_message E per_message_verbose tick out_path mdir)
    {| count := 0; ok := 0; raw := 0; skip := 0; msg_total := total |} s
  = (inr c, s') →
  ∃ ms,
    files s' !!! out_path = files s !!! out_path ++ (Parsed <$> ms)
    ∧ Forall2 (λ key m, ∃ w w', env_get_message E mdir key w = (inr m, w')) keys ms
    ∧ ok c = length keys ∧ raw c = 0 ∧ skip c = 0.
Proof.
  intros Hget Hadd (ms & Hf & Hms & Hok & Hraw & Hskip)%loop_lossless_inv; [|done..].
  by exists ms.
Qed.

Lemma loop_lossless_witness :
  let E := Demo.env Demo.tree true in
  let run := for_each ["m1"; "m2"]
               (convert_message E true 0 "/out/Inbox.mbox" "/srv/mail")
               {| count := 0; ok := 0; raw := 0; skip := 0; msg_total := 0 |}
               (Demo.start []) in
  ∃ c ms,
    run.1 = inr c
    ∧ files run.2 !!! "/out/Inbox.mbox" = [] ++ (Parsed <$> ms)
    ∧ ok c = 2.
Proof.
  intros E run.
  assert (∃ c, run = (inr c, run.2)) as [c Hrun] by (eexists; vm_compute; reflexivity).
  assert (∀ key w, ∃ m, (env_get_message E "/srv/mail" key w).1 = inr m) as Hget
    by (intros; simpl; eauto).
  assert (∀ r w, (env_add E "/out/Inbox.mbox" r w).1 = None) as Hadd by done.
  destruct (loop_lossless _ _ _ _ _ _ _ _ _ _ Hget Hadd Hrun) as (ms & Hf & _ & Hok & _).
  exists c, ms. split; [by rewrite Hrun|]. split; [exact Hf|exact Hok].
Defined.
